(** * go-xrr-gamma: gamma lookup tables, the alert driver and the animation loop

    A shallow embedding of the packages [gamma], [gamma/animate] and
    [gamma/animate/alert].

    Conventions.
    - [time.Duration] and Go's [int] are 64-bit integers: they are modelled
      as [Z] with the wrap-around written out ([wrap64]).
    - [float64] is idealised as a real number: [+ - * /] are the operations of
      [R], [math.Cos] is [cos], and conversions from integers are exact.
      Statements about numeric values are statements about this idealisation.
    - A Go function value is either [nil] or a closure, and a closure may
      panic when called: [XferFn] is [option (Channel -> R -> option R)].
    - The animation goroutine talks to the X server, the clock and three
      channels.  Their answers are given to the model as a script (one record
      per loop iteration) and its own actions are collected in a trace. *)

From Stdlib Require Import Reals Lra Lia ZArith List Bool.
From stdpp Require Import base option list.
Import ListNotations.

(** ** Go's primitive types *)

Module Go.

Definition minInt64 : Z := - 2 ^ 63.
Definition maxInt64 : Z := 2 ^ 63 - 1.

(** Two's complement wrap-around of 64-bit signed arithmetic. *)
Definition wrap64 (z : Z) : Z := ((z + 2 ^ 63) mod 2 ^ 64 - 2 ^ 63)%Z.

(** Saturation at the bounds of int64. *)
Definition sat64 (z : Z) : Z := Z.max minInt64 (Z.min maxInt64 z).

Definition is_int64 (z : Z) : Prop := (minInt64 <= z <= maxInt64)%Z.

(** [time.Duration]: a count of nanoseconds in an int64. *)
Definition Duration := Z.
Definition Nanosecond : Duration := 1%Z.
Definition Millisecond : Duration := 1000000%Z.
Definition Second : Duration := 1000000000%Z.

Definition dsub (a b : Duration) : Duration := wrap64 (a - b).
Definition dneg (a : Duration) : Duration := wrap64 (- a).

(** [time.Time]: an instant, in nanoseconds since the zero Time. *)
Definition Time := Z.
Definition zeroTime : Time := 0%Z.

(** [t.Add(d)]. *)
Definition Time_Add (t : Time) (d : Duration) : Time := (t + d)%Z.

(** [t.Sub(u)]: the duration t-u, or the maximum (minimum) duration when
    t-u does not fit a Duration. *)
Definition Time_Sub (t u : Time) : Duration := sat64 (t - u).

(** [float64(n)] for an integer n. *)
Definition float64_of_int (n : Z) : R := IZR n.

(** [int(x)] for a float64 x: truncation toward zero. *)
Definition int_of_float64 (x : R) : Z :=
  if Rlt_dec x 0 then Zceil x else Zfloor x.

(** [math.Modf]: integer and fractional part, both with the sign of x. *)
Definition Modf (x : R) : R * R :=
  let i := IZR (int_of_float64 x) in (i, (x - i)%R).

(** [s[i]] for a slice s and an int i; [None] is the run-time panic. *)
Definition index {A} (s : list A) (i : Z) : option A :=
  if (i <? 0)%Z then None else s !! Z.to_nat i.

Arguments wrap64 z%_Z.
Arguments sat64 z%_Z.
Arguments is_int64 z%_Z.
Arguments dsub (a b)%_Z.
Arguments dneg a%_Z.
Arguments Time_Add (t d)%_Z.
Arguments Time_Sub (t u)%_Z.
Arguments float64_of_int n%_Z.
Arguments int_of_float64 x%_R.
Arguments Modf x%_R.
Arguments index {A} s i%_Z.

(** The [error] values this program creates, by their message. *)
Inductive error :=
| ErrScreenResources   (* gamma: "Error getting XRRScreenResources." *)
| ErrCrtcGammaSize     (* gamma: "Error getting CrtcGammaSize." *)
| ErrAllocGamma        (* gamma: "Error allocating XRRCrtcGamma." *)
| ErrGetCrtcGamma      (* gamma: "Error getting CrtcGamma." *)
| ForeignCrtcUpdate.   (* animate: "A foreign process updated the CRTC
                          lookup tables." *)

End Go.

(** ** Package gamma *)

Module Gamma.
Import Go.

Inductive Channel := Red | Green | Blue.

Definition channels : list Channel := [Red; Green; Blue].

(** A closure of type [func(ch Channel, in float64) (out float64)]. *)
Definition closure := Channel -> R -> option R.

(** [XferFn]: [None] is the nil function value. *)
Definition XferFn := option closure.

(** Calling a function value; calling nil panics. *)
Definition call (f : XferFn) (ch : Channel) (x : R) : option R :=
  f ≫= fun g => g ch x.

Definition DimFn (coef : R) : XferFn :=
  let coef := Rmax (Rmin coef 1) 0 in
  Some (fun _ x => Some (x * coef)%R).

Definition Chain (a b : XferFn) : XferFn :=
  Some (fun ch x => call a ch x ≫= fun y => call b ch y).

Definition Mul (a b : XferFn) : XferFn :=
  Some (fun ch x =>
          call a ch x ≫= fun u =>
          call b ch x ≫= fun v => Some (u * v)%R).

(** Samples are C unsigned shorts. *)
Definition ushort := Z.

(** [[][]C.ushort]: [None] is the nil slice. *)
Definition table := option (list (list ushort)).

(** [LookupTable]: the array [t] indexed by channel, then crtc, then idx. *)
Record LookupTable := mkLookupTable {
  tRed : table;
  tGreen : table;
  tBlue : table
}.

Definition t (lt : LookupTable) (ch : Channel) : table :=
  match ch with
  | Red => tRed lt
  | Green => tGreen lt
  | Blue => tBlue lt
  end.

(** The elements of a slice; a nil slice has none. *)
Definition elems (s : table) : list (list ushort) := default [] s.

(** The zero value [LookupTable{}]. *)
Definition zeroLookupTable : LookupTable := mkLookupTable None None None.

(** The three nested loops of [Equals]; each returns false at the first
    mismatch.  The indices are in range by the loop bounds and the two
    length tests. *)
Definition Equals (lt o : LookupTable) : bool :=
  forallb (fun ch =>
    let a1 := elems (t lt ch) in
    let b1 := elems (t o ch) in
    (length a1 =? length b1)%nat &&
    forallb (fun crtc =>
      let a2 := a1 !!! crtc in
      let b2 := b1 !!! crtc in
      (length a2 =? length b2)%nat &&
      forallb (fun idx => (a2 !!! idx =? b2 !!! idx)%Z)
              (seq 0 (length a2)))
      (seq 0 (length a1)))
    channels.

Definition IsZero (lt : LookupTable) : bool :=
  match t lt Red with
  | None => true
  | Some _ => false
  end.

(** One turn of the loop over the controllers in [LookupTable.XferFn]. *)
Definition XferFn_step (tlen : nat) (x : R) (acc : option R)
           (lut : list ushort) : option R :=
  acc ≫= fun acc =>
  let '(base, frac) := Modf (x * INR (length lut)) in
  if (int_of_float64 base <? Z.of_nat tlen - 1)%Z then
    index lut (int_of_float64 base) ≫= fun lo =>
    index lut (int_of_float64 base + 1) ≫= fun hi =>
    Some (acc + (float64_of_int lo * (1 - frac) + float64_of_int hi * frac))%R
  else
    index lut (int_of_float64 base) ≫= fun lo =>
    Some (acc + float64_of_int lo)%R.

Definition LookupTable_XferFn (lt : LookupTable) : XferFn :=
  Some (fun ch x =>
    let tc := elems (t lt ch) in
    let crtcs := INR (length tc) in
    foldl (XferFn_step (length tc) x) (Some 0%R) tc ≫= fun acc =>
    Some (acc / crtcs / 65535)%R).

(** What [XRRGetCrtcGamma] hands back for one CRTC: the three ramps. *)
Record XRRCrtcGamma := mkCrtcGamma {
  red : list ushort;
  green : list ushort;
  blue : list ushort
}.

(** [Session.GetLookupTable], given the answer of the X server for the
    primary CRTC ([None]: a nil pointer).  Only the primary CRTC is read,
    so each channel holds exactly one controller. *)
Definition GetLookupTable (g : option XRRCrtcGamma)
  : LookupTable * option error :=
  match g with
  | None => (zeroLookupTable, Some ErrGetCrtcGamma)
  | Some g =>
      (mkLookupTable (Some [red g]) (Some [green g]) (Some [blue g]), None)
  end.

(** *** Words of the specification about lookup tables *)

(** The number of controllers of a channel, the ramp of one controller and
    one sample of it. *)
Definition controllers (lt : LookupTable) (ch : Channel) : nat :=
  length (elems (t lt ch)).

Definition ramp (lt : LookupTable) (ch : Channel) (crtc : nat)
  : option (list ushort) :=
  elems (t lt ch) !! crtc.

Definition sample (lt : LookupTable) (ch : Channel) (crtc idx : nat)
  : option ushort :=
  ramp lt ch crtc ≫= fun r => r !! idx.

(** The same topology: as many controllers per channel and as many samples
    per controller. *)
Definition same_topology (a b : LookupTable) : Prop :=
  forall ch,
    controllers a ch = controllers b ch /\
    forall crtc, length <$> ramp a ch crtc = length <$> ramp b ch crtc.

Definition same_samples (a b : LookupTable) : Prop :=
  forall ch crtc idx, sample a ch crtc idx = sample b ch crtc idx.

Definition set_table (lt : LookupTable) (ch : Channel) (s : table)
  : LookupTable :=
  match ch with
  | Red => mkLookupTable s (tGreen lt) (tBlue lt)
  | Green => mkLookupTable (tRed lt) s (tBlue lt)
  | Blue => mkLookupTable (tRed lt) (tGreen lt) s
  end.

(** The table with one sample replaced. *)
Definition set_sample (lt : LookupTable) (ch : Channel) (crtc idx : nat)
           (v : ushort) : LookupTable :=
  set_table lt ch
    (Some (alter (fun r => <[idx := v]> r) crtc (elems (t lt ch)))).

(** The innermost test of [Equals], on two ramps. *)
Definition ramp_eqb (a2 b2 : list ushort) : bool :=
  (length a2 =? length b2)%nat &&
  forallb (fun idx => (a2 !!! idx =? b2 !!! idx)%Z) (seq 0 (length a2)).

(** Following the specification: the linear interpolation between the two
    samples of a ramp that are adjacent to the input; at and after the last
    sample, the last sample. *)
Definition spec_lerp (lut : list ushort) (x : R) : option R :=
  let '(base, frac) := Modf (x * INR (length lut)) in
  let i := int_of_float64 base in
  let last := (Z.of_nat (length lut) - 1)%Z in
  index lut (Z.min i last) ≫= fun lo =>
  index lut (Z.min (i + 1) last) ≫= fun hi =>
  Some (float64_of_int lo * (1 - frac) + float64_of_int hi * frac)%R.

(** Following the specification: the interpolations of the controllers of
    a channel, averaged and normalised to [0,1]. *)
Definition spec_interpolation (lt : LookupTable) (ch : Channel) (x : R)
  : option R :=
  let tc := elems (t lt ch) in
  foldl (fun acc lut =>
           acc ≫= fun a => spec_lerp lut x ≫= fun v => Some (a + v)%R)
        (Some 0%R) tc ≫= fun acc =>
  Some (acc / INR (length tc) / 65535)%R.

(** *** Sample data *)

Definition ramp4 : list ushort := [0; 21845; 43690; 65535]%Z.

Definition gamma4 : XRRCrtcGamma := mkCrtcGamma ramp4 ramp4 ramp4.

(** The table read from a device whose primary CRTC holds [gamma4]. *)
Definition lut4 : LookupTable := (GetLookupTable (Some gamma4)).1.

(** The ramps after another process has halved them. *)
Definition dim4 : XRRCrtcGamma :=
  let r := [0; 10922; 21845; 32767]%Z in mkCrtcGamma r r r.

Definition identity : XferFn := Some (fun _ x => Some x).

(** *** The contract of XferFn *)

(** What the comment on [XferFn] asks of a function: on every channel it
    maps [0,1] into [0,1] (and so does not panic there). *)
Definition in_range (f : XferFn) : Prop :=
  forall ch x, (0 <= x <= 1)%R ->
    exists y, call f ch x = Some y /\ (0 <= y <= 1)%R.

(** *** Clients and sessions *)

(** The calls into Xlib and XRandR, in the order they are made.
    [XRRAllocGamma] is recorded with the pointer it returned, and
    [XRRSetCrtcGamma] with the ramps that the buffer holds. *)
Inductive xcall :=
| XCloseDisplay
| XRRGetScreenResourcesCurrent
| XRRGetCrtcGammaSize (crtc : Z)
| XRRAllocGamma (size : Z) (ptr : option Z)
| XRRFreeScreenResources
| XRRFreeGamma (ptr : Z)
| XRRSetCrtcGamma (crtc : Z) (ptr : Z) (g : XRRCrtcGamma)
| XRRGetCrtcGamma (crtc : Z).

(** A call either returns, or panics; both after some calls into X. *)
Inductive result (A : Type) :=
| Done (a : A) (tr : list xcall)
| Panics (tr : list xcall).

Arguments Done {A} a tr.
Arguments Panics {A} tr.

(** [Client]: whether [dpy] is non-nil, and [open].  A [*Client] is
    [None] when it is the nil pointer. *)
Record Client := mkClient {
  dpy : bool;
  Client_open : bool
}.

(** [NewClient], given whether [XOpenDisplay] returned a display; [None]
    is the pair of nil and the error "Could not open X display.". *)
Definition NewClient (display : bool) : option Client :=
  if display then Some (mkClient true true) else None.

Definition Client_Close (cl : option Client) : option Client * list xcall :=
  match cl with
  | None => (cl, [])
  | Some c =>
      if negb (Client_open c) then (cl, [])
      else (Some (mkClient (dpy c) false), [XCloseDisplay])
  end.

Definition Client_Closed (cl : option Client) : bool :=
  match cl with
  | None => true
  | Some c => negb (Client_open c)
  end.

(** [cl.check()]: false when it panics (a nil receiver panics at
    [cl.dpy]). *)
Definition Client_check (cl : option Client) : bool :=
  match cl with
  | None => false
  | Some c => dpy c && Client_open c
  end.

Record crtcGamma := mkCrtc {
  crtc : Z;
  size : Z;
  gamma : option Z
}.

(** The zero value that [make] puts in [s.crtcs]. *)
Definition zero_crtcGamma : crtcGamma := mkCrtc 0 0 None.

(** [Session], for a session made by [NewSession]: whether [res] is
    non-nil, [crtcs] and [open].  Its [cl] is the client handed to the
    methods below. *)
Record Session := mkSession {
  res : bool;
  crtcs : list crtcGamma;
  Session_open : bool
}.

(** What X answers about one CRTC: its id, its gamma size and the pointer
    that [XRRAllocGamma] returns. *)
Record crtc_answer := mkAnswer {
  ans_crtc : Z;
  ans_size : Z;
  ans_alloc : option Z
}.

(** The loop of [NewSession] over the CRTCs; the entries that it does not
    reach keep their zero value. *)
Fixpoint NewSession_loop (answers : list crtc_answer)
  : list crtcGamma * option error * list xcall :=
  match answers with
  | [] => ([], None, [])
  | a :: rest =>
      let zeros := zero_crtcGamma :: ((fun _ => zero_crtcGamma) <$> rest) in
      if (ans_size a =? 0)%Z then
        (zeros, Some ErrCrtcGammaSize, [XRRGetCrtcGammaSize (ans_crtc a)])
      else
        match ans_alloc a with
        | Some ptr =>
            let '(cs, e, tr) := NewSession_loop rest in
            (mkCrtc (ans_crtc a) (ans_size a) (Some ptr) :: cs, e,
             XRRGetCrtcGammaSize (ans_crtc a)
               :: XRRAllocGamma (ans_size a) (Some ptr) :: tr)
        | None =>
            (zeros, Some ErrAllocGamma,
             [XRRGetCrtcGammaSize (ans_crtc a);
              XRRAllocGamma (ans_size a) None])
        end
  end.

(** [cl.NewSession()], given the CRTCs of the screen resources ([None]:
    [XRRGetScreenResourcesCurrent] returned nil).  The session is returned
    with the error. *)
Definition NewSession (cl : option Client)
           (resources : option (list crtc_answer))
  : result (Session * option error) :=
  if Client_check cl then
    match resources with
    | None =>
        Done (mkSession false [] true, Some ErrScreenResources)
             [XRRGetScreenResourcesCurrent]
    | Some answers =>
        let '(cs, e, tr) := NewSession_loop answers in
        Done (mkSession true cs true, e) (XRRGetScreenResourcesCurrent :: tr)
    end
  else Panics [].

(** The gammas that [Close] frees: those that are not nil. *)
Definition free_gammas (cs : list crtcGamma) : list xcall :=
  omap (fun c => XRRFreeGamma <$> gamma c) cs.

(** [s.Close()], for the session pointer s (nil: [None]) and its client. *)
Definition Session_Close (cl : option Client) (s : option Session)
  : result (option Session) :=
  match s with
  | None => Done s []
  | Some s0 =>
      if negb (Session_open s0) then Done s []
      else if Client_check cl then
        Done (Some (mkSession (res s0) (crtcs s0) false))
             ((if res s0 then [XRRFreeScreenResources] else [])
                ++ free_gammas (crtcs s0))
      else Panics []
  end.

Definition Session_Closed (cl : option Client) (s : option Session)
  : result bool :=
  match s with
  | None => Done true []
  | Some s0 =>
      if Client_check cl then Done (negb (Session_open s0)) []
      else Panics []
  end.

(** *** SetGamma *)

(** [C.ushort(x)] for a float64 x: the fraction is dropped when the result
    fits; otherwise the result depends on the implementation, and is
    [overflow x]. *)
Definition ushort_of_float64 (overflow : R -> ushort) (x : R) : ushort :=
  if Rlt_dec (-1) x then
    if Rlt_dec x 65536 then int_of_float64 x else overflow x
  else overflow x.

(** [gv[idx] = C.ushort(fn(ch, base) * 65535.0)]. *)
Definition sample_at (overflow : R -> ushort) (fn : XferFn) (ch : Channel)
           (size : Z) (idx : nat) : option ushort :=
  let base := (float64_of_int (Z.of_nat idx) / float64_of_int size)%R in
  call fn ch base ≫= fun y => Some (ushort_of_float64 overflow (y * 65535)).

(** The loop over idx for one channel. *)
Definition fill (overflow : R -> ushort) (fn : XferFn) (ch : Channel)
           (size : Z) : option (list ushort) :=
  mapM (sample_at overflow fn ch size) (seq 0 (Z.to_nat size)).

(** [forGammaChannels]: red, green, blue. *)
Definition fill_channels (overflow : R -> ushort) (fn : XferFn) (size : Z)
  : option XRRCrtcGamma :=
  fill overflow fn Red size ≫= fun r =>
  fill overflow fn Green size ≫= fun g =>
  fill overflow fn Blue size ≫= fun b =>
  Some (mkCrtcGamma r g b).

(** The loop of [SetGamma] over the CRTCs: a nil gamma panics in
    [forGammaChannels], a panic of fn ends the loop. *)
Fixpoint SetGamma_loop (overflow : R -> ushort) (fn : XferFn)
         (cs : list crtcGamma) : result unit :=
  match cs with
  | [] => Done tt []
  | c :: cs =>
      match gamma c with
      | None => Panics []
      | Some ptr =>
          match fill_channels overflow fn (size c) with
          | None => Panics []
          | Some g =>
              match SetGamma_loop overflow fn cs with
              | Done _ tr => Done tt (XRRSetCrtcGamma (crtc c) ptr g :: tr)
              | Panics tr => Panics (XRRSetCrtcGamma (crtc c) ptr g :: tr)
              end
          end
      end
  end.

(** [s.SetGamma(fn)]; it tests the client, not [s.open]. *)
Definition Session_SetGamma (overflow : R -> ushort) (cl : option Client)
           (s : Session) (fn : XferFn) : result unit :=
  if Client_check cl then SetGamma_loop overflow fn (crtcs s)
  else Panics [].

(** Whether [s.SetGamma(fn)] returns.  What the conversion to C.ushort does
    out of range plays no part in that, so any conversion will do here. *)
Definition SetGamma_returns (cl : option Client) (s : Session) (fn : XferFn)
  : bool :=
  match Session_SetGamma (fun _ => 0%Z) cl s fn with
  | Done _ _ => true
  | Panics _ => false
  end.

(** A function that does not panic on the inputs that [SetGamma] asks
    for: those in [0,1). *)
Definition total_below_1 (f : XferFn) : Prop :=
  forall ch x, (0 <= x < 1)%R -> is_Some (call f ch x).

(** [s.GetLookupTable()], given what [XRRGetCrtcGamma] returns for the
    primary CRTC (its ramps, as long as the gamma size).  The slice
    [s.crtcs[0:1]] panics when there is no CRTC. *)
Definition Session_GetLookupTable (cl : option Client) (s : Session)
           (answer : option XRRCrtcGamma)
  : result (LookupTable * option error) :=
  if Client_check cl then
    match crtcs s with
    | [] => Panics []
    | c :: _ => Done (GetLookupTable answer) [XRRGetCrtcGamma (crtc c)]
    end
  else Panics [].

(** The pointers that a trace allocates and frees. *)
Definition allocated (tr : list xcall) : list Z :=
  omap (fun c => match c with XRRAllocGamma _ ptr => ptr | _ => None end) tr.

Definition freed (tr : list xcall) : list Z :=
  omap (fun c => match c with XRRFreeGamma ptr => Some ptr | _ => None end) tr.

Definition count_call (c : xcall) (tr : list xcall) : nat :=
  length (List.filter
            (fun d => match c, d with
                      | XCloseDisplay, XCloseDisplay => true
                      | XRRGetScreenResourcesCurrent,
                        XRRGetScreenResourcesCurrent => true
                      | XRRFreeScreenResources, XRRFreeScreenResources => true
                      | _, _ => false
                      end) tr).

(** The samples that a write hands to X. *)
Definition written (tr : list xcall) : list ushort :=
  mjoin (omap (fun c => match c with
                        | XRRSetCrtcGamma _ _ g =>
                            Some (red g ++ green g ++ blue g)
                        | _ => None
                        end) tr).

End Gamma.

(** ** Package alert *)

Module Alert.
Import Go.

(** [Cmd] is an int. *)
Definition Cmd := Z.
Definition noCmd : Cmd := 0%Z.
Definition Warble : Cmd := 1%Z.
Definition Strobe : Cmd := 2%Z.
Definition Exit : Cmd := 3%Z.

(** A non-nil [interface{}] value, as far as [event.(Cmd)] can tell. *)
Inductive dynamic :=
| IsCmd (c : Cmd)
| NotCmd.

Record effect := mkEffect {
  start : Duration;
  apply : Duration -> R -> R * bool
}.

Definition warble (since : Duration) (in_ : R) : R * bool :=
  let period := (125 * Millisecond)%Z in
  let cycles := 5%Z in
  let weight := (1 / 12)%R in
  let duration := (period * cycles)%Z in
  if (since >? duration)%Z then (in_, true)
  else
    let '(_, pos) :=
      Modf (float64_of_int since / float64_of_int period) in
    let pow := (cos (2 * PI * pos) / 2 + 0.5)%R in
    ((1 - ((1 - in_) * ((1 - weight) + weight * pow)))%R, false).

Definition strobe (since : Duration) (in_ : R) : R * bool :=
  let duration := (1250 * Millisecond)%Z in
  if (since >? duration)%Z then (in_, true)
  else
    let pos := (float64_of_int since / float64_of_int duration)%R in
    ((1 - ((1 - in_) * (0.5 + 0.5 * pos)))%R, false).

Arguments warble since%_Z in_%_R.
Arguments strobe since%_Z in_%_R.

Inductive stageT := enter | static | exit.

Definition enterExitDuration : Duration := (250 * Millisecond)%Z.

(** The variables captured by the closure that [Xft] returns. *)
Record vars := mkVars {
  stage : stageT;
  stageStart : Duration;
  sinceStage : Duration;
  strength : R;
  effects : list effect;
  cmd : Cmd;
  effectStrength : R;
  rCmp : R;
  oCmp : R
}.

(** Their values when [Xft] returns: zero values and an empty slice. *)
Definition Xft : vars :=
  mkVars enter 0%Z 0%Z 0%R [] noCmd 0%R 0%R 0%R.

(** [if event == nil { cmd = noCmd } else { cmd = event.(Cmd) }];
    the type assertion panics on any other dynamic type. *)
Definition read_cmd (event : option dynamic) : option Cmd :=
  match event with
  | None => Some noCmd
  | Some (IsCmd c) => Some c
  | Some NotCmd => None
  end.

(** [setStage(s)] at time t. *)
Definition setStage (v : vars) (t : Duration) (s : stageT) : vars :=
  mkVars s t 0%Z (strength v) (effects v) (cmd v)
         (effectStrength v) (rCmp v) (oCmp v).

Definition push (v : vars) (e : effect) : vars :=
  mkVars (stage v) (stageStart v) (sinceStage v) (strength v)
         (effects v ++ [e]) (cmd v) (effectStrength v) (rCmp v) (oCmp v).

(** [sinceStage = t - stageStart] followed by [switch cmd]. *)
Definition on_cmd (v : vars) (t : Duration) (c : Cmd) : vars :=
  let v := mkVars (stage v) (stageStart v) (dsub t (stageStart v))
                  (strength v) (effects v) c
                  (effectStrength v) (rCmp v) (oCmp v) in
  if (c =? Warble)%Z then push v (mkEffect t warble)
  else if (c =? Strobe)%Z then push v (mkEffect t strobe)
  else if (c =? Exit)%Z then
    match stage v with
    | static => setStage v t exit
    | enter =>
        let since := dsub enterExitDuration (sinceStage v) in
        mkVars exit (dsub t since) since (strength v) (effects v) c
               (effectStrength v) (rCmp v) (oCmp v)
    | exit => v
    end
  else v.

Definition set_strength (v : vars) (s : R) : vars :=
  mkVars (stage v) (stageStart v) (sinceStage v) s (effects v) noCmd
         (effectStrength v) (rCmp v) (oCmp v).

(** [cmd = noCmd] followed by [switch stage]; returns the variables,
    sleepFor and exitFlag. *)
Definition on_stage (v : vars) (t : Duration) : vars * Duration * bool :=
  match stage v with
  | static => (set_strength v 1, (2 * Second)%Z, false)
  | enter =>
      let s := (float64_of_int (sinceStage v)
                / float64_of_int enterExitDuration)%R in
      if Rge_dec s 1
      then (setStage (set_strength v 1) t static, 0%Z, false)
      else (set_strength v s, 0%Z, false)
  | exit =>
      let s := (1 - float64_of_int (sinceStage v)
                    / float64_of_int enterExitDuration)%R in
      if Rlt_dec s 0
      then (set_strength v 0, 0%Z, true)
      else (set_strength v s, 0%Z, false)
  end.

Global Instance effect_inhabited : Inhabited effect :=
  populate (mkEffect 0%Z (fun _ x => (x, true))).

(** The loop over the effects.  Every turn either removes an effect or
    moves idx forward, so [length effects - idx] turns are enough. *)
Fixpoint effects_loop (fuel : nat) (t : Duration) (effects : list effect)
         (idx : nat) (effectStrength : R) (sleepFor : Duration)
  : list effect * R * Duration :=
  match fuel with
  | O => (effects, effectStrength, sleepFor)
  | S fuel =>
      match effects !! idx with
      | None => (effects, effectStrength, sleepFor)
      | Some e =>
          let '(out, done) := apply e (dsub t (start e)) effectStrength in
          if done then
            let moved :=
              if (idx <? length effects - 1)%nat
              then <[idx := effects !!! (length effects - 1)%nat]> effects
              else effects in
            effects_loop fuel t (take (length effects - 1) moved) idx
                         out sleepFor
          else effects_loop fuel t effects (S idx) out 0%Z
      end
  end.

(** The closure returned by a tick.  It reads strength, rCmp and oCmp
    through the captured variables: called after a later tick, it sees the
    values that tick left. *)
Definition render (v : vars) (baseFn : Gamma.XferFn) : Gamma.closure :=
  fun ch x =>
    Gamma.call baseFn ch x ≫= fun base =>
    let fx :=
      match ch with
      | Gamma.Red => (base * (1 - rCmp v) + rCmp v)%R
      | Gamma.Green | Gamma.Blue => (base * (1 - oCmp v))%R
      end in
    Some (strength v * fx + (1 - strength v) * base)%R.

(** One call of the closure returned by [Xft]: [None] is a panic. *)
Definition tick (v : vars) (t : Duration) (baseFn : Gamma.XferFn)
           (event : option dynamic)
  : option (vars * (Gamma.XferFn * Duration * bool)) :=
  read_cmd event ≫= fun c =>
  let v := on_cmd v t c in
  let '(v, sleepFor, exitFlag) := on_stage v t in
  let '(effs, es, sleepFor) :=
    effects_loop (length (effects v)) t (effects v) 0 0%R sleepFor in
  let v := mkVars (stage v) (stageStart v) (sinceStage v) (strength v)
                  effs (cmd v) es (0.2 + es * 0.6)%R (0 + es * 0.6)%R in
  Some (v, (Some (render v baseFn), sleepFor, exitFlag)).

Arguments setStage v t%_Z s.
Arguments on_cmd v t%_Z c%_Z.
Arguments on_stage v t%_Z.
Arguments tick v t%_Z baseFn event.

(** *** Regular runs *)

(** Whether an effect reports done at time t (for the input 0). *)
Definition expired (t : Duration) (e : effect) : bool :=
  (apply e (dsub t (start e)) 0%R).2.

(** An effect whose report of done at time t does not depend on its
    input. *)
Definition only_since (t : Duration) (e : effect) : Prop :=
  forall x, (apply e (dsub t (start e)) x).2 = expired t e.

(** An effect that a tick at or before t has pushed. *)
Definition builtin (t : Duration) (e : effect) : Prop :=
  (apply e = warble \/ apply e = strobe) /\ (0 <= start e <= t)%Z.

(** The command Exit arrives in stage enter more than 250ms after the stage
    began: no tick in between has moved the stage to static. *)
Definition late (v : vars) (t : Duration) (c : Cmd) : Prop :=
  c = Exit /\ stage v = enter /\ (250 * Millisecond < t - stageStart v)%Z.

(** What the ticks up to time t leave behind when no command was late. *)
Definition steady (v : vars) (t : Duration) : Prop :=
  (- (250 * Millisecond) <= stageStart v <= t)%Z /\
  Forall (builtin t) (effects v).

(** *** Sample run *)

(** The variables after a first call at 0 without an event, and after a
    second call at 1500ms with the command Exit. *)
Definition after_first : vars :=
  mkVars enter 0%Z 0%Z (IZR 0 / IZR 250000000)%R [] noCmd
         0%R (0.2 + 0 * 0.6)%R (0 + 0 * 0.6)%R.

Definition after_late_exit : vars :=
  mkVars exit 2750000000%Z (-1250000000)%Z
         (1 - IZR (-1250000000) / IZR 250000000)%R [] noCmd
         0%R (0.2 + 0 * 0.6)%R (0 + 0 * 0.6)%R.

(** Two calls of the driver on the identity baseline: at 0 without an
    event, then at 1500ms with the command Exit; the red output for input 0
    of the function returned by the second call. *)
Definition late_exit : option R :=
  tick Xft 0 Gamma.identity None ≫= fun r1 =>
  tick r1.1 (1500 * Millisecond) Gamma.identity (Some (IsCmd Exit)) ≫= fun r2 =>
  Gamma.call r2.2.1.1 Gamma.Red 0.

End Alert.


(** ** Package animate *)

Module Animate.
Import Go.

Section Loop.

(** [S]: the private state of the driver closure; [E]: the non-nil values of
    [interface{}] that travel on the event channel. *)
Context {S E : Type}.

(** [XferFnAtTime], with the state of the closure made explicit; [None] is
    a panic of the driver. *)
Definition XferFnAtTime : Type :=
  S -> Duration -> Gamma.XferFn -> option E ->
  option (S * (Gamma.XferFn * Duration * bool)).

(** [options]: the client and the settings; its three channels are the
    environment of the goroutine.  The client stays as it is during a
    run. *)
Record options := mkOptions {
  cl : option Gamma.Client;
  xft : XferFnAtTime;
  startClockBeforeSetup : bool;
  initialClock : Duration;
  updateInterval : Duration;
  exitOnForeignUpdate : bool;
  restoreOnExit : bool
}.

Definition Option : Type := options -> options.

Definition StartClockBeforeSetup (b : bool) : Option := fun o =>
  mkOptions (cl o) (xft o) b (initialClock o) (updateInterval o)
            (exitOnForeignUpdate o) (restoreOnExit o).

Definition InitialClock (t : Duration) : Option := fun o =>
  mkOptions (cl o) (xft o) (startClockBeforeSetup o) t (updateInterval o)
            (exitOnForeignUpdate o) (restoreOnExit o).

Definition UpdateInterval (i : Duration) : Option := fun o =>
  mkOptions (cl o) (xft o) (startClockBeforeSetup o) (initialClock o) i
            (exitOnForeignUpdate o) (restoreOnExit o).

Definition ExitOnForeignUpdate (b : bool) : Option := fun o =>
  mkOptions (cl o) (xft o) (startClockBeforeSetup o) (initialClock o)
            (updateInterval o) b (restoreOnExit o).

Definition RestoreOnExit (b : bool) : Option := fun o =>
  mkOptions (cl o) (xft o) (startClockBeforeSetup o) (initialClock o)
            (updateInterval o) (exitOnForeignUpdate o) b.

(** The options [Animate] hands to the goroutine. *)
Definition Animate (c : option Gamma.Client) (x : XferFnAtTime)
           (opts : list Option) : options :=
  foldl (fun o fn => fn o)
        (mkOptions c x false 0%Z (Second ÷ 30)%Z true true) opts.

(** *** The environment *)

(** Which case of the [select] is taken. *)
Inductive wakeup :=
| Cancelled
| Received (event : option E)
| TimerFired.

(** What the environment answers during one turn of the loop: the gamma
    ramps read back at the top, the clock when the driver is called, the
    ramps read back after the write, the clock after that, and the wake-up. *)
Record turn := mkTurn {
  top_gamma : option Gamma.XRRCrtcGamma;
  xft_clock : Time;
  after_gamma : option Gamma.XRRCrtcGamma;
  update_clock : Time;
  woken : wakeup
}.

(** The failures of [Client.NewSession]. *)
Inductive session_failure :=
| NoScreenResources
| NoCrtcGammaSize
| NoAllocGamma.

Definition NewSession_err (f : session_failure) : error :=
  match f with
  | NoScreenResources => ErrScreenResources
  | NoCrtcGammaSize => ErrCrtcGammaSize
  | NoAllocGamma => ErrAllocGamma
  end.

(** [new_session]: the failure of [NewSession], if any; [session]: the
    session that it returns otherwise. *)
Record world := mkWorld {
  new_session : option session_failure;
  session : Gamma.Session;
  anchor_clock : Time;
  turns : list turn
}.

(** *** The actions of the goroutine *)

(** The two calls of [SetGamma]: in the loop, and after it. *)
Inductive site := InLoop | OnExit.

Inductive action :=
| ActNewSession
| ActGetLookupTable
| ActSetGamma (at_ : site) (fn : Gamma.XferFn)
| ActTimerReset (d : Duration)
| ActSend (e : error)
| ActClose
| ActSessionClose.

(** *** The loop *)

(** The variables of [animate] that live across turns.  [newLut], [curFn],
    [sleepFor], [thisUpdate] and [extraTime] are assigned in every turn
    before they are read.  [restore] is [o.restoreOnExit], which the loop
    overwrites. *)
Record locals := mkLocals {
  exit : bool;
  err : option error;
  lastUpdate : Time;
  oldLut : Gamma.LookupTable;
  baseFn : Gamma.XferFn;
  event : option E;
  restore : bool;
  driver : S
}.

Definition set_baseFn (l : locals) (f : Gamma.XferFn) : locals :=
  mkLocals (exit l) (err l) (lastUpdate l) (oldLut l) f (event l)
           (restore l) (driver l).

Definition set_err (l : locals) (e : option error) : locals :=
  mkLocals (exit l) e (lastUpdate l) (oldLut l) (baseFn l) (event l)
           (restore l) (driver l).

Definition set_restore (l : locals) (b : bool) : locals :=
  mkLocals (exit l) (err l) (lastUpdate l) (oldLut l) (baseFn l) (event l)
           b (driver l).

Definition set_event (l : locals) (ev : option E) : locals :=
  mkLocals (exit l) (err l) (lastUpdate l) (oldLut l) (baseFn l) ev
           (restore l) (driver l).

Inductive flow :=
| Next (l : locals)
| Break (l : locals)
| Panic.

(** The duration armed on the timer: sleepFor, raised to extraTime and
    then to zero. *)
Definition wait (o : options) (sleepFor : Duration)
           (thisUpdate lastUpdate : Time) : Duration :=
  let extraTime := dsub (updateInterval o) (Time_Sub thisUpdate lastUpdate) in
  let sleepFor := if (sleepFor <? extraTime)%Z then extraTime else sleepFor in
  if (sleepFor <? 0)%Z then 0%Z else sleepFor.

(** From the call of the driver to the [select], on the session [ses]
    that [NewSession] returned.  [SetGamma] calls the function of the
    driver for every sample of every CRTC: when that panics (a nil
    function on a CRTC with samples, a function that panics on one of the
    inputs), so does the turn.  So does [GetLookupTable] on a session
    without a CRTC.  A closure is recorded in the trace as written. *)
Definition drive (o : options) (ses : Gamma.Session) (anchor : Time)
           (l : locals) (w : turn) : flow * list action :=
  match xft o (driver l) (Time_Sub (xft_clock w) anchor) (baseFn l) (event l)
  with
  | None => (Panic, [])
  | Some (d, (curFn, sleepFor, ex)) =>
      if Gamma.SetGamma_returns (cl o) ses curFn then
        match Gamma.Session_GetLookupTable (cl o) ses (after_gamma w) with
        | Gamma.Panics _ => (Panic, [ActSetGamma InLoop curFn])
        | Gamma.Done (old, e) _ =>
            let written := [ActSetGamma InLoop curFn; ActGetLookupTable] in
            match e with
            | Some _ =>
                (Break (mkLocals ex e (lastUpdate l) old (baseFn l) (event l)
                                 (restore l) d),
                 written)
            | None =>
                let thisUpdate := update_clock w in
                let sleepFor := wait o sleepFor thisUpdate (lastUpdate l) in
                let l' := mkLocals ex None thisUpdate old (baseFn l) None
                                   (restore l) d in
                let tr := written ++ [ActTimerReset sleepFor] in
                match woken w with
                | Cancelled => (Break l', tr)
                | Received ev => (Next (set_event l' ev), tr)
                | TimerFired => (Next l', tr)
                end
            end
        end
      else (Panic, [])
  end.

Definition after_read (r : flow * list action) : flow * list action :=
  (r.1, ActGetLookupTable :: r.2).

(** One turn of the loop, after the test of [exit]: the read at the top and
    the comparison with the table read at the end of the previous turn. *)
Definition body (o : options) (ses : Gamma.Session) (anchor : Time)
           (l : locals) (w : turn) : flow * list action :=
  match Gamma.Session_GetLookupTable (cl o) ses (top_gamma w) with
  | Gamma.Panics _ => (Panic, [])
  | Gamma.Done (newLut, e) _ =>
      let l := set_err l e in
      match e with
      | Some _ => (Break l, [ActGetLookupTable])
      | None =>
          if Gamma.IsZero (oldLut l) then
            after_read (drive o ses anchor
                          (set_baseFn l (Gamma.LookupTable_XferFn newLut)) w)
          else if negb (Gamma.Equals newLut (oldLut l)) then
            if exitOnForeignUpdate o then
              (Break (set_restore (set_err l (Some ForeignCrtcUpdate)) false),
               [ActGetLookupTable])
            else
              after_read (drive o ses anchor
                            (set_baseFn l (Gamma.LookupTable_XferFn newLut))
                            w)
          else after_read (drive o ses anchor l w)
      end
  end.

(** How the loop ends: by a break, by a panic, or not at all within the
    turns that the script holds. *)
Inductive stop :=
| Broke (l : locals)
| Crashed
| Starved (l : locals).

Fixpoint loop (o : options) (ses : Gamma.Session) (anchor : Time)
         (l : locals) (ws : list turn) : stop * list action :=
  if exit l then (Broke l, [])
  else
    match ws with
    | [] => (Starved l, [])
    | w :: ws =>
        match body o ses anchor l w with
        | (Next l', tr) =>
            let '(s, tr') := loop o ses anchor l' ws in (s, tr ++ tr')
        | (Break l', tr) => (Broke l', tr)
        | (Panic, tr) => (Crashed, tr)
        end
    end.

(** The label [bail]: at most one send, then the close. *)
Definition bail (e : option error) : list action :=
  match e with
  | Some e => [ActSend e; ActClose]
  | None => [ActClose]
  end.

(** What the goroutine did, and whether it returned. *)
Inductive outcome :=
| Returned (e : option error) (tr : list action)
| Panicked (tr : list action)
| Running (tr : list action).

Definition start (o : options) (init : S) : locals :=
  mkLocals false None zeroTime Gamma.zeroLookupTable None None
           (restoreOnExit o) init.

Definition anchor_of (o : options) (w : world) : Time :=
  Time_Add (anchor_clock w) (dneg (initialClock o)).

(** The code after the loop; the deferred [s.Close()] runs last.  The
    write of the baseline panics when [SetGamma] does, as in the loop. *)
Definition leave (o : options) (ses : Gamma.Session) (l : locals)
           (tr : list action) : outcome :=
  if restore l then
    if Gamma.SetGamma_returns (cl o) ses (baseFn l) then
      Returned (err l)
        (tr ++ ActSetGamma OnExit (baseFn l) :: bail (err l)
            ++ [ActSessionClose])
    else Panicked tr
  else Returned (err l) (tr ++ bail (err l) ++ [ActSessionClose]).

(** The goroutine.  [NewSession] panics on a client that is closed. *)
Definition animate (o : options) (init : S) (w : world) : outcome :=
  if Gamma.Client_check (cl o) then
    match new_session w with
    | Some f =>
        Returned (Some (NewSession_err f))
                 (ActNewSession :: bail (Some (NewSession_err f)))
    | None =>
        match loop o (session w) (anchor_of o w) (start o init) (turns w) with
        | (Broke l, tr) => leave o (session w) l (ActNewSession :: tr)
        | (Crashed, tr) => Panicked (ActNewSession :: tr)
        | (Starved _, tr) => Running (ActNewSession :: tr)
        end
    end
  else Panicked [].

(** The values that a receiver sees on the error channel. *)
Definition on_err_chan (a : action) : bool :=
  match a with
  | ActSend _ | ActClose => true
  | _ => false
  end.

Definition restoring (a : action) : bool :=
  match a with
  | ActSetGamma OnExit _ => true
  | _ => false
  end.

(** *** What a turn leaves behind *)

(** A trace without send, close and restoring write. *)
Definition quiet (tr : list action) : Prop :=
  List.filter on_err_chan tr = [] /\ List.filter restoring tr = [].

(** The variables after a break, where [r] was [restore] before the turn. *)
Definition broke_ok (r : bool) (l' : locals) : Prop :=
  (err l' = Some ForeignCrtcUpdate /\ restore l' = false) \/
  (err l' <> Some ForeignCrtcUpdate /\ restore l' = r).

(** The variables at the end of a turn that goes on. *)
Definition next_ok (r : bool) (w : turn) (l' : locals) : Prop :=
  err l' = None /\ restore l' = r /\
  exists gp, after_gamma w = Some gp /\
             oldLut l' = (Gamma.GetLookupTable (Some gp)).1.

Definition flow_ok (r : bool) (w : turn) (f : flow) : Prop :=
  match f with
  | Next l' => next_ok r w l'
  | Break l' => broke_ok r l'
  | Panic => True
  end.

(** *** The other options and the cancel function *)

(** [time.Duration(u)] for a float64 u: the fraction is dropped when the
    result fits an int64; otherwise the result depends on the
    implementation, and is [overflow u]. *)
Definition Duration_of_float64 (overflow : R -> Duration) (u : R)
  : Duration :=
  if Rlt_dec (IZR minInt64 - 1) u then
    if Rlt_dec u (IZR maxInt64 + 1) then int_of_float64 u else overflow u
  else overflow u.

(** [UpdatesPerSecond(u)] applied to the options; [None] is the panic of
    the integer division by zero. *)
Definition UpdatesPerSecond (overflow : R -> Duration) (u : R)
  : options -> option options := fun o =>
  let d := Duration_of_float64 overflow u in
  if (d =? 0)%Z then None else Some (UpdateInterval (Second ÷ d)%Z o).

(** One call of the [CancelFunc] that [Animate] returns: the variable
    [called] after the call, and whether the call closed the channel. *)
Definition CancelFunc (called : bool) : bool * bool :=
  if called then (called, false) else (true, true).

(** n calls in a row: [called] at the end, and the number of closes. *)
Fixpoint cancel_calls (n : nat) (called : bool) : bool * nat :=
  match n with
  | O => (called, O)
  | Datatypes.S n =>
      let '(called, closed) := CancelFunc called in
      let '(called, closes) := cancel_calls n called in
      (called, ((if closed then 1 else 0) + closes)%nat)
  end.

(** *** Words for the statements about runs *)

(** The event that the [select] leaves in [event]. *)
Definition wake_event (k : wakeup) : option E :=
  match k with
  | Received ev => ev
  | Cancelled | TimerFired => None
  end.

(** A driver that, given a baseline that does not panic on [0,1),
    neither panics nor returns a nil function, and returns a function that
    does not panic on [0,1) either. *)
Definition well_behaved (x : XferFnAtTime) : Prop :=
  forall s t b ev, Gamma.total_below_1 b ->
    exists s' fn sleepFor ex,
      x s t b ev = Some (s', (Some fn, sleepFor, ex)) /\
      Gamma.total_below_1 (Some fn).

(** A session as [NewSession] returns it without an error, on a screen
    with a CRTC: every CRTC has a gamma size from 1 to 65536 (the length
    of a [gammaVector]) and an allocated gamma. *)
Definition healthy (ses : Gamma.Session) : Prop :=
  Gamma.crtcs ses <> [] /\
  Forall (fun c => (0 < Gamma.size c <= 65536)%Z /\ is_Some (Gamma.gamma c))
         (Gamma.crtcs ses).

(** Ramps that are not empty. *)
Definition ramps (g : Gamma.XRRCrtcGamma) : Prop :=
  Gamma.red g <> [] /\ Gamma.green g <> [] /\ Gamma.blue g <> [].

End Loop.

Arguments XferFnAtTime : clear implicits.
Arguments options : clear implicits.
Arguments locals : clear implicits.
Arguments turn : clear implicits.
Arguments world : clear implicits.
Arguments wakeup : clear implicits.
Arguments flow : clear implicits.
Arguments stop : clear implicits.

(** The driver [blink] of the package's example: it has no state. *)
Definition blink {E} : XferFnAtTime unit E := fun _ t baseFn event =>
  let exit := (t >? 5 * Second)%Z in
  let exit := match event with Some _ => true | None => exit end in
  let fn :=
    if (Z.rem t (2 * Second) <? Second)%Z
    then Gamma.Mul baseFn (Gamma.DimFn 0.5)
    else baseFn in
  let sleepFor := dsub Second (Z.rem t Second) in
  Some (tt, (fn, sleepFor, exit)).

(** *** Sample runs *)

(** An instant in 2019. *)
Definition now0 : Time := (63700000000 * Second)%Z.

(** An open client, and the session on a screen with one CRTC of gamma
    size 4. *)
Definition client0 : option Gamma.Client := Gamma.NewClient true.

Definition session4 : Gamma.Session :=
  Gamma.mkSession true [Gamma.mkCrtc 63 4 (Some 1%Z)] true.

(** [Animate(cl, blink)]. *)
Definition blinking : options unit unit := Animate client0 blink [].

(** The driver asks to exit in the first turn. *)
Definition clean_exit : world unit :=
  mkWorld None session4 now0
    [mkTurn (Some Gamma.gamma4) (now0 + 6 * Second)%Z
            (Some Gamma.gamma4) (now0 + 6 * Second + Millisecond)%Z
            TimerFired].

(** The read after the first write fails. *)
Definition failed_read : world unit :=
  mkWorld None session4 now0
    [mkTurn (Some Gamma.gamma4) (now0 + Millisecond)%Z
            None (now0 + 2 * Millisecond)%Z TimerFired].

(** The very first read fails. *)
Definition failed_first_read : world unit :=
  mkWorld None session4 now0
    [mkTurn None (now0 + Millisecond)%Z
            (Some Gamma.gamma4) (now0 + 2 * Millisecond)%Z TimerFired].

(** Another process halves the ramps between the first and the second
    turn. *)
Definition turn1 : turn unit :=
  mkTurn (Some Gamma.gamma4) (now0 + Millisecond)%Z
         (Some Gamma.gamma4) (now0 + 2 * Millisecond)%Z TimerFired.

Definition turn2 : turn unit :=
  mkTurn (Some Gamma.dim4) (now0 + 36 * Millisecond)%Z
         (Some Gamma.dim4) (now0 + 37 * Millisecond)%Z TimerFired.

Definition foreign : world unit := mkWorld None session4 now0 [turn1; turn2].

(** [Animate(cl, alert.Xft())]. *)
Definition alert : options Alert.vars Alert.dynamic :=
  Animate client0 Alert.tick [].

(** The command Exit is sent right after the first turn, and the goroutine
    is held up: its second turn comes 1500ms after the first. *)
Definition stalled : world Alert.dynamic :=
  mkWorld None session4 now0
    [mkTurn (Some Gamma.gamma4) now0
            (Some Gamma.gamma4) (now0 + Millisecond)%Z
            (Received (Some (Alert.IsCmd Alert.Exit)));
     mkTurn (Some Gamma.gamma4) (now0 + 1500 * Millisecond)%Z
            (Some Gamma.gamma4) (now0 + 1501 * Millisecond)%Z TimerFired].

End Animate.

(** * Properties *)

Import Go.

(** ** Integers, conversions and [Modf] *)

Lemma wrap64_small (z : Z) : is_int64 z -> wrap64 z = z.
Proof.
  unfold is_int64, minInt64, maxInt64, wrap64. intros Hz.
  rewrite Z.mod_small; lia.
Qed.

Lemma dsub_small (a b : Duration) : is_int64 (a - b) -> dsub a b = (a - b)%Z.
Proof. apply wrap64_small. Qed.



Lemma int_of_float64_IZR (z : Z) : int_of_float64 (IZR z) = z.
Proof.
  unfold int_of_float64. destruct (Rlt_dec (IZR z) 0).
  - unfold Zceil. rewrite <- opp_IZR, ZfloorZ. lia.
  - apply ZfloorZ.
Qed.

Lemma int_of_float64_nonneg (x : R) (z : Z) :
  (IZR z <= x < IZR z + 1)%R -> (0 <= x)%R -> int_of_float64 x = z.
Proof.
  intros Hx H0. unfold int_of_float64.
  destruct (Rlt_dec x 0); [lra|]. now apply Zfloor_eq.
Qed.

Lemma Modf_nonneg (x : R) (z : Z) :
  (IZR z <= x < IZR z + 1)%R -> (0 <= x)%R ->
  Modf x = (IZR z, (x - IZR z)%R).
Proof.
  intros Hx H0. unfold Modf. now rewrite (int_of_float64_nonneg x z).
Qed.

Lemma Modf_IZR (z : Z) : Modf (IZR z) = (IZR z, 0%R).
Proof. unfold Modf. rewrite int_of_float64_IZR. f_equal. lra. Qed.

(** ** Transfer functions and lookup tables *)

Section GammaFacts.
Import Gamma.

(** C10: a chained function feeds the output of the first function to
    the second one, and a product multiplies the two outputs, for every
    channel and input; a panic of either function is a panic of the
    combination. *)
Theorem Chain_Mul_pointwise (f g : XferFn) (ch : Channel) (x : R) :
  call (Chain f g) ch x = (call f ch x ≫= fun y => call g ch y) /\
  call (Mul f g) ch x =
    (call f ch x ≫= fun u => call g ch x ≫= fun v => Some (u * v)%R).
Proof. split; reflexivity. Qed.

(** Two lists are equal when they have the same length and agree at every
    index, which is what each loop of [Equals] tests. *)
Lemma eqb_by_index {A} `{Inhabited A} (eqb : A -> A -> bool) (a b : list A) :
  (forall x y, eqb x y = true <-> x = y) ->
  (length a =? length b)%nat &&
    forallb (fun i => eqb (a !!! i) (b !!! i)) (seq 0 (length a)) = true
  <-> a = b.
Proof.
  intros Heqb. rewrite andb_true_iff, Nat.eqb_eq, forallb_forall. split.
  - intros [Hlen Hall]. apply list_eq_same_length with (length a); auto.
    intros i x y Hi Hx Hy.
    specialize (Hall i). rewrite in_seq in Hall.
    apply list_lookup_total_correct in Hx, Hy. subst x y.
    apply Heqb, Hall. lia.
  - intros ->. split; auto. intros i _. now apply Heqb.
Qed.

Lemma ramp_eqb_eq (a2 b2 : list ushort) : ramp_eqb a2 b2 = true <-> a2 = b2.
Proof. apply (eqb_by_index Z.eqb). intros; apply Z.eqb_eq. Qed.

Lemma Equals_elems (lt o : LookupTable) :
  Equals lt o = true <-> forall ch, elems (t lt ch) = elems (t o ch).
Proof.
  unfold Equals. rewrite forallb_forall. split.
  - intros Hall ch. specialize (Hall ch).
    apply (eqb_by_index ramp_eqb); [apply ramp_eqb_eq|].
    apply Hall. destruct ch; unfold channels; simpl; auto.
  - intros Heq ch _.
    apply (eqb_by_index ramp_eqb); [apply ramp_eqb_eq|]. apply Heq.
Qed.

Lemma elems_eq_pointwise (a b : list (list ushort)) :
  a = b <->
  (length a = length b /\
   forall crtc, length <$> (a !! crtc) = length <$> (b !! crtc)) /\
  (forall crtc idx,
      (a !! crtc ≫= fun r => r !! idx) = (b !! crtc ≫= fun r => r !! idx)).
Proof.
  split; [intros ->; auto|].
  intros [[Hlen Hsz] Hs]. apply list_eq_same_length with (length a); auto.
  intros crtc x y Hi Hx Hy.
  apply list_eq. intros idx. specialize (Hs crtc idx).
  rewrite Hx, Hy in Hs. exact Hs.
Qed.

Lemma sample_set_sample lt ch crtc idx old v :
  sample lt ch crtc idx = Some old ->
  sample (set_sample lt ch crtc idx v) ch crtc idx = Some v.
Proof.
  unfold sample, ramp, set_sample. intros Hold.
  set (s := Some (alter (fun r => <[idx:=v]> r) crtc (elems (t lt ch)))).
  assert (Ht : t (set_table lt ch s) ch = s) by (destruct ch; reflexivity).
  rewrite Ht. unfold s. simpl.
  destruct (elems (t lt ch) !! crtc) as [r|] eqn:Hr; simpl in Hold;
    [|discriminate].
  rewrite list_lookup_alter_eq, Hr. simpl.
  apply list_lookup_insert_eq. eapply lookup_lt_Some; eauto.
Qed.

(** C9: [Equals] answers true exactly when the two tables have the same
    topology and the same sample at every channel, controller and index; it
    is reflexive; and replacing one sample by a different value makes it
    answer false, whichever side the changed table is on. *)
Theorem Equals_spec :
  (forall lt o,
      Equals lt o = true <-> same_topology lt o /\ same_samples lt o) /\
  (forall lt, Equals lt lt = true) /\
  (forall lt ch crtc idx old v,
      sample lt ch crtc idx = Some old -> v <> old ->
      Equals lt (set_sample lt ch crtc idx v) = false /\
      Equals (set_sample lt ch crtc idx v) lt = false).
Proof.
  assert (Hiff : forall lt o,
             Equals lt o = true <-> same_topology lt o /\ same_samples lt o).
  { intros lt o. rewrite Equals_elems.
    unfold same_topology, same_samples, sample, ramp, controllers. split.
    - intros Heq. split; intros ch; rewrite (Heq ch); auto.
    - intros [Ht Hs] ch. apply elems_eq_pointwise.
      split; [apply Ht|apply Hs]. }
  split; [exact Hiff|]. split.
  - intros lt. apply Equals_elems. auto.
  - intros lt ch crtc idx old v Hold Hv.
    pose proof (sample_set_sample lt ch crtc idx old v Hold) as Hnew.
    split; apply not_true_is_false; intros Heq;
      apply Hiff in Heq as [_ Hs]; specialize (Hs ch crtc idx);
      rewrite Hnew, Hold in Hs; congruence.
Qed.

(** Changing the third green sample of [lut4] from 43690 to 43691. *)
Lemma Equals_spec_witness :
  Equals lut4 (set_sample lut4 Green 0 2 43691%Z) = false /\
  Equals (set_sample lut4 Green 0 2 43691%Z) lut4 = false.
Proof.
  apply (proj2 (proj2 Equals_spec) lut4 Green 0%nat 2%nat 43690%Z 43691%Z).
  - reflexivity.
  - lia.
Defined.

(** A table read from the device has one controller per channel, so the
    test [int(base) < len(t)-1] never holds for a non-negative input: the
    function returns the sample below the input, without interpolation,
    and indexes past the ramp when the input reaches 1. *)
Lemma XferFn_of_read_table (g : XRRCrtcGamma) (ch : Channel) (x : R) :
  (0 <= x)%R ->
  let lut := match ch with Red => red g | Green => green g | Blue => blue g end in
  call (LookupTable_XferFn (GetLookupTable (Some g)).1) ch x =
    (index lut (Zfloor (x * INR (length lut))) ≫= fun lo =>
     Some ((0 + float64_of_int lo) / 1 / 65535)%R).
Proof.
  intros Hx lut.
  assert (Hpos : (0 <= x * INR (length lut))%R)
    by (apply Rmult_le_pos; [assumption|apply pos_INR]).
  assert (Hm : Modf (x * INR (length lut)) =
               (IZR (Zfloor (x * INR (length lut))),
                (x * INR (length lut) - IZR (Zfloor (x * INR (length lut))))%R)).
  { apply Modf_nonneg; [apply Zfloor_bound|assumption]. }
  assert (Hfl : (0 <= Zfloor (x * INR (length lut)))%Z)
    by (apply Zfloor_lub; assumption).
  assert (Heval : call (LookupTable_XferFn (GetLookupTable (Some g)).1) ch x =
                  (XferFn_step 1 x (Some 0%R) lut ≫= fun acc =>
                   Some (acc / 1 / 65535)%R)).
  { destruct ch; cbn -[XferFn_step INR]; subst lut; cbn -[XferFn_step];
      reflexivity. }
  rewrite Heval. unfold XferFn_step. cbn [mbind option_bind].
  rewrite Hm, int_of_float64_IZR.
  destruct (Z.ltb_spec (Zfloor (x * INR (length lut))) (Z.of_nat 1 - 1));
    [lia|].
  destruct (index lut _); reflexivity.
Qed.

(** C8: on the table [lut4] (one controller, samples 0, 21845, 43690,
    65535) the function built by [LookupTable.XferFn] returns 0 for the red
    input 1/8, where the interpolation between the two adjacent samples is
    1/6, and panics for the input 1. *)
Theorem XferFn_of_table_steps :
  call (LookupTable_XferFn lut4) Red (1 / 8) = Some 0%R /\
  spec_interpolation lut4 Red (1 / 8) = Some (1 / 6)%R /\
  call (LookupTable_XferFn lut4) Red 1 = None.
Proof.
  assert (H4 : INR 4 = 4%R) by (simpl; lra).
  assert (Hm : Modf (1 / 8 * INR 4) = (IZR 0, (1 / 8 * INR 4 - IZR 0)%R)).
  { apply Modf_nonneg; rewrite H4; lra. }
  assert (Hm1 : Modf (1 * INR 4) = (IZR 4, (1 * INR 4 - IZR 4)%R)).
  { apply Modf_nonneg; rewrite H4; lra. }
  repeat split.
  - cbn -[Modf INR int_of_float64]. unfold XferFn_step.
    cbn -[Modf INR int_of_float64].
    rewrite Hm, int_of_float64_IZR. simpl. f_equal.
    unfold float64_of_int. lra.
  - unfold spec_interpolation, spec_lerp. cbn -[Modf INR int_of_float64].
    rewrite Hm, int_of_float64_IZR. simpl. f_equal.
    unfold float64_of_int. lra.
  - cbn -[Modf INR int_of_float64]. unfold XferFn_step.
    cbn -[Modf INR int_of_float64].
    rewrite Hm1, int_of_float64_IZR. reflexivity.
Qed.

End GammaFacts.

(** ** The alert driver *)

Section AlertFacts.
Import Alert.

Lemma warble_625ms (x : R) : warble (625 * Millisecond) x = (x, false).
Proof.
  unfold warble.
  change (625 * Millisecond >? 125 * Millisecond * 5)%Z with false.
  cbv iota. unfold float64_of_int.
  replace (IZR (625 * Millisecond) / IZR (125 * Millisecond))%R with (IZR 5)
    by (unfold Millisecond; rewrite !mult_IZR; field).
  rewrite Modf_IZR, Rmult_0_r, cos_0. f_equal. lra.
Qed.

Lemma warble_after_625ms (since : Duration) (x : R) :
  (625 * Millisecond < since)%Z -> warble since x = (x, true).
Proof.
  intros Hs. unfold warble.
  change (125 * Millisecond * 5)%Z with (625 * Millisecond)%Z.
  destruct (Z.gtb_spec since (625 * Millisecond)); [reflexivity|lia].
Qed.

(** C6, as the code has it: from 625ms on, warble passes its input
    through; it reports done only when the elapsed time is strictly greater
    than 625ms, so at exactly 625ms done is false. *)
Theorem warble_at_and_after_625ms (since : Duration) (x : R) :
  (625 * Millisecond <= since)%Z ->
  warble since x = (x, (since >? 625 * Millisecond)%Z).
Proof.
  intros Hs. destruct (Z.gtb_spec since (625 * Millisecond)).
  - apply warble_after_625ms. lia.
  - assert (since = 625 * Millisecond)%Z as -> by lia. apply warble_625ms.
Qed.

Lemma warble_at_and_after_625ms_witness :
  warble (625 * Millisecond) (1 / 2) = ((1 / 2)%R, false).
Proof.
  apply (warble_at_and_after_625ms (625 * Millisecond)%Z (1 / 2)%R). lia.
Defined.

(** C6, as stated, fails: at exactly 625ms warble on input 0 does not
    report done. *)
Lemma warble_at_625ms_still_running :
  ~ ((warble (625 * Millisecond) 0).2 = true /\
     (warble (625 * Millisecond) 0).1 = 0%R).
Proof.
  rewrite warble_625ms. simpl. intros [H _]. discriminate.
Qed.

Lemma tick_cmd (v : vars) (t : Duration) (baseFn : Gamma.XferFn) (c : Cmd) :
  tick v t baseFn (Some (IsCmd c)) =
    let v := on_cmd v t c in
    let '(v, sleepFor, exitFlag) := on_stage v t in
    let '(effs, es, sleepFor) :=
      effects_loop (length (effects v)) t (effects v) 0 0%R sleepFor in
    let v := mkVars (stage v) (stageStart v) (sinceStage v) (strength v)
                    effs (cmd v) es (0.2 + es * 0.6)%R (0 + es * 0.6)%R in
    Some (v, (Some (render v baseFn), sleepFor, exitFlag)).
Proof. reflexivity. Qed.

(** C5: when the command Exit arrives in stage enter, [e] after the stage
    began, the tick leaves the stage exit with
    stageStart = t - (250ms - e) and with strength e/250ms, and does not
    raise the exit flag. *)
Theorem exit_while_entering (v : vars) (t : Duration)
        (baseFn : Gamma.XferFn) :
  stage v = enter ->
  (0 <= stageStart v <= t)%Z -> (t < 2 ^ 62)%Z ->
  let e := (t - stageStart v)%Z in
  exists v' fn sleepFor,
    tick v t baseFn (Some (IsCmd Exit)) = Some (v', (fn, sleepFor, false)) /\
    stage v' = exit /\
    stageStart v' = (t - (250 * Millisecond - e))%Z /\
    strength v' = (IZR e / IZR (250 * Millisecond))%R.
Proof.
  intros Hst Hss Ht e. subst e.
  rewrite tick_cmd. unfold on_cmd. cbn [stage stageStart sinceStage].
  change (Exit =? Warble)%Z with false. change (Exit =? Strobe)%Z with false.
  change (Exit =? Exit)%Z with true. cbv iota. rewrite Hst.
  assert (He : dsub t (stageStart v) = (t - stageStart v)%Z).
  { apply dsub_small. unfold is_int64, minInt64, maxInt64. lia. }
  rewrite He.
  assert (Hs : dsub enterExitDuration (t - stageStart v)
               = (250 * Millisecond - (t - stageStart v))%Z).
  { apply dsub_small.
    unfold is_int64, minInt64, maxInt64, enterExitDuration, Millisecond. lia. }
  rewrite Hs.
  assert (Hs' : dsub t (250 * Millisecond - (t - stageStart v))
                = (t - (250 * Millisecond - (t - stageStart v)))%Z).
  { apply dsub_small. unfold is_int64, minInt64, maxInt64, Millisecond. lia. }
  rewrite Hs'.
  unfold on_stage. cbn [stage sinceStage]. unfold float64_of_int.
  assert (Hstr : (1 - IZR (250 * Millisecond - (t - stageStart v))
                      / IZR enterExitDuration
                  = IZR (t - stageStart v) / IZR (250 * Millisecond))%R).
  { change enterExitDuration with (250 * Millisecond)%Z.
    rewrite (minus_IZR (250 * Millisecond)). unfold Millisecond.
    rewrite !mult_IZR. field. }
  rewrite Hstr.
  assert (Hpos : (0 <= IZR (t - stageStart v) / IZR (250 * Millisecond))%R).
  { apply Rmult_le_pos; [apply IZR_le; lia|].
    apply Rlt_le, Rinv_0_lt_compat, IZR_lt. unfold Millisecond. lia. }
  destruct (Rlt_dec _ 0) as [Hneg|_]; [lra|].
  cbn [set_strength effects stage stageStart sinceStage strength cmd].
  destruct (effects_loop _ _ _ _ _ _) as [[effs es] sl].
  do 3 eexists. cbn. split; [reflexivity|]. auto.
Qed.

(** Exit 100ms after the start: the exiting stage begins at strength
    100/250. *)
Lemma exit_while_entering_witness :
  exists v' fn sleepFor,
    tick Xft (100 * Millisecond) Gamma.identity (Some (IsCmd Exit))
      = Some (v', (fn, sleepFor, false)) /\
    stage v' = exit /\
    stageStart v' = (- (50 * Millisecond))%Z /\
    strength v' = (IZR (100 * Millisecond) / IZR (250 * Millisecond))%R.
Proof.
  apply (exit_while_entering Xft (100 * Millisecond)%Z Gamma.identity).
  - reflexivity.
  - split; vm_compute; discriminate.
  - reflexivity.
Defined.

Lemma tick_first (b : Gamma.XferFn) :
  tick Xft 0 b None
  = Some (after_first, (Some (render after_first b), 0%Z, false)).
Proof.
  unfold tick, read_cmd, on_cmd, on_stage. cbn.
  unfold float64_of_int.
  change (dsub 0 0) with 0%Z. change enterExitDuration with 250000000%Z.
  destruct (Rge_dec _ 1) as [Hge|_]; [exfalso; lra|reflexivity].
Qed.

Lemma tick_late (b : Gamma.XferFn) :
  tick after_first (1500 * Millisecond) b (Some (IsCmd Exit))
  = Some (after_late_exit, (Some (render after_late_exit b), 0%Z, false)).
Proof.
  unfold tick, read_cmd, on_cmd, after_first.
  cbn [mbind option_bind stage stageStart sinceStage].
  change (Exit =? Warble)%Z with false. change (Exit =? Strobe)%Z with false.
  change (Exit =? Exit)%Z with true. cbv iota.
  change (dsub (1500 * Millisecond) 0) with 1500000000%Z.
  change (dsub enterExitDuration 1500000000) with (-1250000000)%Z.
  change (dsub (1500 * Millisecond) (-1250000000)) with 2750000000%Z.
  unfold on_stage. cbn [stage sinceStage]. unfold float64_of_int.
  change enterExitDuration with 250000000%Z.
  destruct (Rlt_dec _ 0) as [Hlt|_]; [exfalso; lra|]. reflexivity.
Qed.

(** After the late Exit the strength of the stage is 6, and a baseline
    output of 0 on the red channel becomes 6/5. *)
Lemma render_after_late_exit (b : Gamma.XferFn) (x : R) :
  Gamma.call b Gamma.Red x = Some 0%R ->
  render after_late_exit b Gamma.Red x = Some (6 / 5)%R.
Proof.
  intros Hb. unfold render. rewrite Hb. cbn. f_equal. lra.
Qed.

(** C7: the driver is called at 0 without an event and at 1500ms with the
    command Exit.  Stage enter is then 1500ms old, the strength of stage
    exit becomes 6, and the function returned by the second call maps the
    red input 0 of the identity baseline to 6/5, outside [0,1]. *)
Theorem late_exit_overshoots : late_exit = Some (6 / 5)%R.
Proof.
  unfold late_exit. rewrite tick_first. cbn [mbind option_bind fst].
  rewrite tick_late. cbn [mbind option_bind fst snd Gamma.call].
  now apply render_after_late_exit.
Qed.

(** The fuel handed to the loop over the effects is enough: more fuel
    gives the same result. *)
Lemma effects_loop_fuel (t : Duration) (n : nat) :
  forall m effs idx es sl,
    (length effs - idx <= n)%nat -> (n <= m)%nat ->
    effects_loop m t effs idx es sl = effects_loop n t effs idx es sl.
Proof.
  induction n as [|n IH]; intros m effs idx es sl Hlen Hm.
  - assert (Hnone : effs !! idx = None) by (apply lookup_ge_None; lia).
    destruct m; cbn [effects_loop]; [reflexivity|]. now rewrite Hnone.
  - destruct m as [|m]; [lia|]. cbn [effects_loop].
    destruct (effs !! idx) as [e|] eqn:He; [|reflexivity].
    apply lookup_lt_Some in He.
    destruct (apply e _ es) as [out done]. destruct done.
    + apply IH; [|lia]. rewrite length_take.
      destruct (idx <? length effs - 1)%nat; rewrite ?length_insert; lia.
    + apply IH; lia.
Qed.

(** As long as the strength of the stage and the two compensations are in
    [0,1], the returned function keeps a baseline output in [0,1]. *)
Lemma render_in_range (v : vars) (baseFn : Gamma.XferFn) ch x base :
  (0 <= strength v <= 1)%R -> (0 <= rCmp v <= 1)%R -> (0 <= oCmp v <= 1)%R ->
  Gamma.call baseFn ch x = Some base -> (0 <= base <= 1)%R ->
  exists out, render v baseFn ch x = Some out /\ (0 <= out <= 1)%R.
Proof.
  intros Hs Hr Ho Hb Hbase. unfold render. rewrite Hb. cbn.
  eexists. split; [reflexivity|].
  assert (Hsr : (0 <= strength v * rCmp v <= 1)%R) by nra.
  assert (Hso : (0 <= strength v * oCmp v <= 1)%R) by nra.
  destruct ch.
  - replace (strength v * (base * (1 - rCmp v) + rCmp v)
             + (1 - strength v) * base)%R
      with (base + strength v * rCmp v * (1 - base))%R by ring. nra.
  - replace (strength v * (base * (1 - oCmp v)) + (1 - strength v) * base)%R
      with (base * (1 - strength v * oCmp v))%R by ring. nra.
  - replace (strength v * (base * (1 - oCmp v)) + (1 - strength v) * base)%R
      with (base * (1 - strength v * oCmp v))%R by ring. nra.
Qed.

(** *** Regular runs stay in range *)

Lemma warble_range (since : Duration) (x : R) :
  (0 <= x <= 1)%R -> (0 <= (warble since x).1 <= 1)%R.
Proof.
  intros Hx. unfold warble.
  destruct (since >? _)%Z; [exact Hx|].
  destruct (Modf _) as [i pos]. cbn [fst].
  pose proof (COS_bound (2 * PI * pos)) as Hc. nra.
Qed.

Lemma strobe_range (since : Duration) (x : R) :
  (0 <= since)%Z -> (0 <= x <= 1)%R -> (0 <= (strobe since x).1 <= 1)%R.
Proof.
  intros Hs Hx. unfold strobe.
  destruct (Z.gtb_spec since (1250 * Millisecond)); [exact Hx|]. cbn [fst].
  unfold float64_of_int.
  assert (Hd : (0 < IZR (1250 * Millisecond))%R)
    by (apply IZR_lt; unfold Millisecond; lia).
  assert (Hp : (0 <= IZR since / IZR (1250 * Millisecond) <= 1)%R).
  { split.
    - apply Rmult_le_pos; [apply IZR_le; lia|]. apply Rlt_le, Rinv_0_lt_compat, Hd.
    - apply Rmult_le_reg_r with (IZR (1250 * Millisecond)); [exact Hd|].
      unfold Rdiv. rewrite Rmult_assoc, Rinv_l by lra.
      rewrite Rmult_1_r, Rmult_1_l. apply IZR_le. lia. }
  nra.
Qed.

Lemma builtin_range t e x :
  (t < 2 ^ 62)%Z -> builtin t e -> (0 <= x <= 1)%R ->
  (0 <= (apply e (dsub t (start e)) x).1 <= 1)%R.
Proof.
  intros Ht [[Ha|Ha] Hs] Hx; rewrite Ha.
  - now apply warble_range.
  - apply strobe_range; [|exact Hx].
    unfold dsub, wrap64. rewrite Z.mod_small; lia.
Qed.

Lemma effects_loop_range (t : Duration) (fuel : nat) :
  (t < 2 ^ 62)%Z ->
  forall effs idx es sl,
    Forall (builtin t) effs -> (0 <= es <= 1)%R ->
    let r := effects_loop fuel t effs idx es sl in
    Forall (builtin t) r.1.1 /\ (0 <= r.1.2 <= 1)%R.
Proof.
  intros Ht. induction fuel as [|fuel IH]; intros effs idx es sl Hall Hes;
    cbn [effects_loop]; [auto|].
  destruct (effs !! idx) as [e|] eqn:He; [|auto].
  assert (Hb : builtin t e) by (eapply Forall_lookup_1; eauto).
  pose proof (builtin_range t e es Ht Hb Hes) as Hr.
  destruct (apply e _ es) as [out done]. cbn [fst] in Hr.
  destruct done.
  - apply IH; [|exact Hr]. apply Forall_take.
    destruct (idx <? length effs - 1)%nat eqn:Hlt; [|exact Hall].
    apply Forall_insert; [exact Hall|].
    apply Forall_lookup_total_1; [exact Hall|]. apply Nat.ltb_lt in Hlt. lia.
  - apply IH; assumption.
Qed.

Lemma builtin_later t t' e : (t <= t')%Z -> builtin t e -> builtin t' e.
Proof. unfold builtin. intros Ht [Ha Hs]. split; [exact Ha|lia]. Qed.

Lemma steady_later v t t' : (t <= t')%Z -> steady v t -> steady v t'.
Proof.
  intros Ht [Hs Hall]. split; [lia|].
  eapply Forall_impl; [exact Hall|]. intros e. now apply builtin_later.
Qed.

Lemma on_cmd_ok (v : vars) (t : Duration) (c : Cmd) :
  (0 <= t < 2 ^ 62)%Z -> steady v t -> ~ late v t c ->
  (0 <= sinceStage (on_cmd v t c))%Z /\ steady (on_cmd v t c) t.
Proof.
  intros Ht [Hs Hall] Hlate. unfold steady.
  assert (Hd : dsub t (stageStart v) = (t - stageStart v)%Z).
  { apply dsub_small. unfold is_int64, minInt64, maxInt64, Millisecond in *.
    lia. }
  unfold on_cmd. cbn [stage stageStart sinceStage effects]. rewrite Hd.
  destruct (c =? Warble)%Z.
  { cbn. repeat split; try lia. apply Forall_app. split; [exact Hall|].
    repeat constructor; cbn; auto; lia. }
  destruct (c =? Strobe)%Z.
  { cbn. repeat split; try lia. apply Forall_app. split; [exact Hall|].
    repeat constructor; cbn; auto; lia. }
  destruct (Z.eqb_spec c Exit) as [Hc|Hc];
    [|cbn; repeat split; try lia; exact Hall].
  destruct (stage v) eqn:Hst; cbn.
  - assert (~ (250 * Millisecond < t - stageStart v)%Z)
      by (intros H; apply Hlate; repeat split; auto).
    assert (Hd' : dsub enterExitDuration (t - stageStart v)
                  = (250 * Millisecond - (t - stageStart v))%Z).
    { apply dsub_small.
      unfold is_int64, minInt64, maxInt64, enterExitDuration, Millisecond in *.
      lia. }
    rewrite Hd'. rewrite dsub_small
      by (unfold is_int64, minInt64, maxInt64, Millisecond in *; lia).
    repeat split; try exact Hall; unfold Millisecond in *; lia.
  - repeat split; try exact Hall; unfold Millisecond in *; lia.
  - repeat split; try exact Hall; lia.
Qed.

Lemma on_stage_ok (v : vars) (t : Duration) :
  (0 <= t)%Z -> (0 <= sinceStage v)%Z -> steady v t ->
  (0 <= strength (on_stage v t).1.1 <= 1)%R /\ steady (on_stage v t).1.1 t.
Proof.
  intros Ht Hs [Hst Hall]. unfold on_stage, float64_of_int, steady.
  assert (Hd : (0 < IZR enterExitDuration)%R) by (apply IZR_lt; reflexivity).
  assert (Hq : (0 <= IZR (sinceStage v) / IZR enterExitDuration)%R).
  { apply Rmult_le_pos; [apply IZR_le; lia|].
    apply Rlt_le, Rinv_0_lt_compat, Hd. }
  destruct (stage v).
  - destruct (Rge_dec _ 1); cbn; repeat split; try assumption; try lra;
      try (unfold Millisecond in *; lia).
  - cbn. repeat split; try assumption; try lra;
      try (unfold Millisecond in *; lia).
  - destruct (Rlt_dec _ 0); cbn; repeat split; try assumption; try lra;
      try (unfold Millisecond in *; lia).
Qed.

Lemma steady_Xft : steady Xft 0%Z.
Proof. split; [split; vm_compute; discriminate|constructor]. Qed.

(** X13: a tick that is not a late Exit returns a function that keeps
    every baseline output in [0,1], and leaves the variables steady. *)
Lemma tick_in_range (v : vars) (t : Duration) (baseFn : Gamma.XferFn)
      (event : option dynamic) (c : Cmd) ch x base :
  read_cmd event = Some c ->
  (0 <= t < 2 ^ 62)%Z -> steady v t -> ~ late v t c ->
  Gamma.call baseFn ch x = Some base -> (0 <= base <= 1)%R ->
  exists v' fn sleepFor exitFlag out,
    tick v t baseFn event = Some (v', (fn, sleepFor, exitFlag)) /\
    steady v' t /\
    Gamma.call fn ch x = Some out /\ (0 <= out <= 1)%R.
Proof.
  intros Hc Ht Hst Hlate Hb Hbase.
  unfold tick. rewrite Hc. cbn [mbind option_bind].
  destruct (on_cmd_ok v t c Ht Hst Hlate) as [Hsince Hst1].
  destruct (on_stage_ok (on_cmd v t c) t (proj1 Ht) Hsince Hst1)
    as [Hstr [Hss Hall1]].
  destruct (on_stage (on_cmd v t c) t) as [[v2 sl] ex].
  cbn [fst] in Hstr, Hss, Hall1.
  assert (H0 : (0 <= 0 <= 1)%R) by lra.
  pose proof (effects_loop_range t (length (effects v2)) (proj2 Ht)
                (effects v2) 0%nat 0%R sl Hall1 H0) as [Hall2 Hes].
  destruct (effects_loop _ _ _ _ _ _) as [[effs es] sl'].
  cbn [fst snd] in Hall2, Hes.
  set (v3 := mkVars _ _ _ _ _ _ _ _ _).
  destruct (render_in_range v3 baseFn ch x base) as (out & Hout & Hr);
    cbn; try lra; try assumption.
  exists v3, (Some (render v3 baseFn)), sl', ex, out.
  split; [reflexivity|]. split; [split; [exact Hss|exact Hall2]|].
  split; [exact Hout|exact Hr].
Qed.

End AlertFacts.

(** ** Combinators, clients and sessions *)

Section GammaMore.
Import Gamma.

Lemma DimFn_call (c : R) ch x :
  call (DimFn c) ch x = Some (x * Rmax (Rmin c 1) 0)%R.
Proof. reflexivity. Qed.




(** X2: [Chain] is associative and has the identity function as a
    neutral element on both sides, and [Mul] is commutative, for every
    channel and input, panics included. *)
Theorem Chain_assoc_Mul_comm (f g h : XferFn) (ch : Channel) (x : R) :
  call (Chain (Chain f g) h) ch x = call (Chain f (Chain g h)) ch x /\
  call (Chain identity f) ch x = call f ch x /\
  call (Chain f identity) ch x = call f ch x /\
  call (Mul f g) ch x = call (Mul g f) ch x.
Proof.
  repeat split; cbn.
  - destruct (call f ch x); reflexivity.
  - destruct (call f ch x); reflexivity.
  - destruct (call f ch x) as [u|]; destruct (call g ch x) as [v|]; cbn;
      try reflexivity. f_equal. apply Rmult_comm.
Qed.

(** X3: [DimFn] clamps its coefficient to [0,1]: a coefficient of 1 or more
    leaves the input as it is, a coefficient of 0 or less maps every input
    to 0, and in between the input is multiplied by the coefficient. *)
Theorem DimFn_clamps (c : R) (ch : Channel) (x : R) :
  (1 <= c -> call (DimFn c) ch x = Some x)%R /\
  (c <= 0 -> call (DimFn c) ch x = Some 0)%R /\
  (0 <= c <= 1 -> call (DimFn c) ch x = Some (x * c))%R.
Proof.
  rewrite DimFn_call. unfold Rmax, Rmin.
  repeat split; intros Hc; f_equal;
    destruct (Rle_dec c 1); destruct (Rle_dec _ 0); try lra.
  all: try (assert (c = 1)%R as -> by lra; lra).
  all: try (assert (c = 0)%R as -> by lra; lra).
Qed.

Lemma DimFn_clamps_witness :
  call (DimFn 7) Red (1 / 3) = Some (1 / 3)%R /\
  call (DimFn (-7)) Red (1 / 3) = Some 0%R.
Proof.
  split.
  - apply (proj1 (DimFn_clamps 7 Red (1 / 3))). lra.
  - apply (proj1 (proj2 (DimFn_clamps (-7) Red (1 / 3)))). lra.
Defined.

(** X4: [Equals] is symmetric and transitive. *)
Theorem Equals_equivalence :
  (forall a b, Equals a b = Equals b a) /\
  (forall a b c,
      Equals a b = true -> Equals b c = true -> Equals a c = true).
Proof.
  split.
  - intros a b. apply eq_true_iff_eq. rewrite !Equals_elems.
    split; intros H ch; symmetry; apply H.
  - intros a b c. rewrite !Equals_elems. intros Hab Hbc ch.
    now rewrite Hab.
Qed.

Lemma Equals_equivalence_witness :
  Equals lut4 (GetLookupTable (Some gamma4)).1 = true.
Proof.
  apply (proj2 Equals_equivalence lut4 lut4); reflexivity.
Defined.

(** X5: two tables that [Equals] accepts give functions that agree on every
    channel and input, panics included. *)
Theorem Equals_same_XferFn (a b : LookupTable) :
  Equals a b = true ->
  forall ch x,
    call (LookupTable_XferFn a) ch x = call (LookupTable_XferFn b) ch x.
Proof.
  rewrite Equals_elems. intros Heq ch x. cbn. now rewrite (Heq ch).
Qed.

Lemma Equals_same_XferFn_witness :
  IsZero (mkLookupTable (Some []) (Some []) (Some [])) = false /\
  forall ch x,
    call (LookupTable_XferFn zeroLookupTable) ch x =
    call (LookupTable_XferFn (mkLookupTable (Some []) (Some []) (Some [])))
         ch x.
Proof.
  split; [reflexivity|].
  apply (Equals_same_XferFn zeroLookupTable
           (mkLookupTable (Some []) (Some []) (Some []))).
  reflexivity.
Defined.

(** **** SetGamma *)

Lemma grid_point (size : Z) (idx : nat) :
  (Z.of_nat idx < size)%Z ->
  (0 <= float64_of_int (Z.of_nat idx) / float64_of_int size < 1)%R.
Proof.
  intros Hi. unfold float64_of_int.
  assert (Hs : (0 < IZR size)%R) by (apply IZR_lt; lia).
  assert (H0 : (0 <= IZR (Z.of_nat idx))%R) by (apply IZR_le; lia).
  assert (H1 : (IZR (Z.of_nat idx) < IZR size)%R) by (apply IZR_lt; lia).
  split.
  - apply Rmult_le_pos; [exact H0|]. apply Rlt_le, Rinv_0_lt_compat, Hs.
  - apply Rmult_lt_reg_r with (IZR size); [exact Hs|].
    unfold Rdiv. rewrite Rmult_assoc, Rinv_l by lra. lra.
Qed.

Lemma ushort_in_range (overflow : R -> ushort) (y : R) :
  (0 <= y <= 1)%R ->
  ushort_of_float64 overflow (y * 65535) = Zfloor (y * 65535) /\
  (0 <= Zfloor (y * 65535) <= 65535)%Z.
Proof.
  intros Hy. unfold ushort_of_float64, int_of_float64.
  destruct (Rlt_dec (-1) (y * 65535)); [|lra].
  destruct (Rlt_dec (y * 65535) 65536); [|lra].
  destruct (Rlt_dec (y * 65535) 0); [lra|].
  split; [reflexivity|]. split.
  - apply Zfloor_lub. simpl. lra.
  - pose proof (Zfloor_bound (y * 65535)) as [Hb _].
    apply le_IZR. lra.
Qed.

Lemma sample_at_in_range (fn : XferFn) (ch : Channel) (size : Z) (idx : nat) :
  in_range fn -> (Z.of_nat idx < size)%Z ->
  exists v, (forall overflow, sample_at overflow fn ch size idx = Some v) /\
            (0 <= v <= 65535)%Z.
Proof.
  intros Hfn Hi. pose proof (grid_point size idx Hi) as Hg.
  destruct (Hfn ch _ (conj (proj1 Hg) (Rlt_le _ _ (proj2 Hg))))
    as (y & Hy & Hyr).
  exists (Zfloor (y * 65535)). split.
  - intros overflow. unfold sample_at. rewrite Hy. cbn. f_equal.
    apply ushort_in_range, Hyr.
  - apply (ushort_in_range (fun _ => 0%Z)), Hyr.
Qed.

Lemma mapM_in_range (fn : XferFn) (ch : Channel) (size : Z) (l : list nat) :
  in_range fn -> Forall (fun idx => (Z.of_nat idx < size)%Z) l ->
  exists r,
    (forall overflow, mapM (sample_at overflow fn ch size) l = Some r) /\
    length r = length l /\ Forall (fun v => (0 <= v <= 65535)%Z) r.
Proof.
  intros Hfn. induction 1 as [|idx l Hi _ IH].
  - exists []. repeat split; auto.
  - destruct IH as (r & Hr & Hlen & Hall).
    destruct (sample_at_in_range fn ch size idx Hfn Hi) as (v & Hv & Hvr).
    exists (v :: r). repeat split.
    + intros overflow. cbn. rewrite Hv. cbn. rewrite Hr. reflexivity.
    + cbn. now rewrite Hlen.
    + now constructor.
Qed.

Lemma fill_in_range (fn : XferFn) (ch : Channel) (size : Z) :
  in_range fn ->
  exists r,
    (forall overflow, fill overflow fn ch size = Some r) /\
    length r = Z.to_nat size /\ Forall (fun v => (0 <= v <= 65535)%Z) r.
Proof.
  intros Hfn.
  destruct (mapM_in_range fn ch size (seq 0 (Z.to_nat size)) Hfn)
    as (r & Hr & Hlen & Hall).
  { apply Forall_forall. intros i Hin. apply elem_of_seq in Hin. lia. }
  exists r. rewrite length_seq in Hlen. auto.
Qed.

(** X6: [SetGamma] on an open client, a session whose gammas are all
    allocated, and a function that keeps the contract: it does not panic,
    calls [XRRSetCrtcGamma] once per CRTC, in order, with ramps as long as
    the gamma size of the CRTC, every sample written is between 0 and
    65535, and the result does not depend on what the conversion to
    C.ushort does out of range. *)
Theorem SetGamma_in_range (overflow : R -> ushort) (cl : option Client)
        (s : Session) (fn : XferFn) :
  in_range fn -> Client_check cl = true ->
  Forall (fun c => is_Some (gamma c)) (crtcs s) ->
  exists tr,
    Session_SetGamma overflow cl s fn = Done tt tr /\
    Forall2 (fun c x => exists ptr g,
                 x = XRRSetCrtcGamma (crtc c) ptr g /\ gamma c = Some ptr /\
                 length (red g) = Z.to_nat (size c) /\
                 length (green g) = Z.to_nat (size c) /\
                 length (blue g) = Z.to_nat (size c))
            (crtcs s) tr /\
    Forall (fun v => (0 <= v <= 65535)%Z) (written tr) /\
    forall overflow', Session_SetGamma overflow' cl s fn = Done tt tr.
Proof.
  intros Hfn Hcl Hall. unfold Session_SetGamma. rewrite Hcl.
  induction Hall as [|c cs [ptr Hptr] _ IH].
  - exists []. cbn. repeat split; constructor.
  - destruct IH as (tr & Htr & Hcalls & Hw & Hov).
    destruct (fill_in_range fn Red (size c) Hfn) as (r & Hr & Hrl & Hrr).
    destruct (fill_in_range fn Green (size c) Hfn) as (g & Hg & Hgl & Hgr).
    destruct (fill_in_range fn Blue (size c) Hfn) as (b & Hb & Hbl & Hbr).
    assert (Hfill : forall ov,
               fill_channels ov fn (size c) = Some (mkCrtcGamma r g b)).
    { intros ov. unfold fill_channels. rewrite Hr, Hg, Hb. reflexivity. }
    exists (XRRSetCrtcGamma (crtc c) ptr (mkCrtcGamma r g b) :: tr).
    repeat split.
    + cbn [SetGamma_loop]. now rewrite Hptr, Hfill, Htr.
    + constructor; [|exact Hcalls]. exists ptr, (mkCrtcGamma r g b). auto.
    + unfold written. cbn. rewrite !Forall_app. auto.
    + intros ov. cbn [SetGamma_loop]. now rewrite Hptr, Hfill, Hov.
Qed.

Lemma SetGamma_in_range_witness :
  exists tr,
    Session_SetGamma (fun _ => 0%Z) (NewClient true)
      (mkSession true [mkCrtc 63 4 (Some 1%Z)] true) (DimFn (1 / 2))
    = Done tt tr /\
    Forall (fun v => (0 <= v <= 65535)%Z) (written tr).
Proof.
  destruct (SetGamma_in_range (fun _ => 0%Z) (NewClient true)
              (mkSession true [mkCrtc 63 4 (Some 1%Z)] true) (DimFn (1 / 2)))
    as (tr & Htr & _ & Hw & _).
  - intros ch x Hx. eexists. split; [reflexivity|].
    unfold Rmax, Rmin. destruct (Rle_dec (1 / 2) 1); [|lra].
    destruct (Rle_dec (1 / 2) 0); lra.
  - reflexivity.
  - repeat constructor. eexists; reflexivity.
  - exists tr. auto.
Defined.

(** The function derived from a table that was read from the device
    does not panic at the grid points of SetGamma. *)
Lemma read_table_below_1 (g : XRRCrtcGamma) (ch : Channel) (x : R) :
  red g <> [] -> green g <> [] -> blue g <> [] ->
  (0 <= x < 1)%R ->
  is_Some (call (LookupTable_XferFn (GetLookupTable (Some g)).1) ch x).
Proof.
  intros Hr Hg Hb Hx.
  rewrite (XferFn_of_read_table g ch x (proj1 Hx)). cbn zeta.
  set (lut := match ch with Red => red g | Green => green g | Blue => blue g end).
  assert (Hne : lut <> []) by (destruct ch; assumption).
  assert (Hlen : (0 < INR (length lut))%R).
  { apply lt_0_INR. destruct lut; [congruence|cbn; lia]. }
  assert (Hfl : (0 <= Zfloor (x * INR (length lut)) < Z.of_nat (length lut))%Z).
  { split.
    - apply Zfloor_lub. simpl. nra.
    - pose proof (Zfloor_bound (x * INR (length lut))) as [Hlo _].
      apply lt_IZR. rewrite <- INR_IZR_INZ. nra. }
  unfold index.
  destruct (Z.ltb_spec (Zfloor (x * INR (length lut))) 0); [lia|].
  destruct (lut !! Z.to_nat (Zfloor (x * INR (length lut)))) eqn:Hl.
  - cbn. eauto.
  - apply lookup_ge_None in Hl. lia.
Qed.

Lemma fill_below_1 (overflow : R -> ushort) (fn : XferFn) (ch : Channel)
      (size : Z) :
  (forall c x, (0 <= x < 1)%R -> is_Some (call fn c x)) ->
  exists r, fill overflow fn ch size = Some r /\ length r = Z.to_nat size.
Proof.
  intros Hfn. unfold fill.
  assert (Hs : is_Some (mapM (sample_at overflow fn ch size)
                             (seq 0 (Z.to_nat size)))).
  { apply mapM_is_Some, Forall_forall. intros idx Hin.
    apply elem_of_seq in Hin. cbn. unfold sample_at.
    destruct (Hfn ch (float64_of_int (Z.of_nat idx) / float64_of_int size)%R)
      as [y Hy]; [apply grid_point; lia|].
    rewrite Hy. cbn. eauto. }
  destruct Hs as [r Hr]. exists r. split; [exact Hr|].
  apply length_mapM in Hr. now rewrite length_seq in Hr.
Qed.

(** X7: writing back the function derived from a table read from the
    device (with ramps that are not empty) does not panic, whatever the
    gamma sizes of the CRTCs: [SetGamma] only asks for inputs below 1. *)
Theorem SetGamma_of_read_table (overflow : R -> ushort) (cl : option Client)
        (s : Session) (g : XRRCrtcGamma) :
  Client_check cl = true ->
  Forall (fun c => is_Some (gamma c)) (crtcs s) ->
  red g <> [] -> green g <> [] -> blue g <> [] ->
  exists tr,
    Session_SetGamma overflow cl s
      (LookupTable_XferFn (GetLookupTable (Some g)).1) = Done tt tr /\
    length tr = length (crtcs s).
Proof.
  intros Hcl Hall Hr Hg Hb. unfold Session_SetGamma. rewrite Hcl.
  set (fn := LookupTable_XferFn _).
  assert (Hfn : forall c x, (0 <= x < 1)%R -> is_Some (call fn c x))
    by (intros c x; now apply read_table_below_1).
  induction Hall as [|c cs [ptr Hptr] _ IH].
  - exists []. split; reflexivity.
  - destruct IH as (tr & Htr & Hlen).
    destruct (fill_below_1 overflow fn Red (size c) Hfn) as (r & Hfr & _).
    destruct (fill_below_1 overflow fn Green (size c) Hfn) as (g' & Hfg & _).
    destruct (fill_below_1 overflow fn Blue (size c) Hfn) as (b & Hfb & _).
    eexists. cbn [SetGamma_loop]. rewrite Hptr. unfold fill_channels.
    rewrite Hfr, Hfg, Hfb. cbn [mbind option_bind]. rewrite Htr.
    split; [reflexivity|]. cbn. now rewrite Hlen.
Qed.

Lemma SetGamma_of_read_table_witness :
  exists tr,
    Session_SetGamma (fun _ => 0%Z) (NewClient true)
      (mkSession true [mkCrtc 63 4 (Some 1%Z)] true)
      (LookupTable_XferFn lut4) = Done tt tr /\
    length tr = 1%nat.
Proof.
  apply (SetGamma_of_read_table (fun _ => 0%Z) (NewClient true)
           (mkSession true [mkCrtc 63 4 (Some 1%Z)] true) gamma4).
  - reflexivity.
  - repeat constructor. eexists; reflexivity.
  - discriminate.
  - discriminate.
  - discriminate.
Defined.

(** X8: [SetGamma] of a nil function on a session whose first CRTC has a
    positive gamma size panics before any call of [XRRSetCrtcGamma]. *)
Theorem SetGamma_nil_panics (overflow : R -> ushort) (cl : option Client)
        (s : Session) (c : crtcGamma) (rest : list crtcGamma) :
  crtcs s = c :: rest -> (0 < size c)%Z ->
  Session_SetGamma overflow cl s None = Panics [].
Proof.
  intros Hcs Hsz. unfold Session_SetGamma.
  destruct (Client_check cl); [|reflexivity].
  rewrite Hcs. cbn [SetGamma_loop].
  destruct (gamma c); [|reflexivity].
  assert (Hf : fill_channels overflow None (size c) = None).
  { unfold fill_channels, fill.
    destruct (Z.to_nat (size c)) as [|n] eqn:Hn; [lia|]. reflexivity. }
  now rewrite Hf.
Qed.

Lemma SetGamma_nil_panics_witness :
  Session_SetGamma (fun _ => 0%Z) (NewClient true)
    (mkSession true [mkCrtc 63 4 (Some 1%Z)] true) None = Panics [].
Proof.
  apply (SetGamma_nil_panics (fun _ => 0%Z) (NewClient true)
           (mkSession true [mkCrtc 63 4 (Some 1%Z)] true)
           (mkCrtc 63 4 (Some 1%Z)) []).
  - reflexivity.
  - reflexivity.
Defined.

(** **** Clients and sessions *)

(** X9: after [Client.Close] the client reports closed and fails
    [check], a second [Close] makes no X call, and [XCloseDisplay] is called
    exactly when the client was not closed before. *)
Theorem Client_Close_once (cl : option Client) :
  let cl1 := (Client_Close cl).1 in
  Client_Closed cl1 = true /\ Client_check cl1 = false /\
  Client_Close cl1 = (cl1, []) /\
  (Client_Close cl).2 = (if Client_Closed cl then [] else [XCloseDisplay]).
Proof.
  destruct cl as [[d [|]]|]; cbn; rewrite ?andb_false_r; auto.
Qed.

Lemma NewSession_loop_balance (answers : list crtc_answer) :
  let '(cs, e, tr) := NewSession_loop answers in
  freed (free_gammas cs) = allocated tr /\
  length cs = length answers /\
  count_call XRRFreeScreenResources tr = 0%nat.
Proof.
  induction answers as [|a rest IH]; cbn [NewSession_loop]; [auto|].
  assert (Hz : forall (l : list crtc_answer),
             free_gammas ((fun _ => zero_crtcGamma) <$> l) = []).
  { induction l; [reflexivity|exact IHl]. }
  destruct (ans_size a =? 0)%Z.
  { cbn. unfold free_gammas in *. cbn. rewrite Hz, length_fmap. auto. }
  destruct (ans_alloc a) as [ptr|].
  - destruct (NewSession_loop rest) as [[cs e] tr].
    destruct IH as (IH1 & IH2 & IH3). cbn.
    unfold freed, allocated, free_gammas in *. cbn. rewrite IH1, IH2. auto.
  - cbn. unfold free_gammas in *. cbn. rewrite Hz, length_fmap. auto.
Qed.

(** X11: whatever [NewSession] returned (a session, with or without an
    error), [Session.Close] frees exactly the gammas that [NewSession]
    allocated, in the same order, frees the screen resources exactly when
    they were obtained, and leaves a session for which a second [Close]
    makes no X call and [Closed] answers true. *)
Theorem Session_Close_frees_what_NewSession_allocated
        (cl : option Client) (resources : option (list crtc_answer))
        (s : Session) (e : option error) (tr : list xcall) :
  NewSession cl resources = Done (s, e) tr ->
  exists s' tr',
    Session_Close cl (Some s) = Done (Some s') tr' /\
    freed tr' = allocated tr /\
    count_call XRRFreeScreenResources tr' =
      match resources with Some _ => 1%nat | None => 0%nat end /\
    Session_Close cl (Some s') = Done (Some s') [] /\
    Session_Closed cl (Some s') = Done true [].
Proof.
  unfold NewSession. destruct (Client_check cl) eqn:Hcl; [|discriminate].
  destruct resources as [answers|].
  - pose proof (NewSession_loop_balance answers) as Hbal.
    destruct (NewSession_loop answers) as [[cs e'] tr0].
    destruct Hbal as (Hf & _ & _).
    intros H; inversion H; subst. do 2 eexists.
    unfold Session_Close, Session_Closed. cbn. rewrite Hcl.
    split; [reflexivity|]. split; [exact Hf|]. split; [|split; reflexivity].
    unfold count_call, free_gammas. cbn. f_equal.
    clear Hf H. induction cs as [|c cs IHc]; [reflexivity|].
    cbn. destruct (gamma c); cbn; apply IHc.
  - intros H; inversion H; subst. do 2 eexists.
    unfold Session_Close, Session_Closed. cbn. rewrite Hcl.
    split; [reflexivity|]. repeat split.
Qed.

Lemma Session_Close_frees_what_NewSession_allocated_witness :
  exists s' tr',
    Session_Close (NewClient true)
      (Some (mkSession true
               [mkCrtc 63 256 (Some 1%Z); zero_crtcGamma; zero_crtcGamma]
               true))
    = Done (Some s') tr' /\
    freed tr' = [1%Z].
Proof.
  destruct (Session_Close_frees_what_NewSession_allocated (NewClient true)
              (Some [mkAnswer 63 256 (Some 1%Z); mkAnswer 64 256 None;
                     mkAnswer 65 256 (Some 2%Z)])
              _ _ _ eq_refl) as (s' & tr' & Hc & Hf & _).
  exists s', tr'. split; [exact Hc|exact Hf].
Defined.

(** X12: once the client is closed (or nil), [NewSession], [SetGamma],
    [GetLookupTable], [Session.Closed] and [Close] of an open session panic
    before any X call; [Close] of a session that is already closed remains
    a no-op. *)
Theorem closed_client_panics (cl : option Client) (s : Session)
        (overflow : R -> ushort) (fn : XferFn)
        (answer : option XRRCrtcGamma)
        (resources : option (list crtc_answer)) :
  Client_Closed cl = true ->
  NewSession cl resources = Panics [] /\
  Session_SetGamma overflow cl s fn = Panics [] /\
  Session_GetLookupTable cl s answer = Panics [] /\
  Session_Closed cl (Some s) = Panics [] /\
  Session_Close cl (Some s) =
    (if Session_open s then Panics [] else Done (Some s) []).
Proof.
  intros Hc.
  assert (Hk : Client_check cl = false).
  { destruct cl as [[d op]|]; [|reflexivity]. cbn in *.
    destruct op; [discriminate|]. apply andb_false_r. }
  unfold NewSession, Session_SetGamma, Session_GetLookupTable,
    Session_Closed, Session_Close.
  rewrite Hk. destruct (Session_open s); auto.
Qed.

Lemma closed_client_panics_witness :
  Session_Close (Client_Close (NewClient true)).1
    (Some (mkSession true [mkCrtc 63 4 (Some 1%Z)] true)) = Panics [].
Proof.
  apply (closed_client_panics (Client_Close (NewClient true)).1
           (mkSession true [mkCrtc 63 4 (Some 1%Z)] true)
           (fun _ => 0%Z) None None None).
  reflexivity.
Defined.

(** X10: on an open client and with screen resources, [NewSession] always
    returns a session with one entry per CRTC; the error is nil exactly
    when every CRTC reports a gamma size other than 0 and its allocation
    succeeds, and then the entries hold the id, size and gamma of the
    CRTCs. *)
Theorem NewSession_ok (cl : option Client) (answers : list crtc_answer) :
  Client_check cl = true ->
  exists s e tr,
    NewSession cl (Some answers) = Done (s, e) tr /\
    length (crtcs s) = length answers /\
    (e = None <->
     Forall (fun a => ans_size a <> 0%Z /\ is_Some (ans_alloc a)) answers) /\
    (e = None ->
     crtcs s = (fun a => mkCrtc (ans_crtc a) (ans_size a) (ans_alloc a))
                 <$> answers).
Proof.
  intros Hcl. unfold NewSession. rewrite Hcl.
  assert (H : let '(cs, e, tr) := NewSession_loop answers in
              length cs = length answers /\
              (e = None <->
               Forall (fun a => ans_size a <> 0%Z /\ is_Some (ans_alloc a))
                      answers) /\
              (e = None ->
               cs = (fun a => mkCrtc (ans_crtc a) (ans_size a) (ans_alloc a))
                      <$> answers)).
  { induction answers as [|a rest IH]; cbn [NewSession_loop].
    - repeat split; auto.
    - destruct (Z.eqb_spec (ans_size a) 0) as [Hz|Hz].
      { cbn. rewrite length_fmap. repeat split; try discriminate.
        intros HF. inversion HF as [|? ? [Hs _]]. congruence. }
      destruct (ans_alloc a) as [ptr|] eqn:Ha.
      + destruct (NewSession_loop rest) as [[cs e] tr].
        destruct IH as (IH1 & IH2 & IH3). cbn. rewrite IH1.
        split; [reflexivity|]. split.
        * rewrite IH2. split.
          -- intros HF. constructor; [|exact HF]. rewrite Ha. eauto.
          -- intros HF. now inversion HF.
        * intros He. rewrite Ha, (IH3 He). reflexivity.
      + cbn. rewrite length_fmap. repeat split; try discriminate.
        intros HF. inversion HF as [|? ? [_ [p Hp]]]. congruence. }
  destruct (NewSession_loop answers) as [[cs e] tr].
  do 3 eexists. split; [reflexivity|]. exact H.
Qed.

Lemma NewSession_ok_witness :
  exists s e tr,
    NewSession (NewClient true)
      (Some [mkAnswer 63 256 (Some 1%Z); mkAnswer 64 256 None]) =
      Done (s, e) tr /\
    length (crtcs s) = 2%nat.
Proof.
  destruct (NewSession_ok (NewClient true)
              [mkAnswer 63 256 (Some 1%Z); mkAnswer 64 256 None] eq_refl)
    as (s & e & tr & H1 & H2 & _).
  exists s, e, tr. split; [exact H1|exact H2].
Defined.

(** **** Whether SetGamma returns *)

Lemma fill_is_Some (overflow : R -> ushort) (fn : XferFn) (ch : Channel)
      (size : Z) :
  is_Some (fill overflow fn ch size) <->
  forall idx, (idx < Z.to_nat size)%nat ->
    is_Some (call fn ch (float64_of_int (Z.of_nat idx)
                         / float64_of_int size)%R).
Proof.
  unfold fill. rewrite mapM_is_Some, Forall_forall. split.
  - intros H idx Hi. specialize (H idx). cbn in H. unfold sample_at in H.
    destruct (call fn ch _); [eauto|].
    destruct H as [y Hy]; [apply elem_of_seq; lia|discriminate].
  - intros H idx Hi. apply elem_of_seq in Hi. cbn. unfold sample_at.
    destruct (H idx) as [y Hy]; [lia|]. rewrite Hy. cbn. eauto.
Qed.

Lemma fill_channels_is_Some (overflow : R -> ushort) (fn : XferFn)
      (size : Z) :
  is_Some (fill_channels overflow fn size) <->
  forall ch idx, (idx < Z.to_nat size)%nat ->
    is_Some (call fn ch (float64_of_int (Z.of_nat idx)
                         / float64_of_int size)%R).
Proof.
  unfold fill_channels.
  pose proof (fill_is_Some overflow fn Red size) as Hr.
  pose proof (fill_is_Some overflow fn Green size) as Hg.
  pose proof (fill_is_Some overflow fn Blue size) as Hb.
  split.
  - intros H ch.
    destruct (fill overflow fn Red size) as [r|]; [|destruct H; discriminate].
    destruct (fill overflow fn Green size) as [g|];
      [|destruct H; discriminate].
    destruct (fill overflow fn Blue size) as [b|];
      [|destruct H; discriminate].
    destruct ch; [apply Hr|apply Hg|apply Hb]; eauto.
  - intros H.
    destruct (proj2 Hr (H Red)) as [r ->].
    destruct (proj2 Hg (H Green)) as [g ->].
    destruct (proj2 Hb (H Blue)) as [b ->]. cbn. eauto.
Qed.

Lemma SetGamma_loop_returns (overflow overflow' : R -> ushort) (fn : XferFn)
      (cs : list crtcGamma) :
  (exists tr, SetGamma_loop overflow fn cs = Done tt tr) ->
  exists tr, SetGamma_loop overflow' fn cs = Done tt tr.
Proof.
  induction cs as [|c cs IH]; cbn [SetGamma_loop]; [eauto|].
  destruct (gamma c) as [ptr|]; [|intros [tr H]; discriminate].
  pose proof (fill_channels_is_Some overflow fn (size c)) as H1.
  pose proof (fill_channels_is_Some overflow' fn (size c)) as H2.
  destruct (fill_channels overflow fn (size c)) as [g|];
    [|intros [tr H]; discriminate].
  destruct (proj2 H2 (proj1 H1 (ltac:(eauto)))) as [g' ->].
  destruct (SetGamma_loop overflow fn cs) as [[] tr|tr];
    [|intros [tr' H]; discriminate].
  intros _. destruct IH as [tr' ->]; eauto.
Qed.

(** Whether [SetGamma] returns does not depend on the conversion. *)
Lemma SetGamma_returns_any (overflow : R -> ushort) (cl : option Client)
      (s : Session) (fn : XferFn) :
  SetGamma_returns cl s fn = true <->
  exists tr, Session_SetGamma overflow cl s fn = Done tt tr.
Proof.
  unfold SetGamma_returns, Session_SetGamma.
  destruct (Client_check cl); [|split; [discriminate|intros [tr H]; discriminate]].
  split.
  - destruct (SetGamma_loop (fun _ => 0%Z) fn (crtcs s)) as [[] tr|tr] eqn:H;
      [|discriminate].
    intros _. eapply SetGamma_loop_returns; eauto.
  - intros H. destruct (SetGamma_loop_returns overflow (fun _ => 0%Z) fn
                          (crtcs s) H) as [tr ->]. reflexivity.
Qed.

Lemma SetGamma_returns_check (cl : option Client) (s : Session)
      (fn : XferFn) :
  SetGamma_returns cl s fn = true -> Client_check cl = true.
Proof.
  unfold SetGamma_returns, Session_SetGamma.
  now destruct (Client_check cl).
Qed.

Lemma SetGamma_returns_total (cl : option Client) (s : Session)
      (fn : XferFn) :
  Client_check cl = true ->
  Forall (fun c => is_Some (gamma c)) (crtcs s) ->
  total_below_1 fn ->
  SetGamma_returns cl s fn = true.
Proof.
  intros Hcl Hall Hfn. unfold SetGamma_returns, Session_SetGamma.
  rewrite Hcl.
  induction Hall as [|c cs [ptr Hptr] _ IH]; [reflexivity|].
  cbn [SetGamma_loop]. rewrite Hptr.
  destruct (proj2 (fill_channels_is_Some (fun _ => 0%Z) fn (size c)))
    as [g ->].
  { intros ch idx Hi. apply Hfn, grid_point. lia. }
  destruct (SetGamma_loop _ fn cs); [reflexivity|discriminate].
Qed.

Lemma SetGamma_returns_nil (cl : option Client) (s : Session)
      (c : crtcGamma) (rest : list crtcGamma) :
  crtcs s = c :: rest -> (0 < size c)%Z ->
  SetGamma_returns cl s None = false.
Proof.
  intros Hcs Hsz. unfold SetGamma_returns, Session_SetGamma.
  destruct (Client_check cl); [|reflexivity].
  rewrite Hcs. cbn [SetGamma_loop].
  destruct (gamma c); [|reflexivity].
  assert (Hf : fill_channels (fun _ => 0%Z) None (size c) = None).
  { unfold fill_channels, fill.
    destruct (Z.to_nat (size c)) as [|n] eqn:Hn; [lia|]. reflexivity. }
  now rewrite Hf.
Qed.

(** **** Functions that do not panic below 1 *)

Lemma total_read_table (g : XRRCrtcGamma) :
  red g <> [] -> green g <> [] -> blue g <> [] ->
  total_below_1 (LookupTable_XferFn (GetLookupTable (Some g)).1).
Proof. intros Hr Hg Hb ch x Hx. now apply read_table_below_1. Qed.

Lemma total_Mul (a b : XferFn) :
  total_below_1 a -> total_below_1 b -> total_below_1 (Mul a b).
Proof.
  intros Ha Hb ch x Hx. cbn.
  destruct (Ha ch x Hx) as [u ->]. destruct (Hb ch x Hx) as [v ->].
  cbn. eauto.
Qed.

Lemma total_DimFn (c : R) : total_below_1 (DimFn c).
Proof. intros ch x Hx. cbn. eauto. Qed.

(** **** GetLookupTable on a session *)

Lemma Session_GetLookupTable_Done (cl : option Client) (s : Session)
      (answer : option XRRCrtcGamma) r tr :
  Session_GetLookupTable cl s answer = Done r tr ->
  r = GetLookupTable answer /\ Client_check cl = true /\ crtcs s <> [].
Proof.
  unfold Session_GetLookupTable.
  destruct (Client_check cl); [|discriminate].
  destruct (crtcs s); [discriminate|].
  intros H; inversion H; subst. auto.
Qed.

Lemma Session_GetLookupTable_ok (cl : option Client) (s : Session)
      (answer : option XRRCrtcGamma) :
  Client_check cl = true -> crtcs s <> [] ->
  exists tr,
    Session_GetLookupTable cl s answer = Done (GetLookupTable answer) tr.
Proof.
  intros Hcl Hcs. unfold Session_GetLookupTable. rewrite Hcl.
  destruct (crtcs s); [contradiction|eauto].
Qed.

End GammaMore.

(** ** The stages and the effects of the alert driver *)

Section AlertMore.
Import Alert.

(** The shape of a tick: the stage part, then the loop over the effects. *)
Lemma tick_shape (v : vars) (t : Duration) (b : Gamma.XferFn)
      (ev : option dynamic) (c : Cmd) :
  read_cmd ev = Some c ->
  let w := on_stage (on_cmd v t c) t in
  let r := effects_loop (length (effects w.1.1)) t (effects w.1.1) 0 0%R
                        w.1.2 in
  let v3 := mkVars (stage w.1.1) (stageStart w.1.1) (sinceStage w.1.1)
                   (strength w.1.1) r.1.1 (cmd w.1.1) r.1.2
                   (0.2 + r.1.2 * 0.6)%R (0 + r.1.2 * 0.6)%R in
  tick v t b ev = Some (v3, (Some (render v3 b), r.2, w.2)).
Proof.
  intros Hc. unfold tick. rewrite Hc. cbn [mbind option_bind].
  destruct (on_stage (on_cmd v t c) t) as [[v2 sl] ex]. cbn [fst snd].
  destruct (effects_loop _ _ _ _ _ _) as [[effs es] sl']. reflexivity.
Qed.

Lemma quotient_ge_1 (n : Z) :
  (IZR n / IZR enterExitDuration >= 1)%R <-> (250 * Millisecond <= n)%Z.
Proof.
  assert (Hd : (0 < IZR enterExitDuration)%R) by (apply IZR_lt; reflexivity).
  change (250 * Millisecond)%Z with enterExitDuration.
  split.
  - intros H. apply le_IZR.
    apply Rmult_le_reg_r with (/ IZR enterExitDuration)%R;
      [now apply Rinv_0_lt_compat|].
    rewrite Rinv_r by lra. unfold Rdiv in H. lra.
  - intros H. apply IZR_le in H.
    apply Rle_ge. apply Rmult_le_reg_r with (IZR enterExitDuration);
      [exact Hd|].
    unfold Rdiv. rewrite Rmult_assoc, Rinv_l by lra. lra.
Qed.

Lemma on_cmd_not_Exit (v : vars) (t : Duration) (c : Cmd) :
  c <> Exit \/ stage v = exit ->
  stage (on_cmd v t c) = stage v /\
  stageStart (on_cmd v t c) = stageStart v /\
  sinceStage (on_cmd v t c) = dsub t (stageStart v).
Proof.
  intros Hc. unfold on_cmd.
  destruct (c =? Warble)%Z; [cbn; auto|].
  destruct (c =? Strobe)%Z; [cbn; auto|].
  destruct (Z.eqb_spec c Exit) as [He|He]; [|cbn; auto].
  destruct Hc as [Hc|Hc]; [contradiction|]. cbn. rewrite Hc. cbn. auto.
Qed.

Lemma effects_loop_sleep (t : Duration) (fuel : nat) :
  forall effs idx es sl,
    (idx <= length effs)%nat -> (length effs - idx <= fuel)%nat ->
    let r := effects_loop fuel t effs idx es sl in
    (idx <= length r.1.1)%nat /\
    r.2 = if (length r.1.1 =? idx)%nat then sl else 0%Z.
Proof.
  induction fuel as [|fuel IH]; intros effs idx es sl Hi Hf;
    cbn [effects_loop].
  - cbn. split; [exact Hi|].
    destruct (Nat.eqb_spec (length effs) idx); [reflexivity|lia].
  - destruct (effs !! idx) as [e|] eqn:He.
    + apply lookup_lt_Some in He.
      destruct (apply e _ es) as [out done]. destruct done.
      * apply IH.
        -- rewrite length_take.
           destruct (idx <? length effs - 1)%nat; rewrite ?length_insert; lia.
        -- rewrite length_take.
           destruct (idx <? length effs - 1)%nat; rewrite ?length_insert; lia.
      * destruct (IH effs (Datatypes.S idx) out 0%Z) as [Hl Hs]; [lia..|].
        cbn zeta in *. split; [lia|]. rewrite Hs.
        destruct (Nat.eqb_spec (length (effects_loop fuel t effs
                                  (Datatypes.S idx) out 0%Z).1.1) idx); [lia|].
        now destruct (_ =? _)%nat.
    + apply lookup_ge_None in He. cbn. split; [exact Hi|].
      destruct (Nat.eqb_spec (length effs) idx); [reflexivity|lia].
Qed.

Lemma tick_sleep (v : vars) (t : Duration) (b : Gamma.XferFn)
      (ev : option dynamic) (c : Cmd) v' fn sl ex :
  read_cmd ev = Some c ->
  tick v t b ev = Some (v', (fn, sl, ex)) ->
  sl = match effects v' with
       | [] => (on_stage (on_cmd v t c) t).1.2
       | _ :: _ => 0%Z
       end.
Proof.
  intros Hc Htick. rewrite (tick_shape v t b ev c Hc) in Htick.
  set (w := on_stage (on_cmd v t c) t) in *.
  destruct (effects_loop_sleep t (length (effects w.1.1)) (effects w.1.1)
              0%nat 0%R w.1.2) as [_ Hs]; [lia..|].
  cbn zeta in Hs. inversion Htick; subst. cbn [effects]. rewrite Hs.
  destruct (effects_loop _ _ _ _ _ _).1.1; reflexivity.
Qed.

Lemma on_stage_sleep (v : vars) (t : Duration) :
  (on_stage v t).1.2 = match stage v with
                       | static => (2 * Second)%Z
                       | _ => 0%Z
                       end.
Proof.
  unfold on_stage. destruct (stage v); [|reflexivity|].
  - now destruct (Rge_dec _ 1).
  - now destruct (Rlt_dec _ 0).
Qed.

Lemma tick_stage (v : vars) (t : Duration) (b : Gamma.XferFn)
      (ev : option dynamic) (c : Cmd) v' fn sl ex :
  read_cmd ev = Some c ->
  tick v t b ev = Some (v', (fn, sl, ex)) ->
  let w := on_stage (on_cmd v t c) t in
  stage v' = stage w.1.1 /\ stageStart v' = stageStart w.1.1 /\
  strength v' = strength w.1.1 /\ ex = w.2 /\ fn = Some (render v' b).
Proof.
  intros Hc Htick. rewrite (tick_shape v t b ev c Hc) in Htick.
  cbn zeta in *. injection Htick as <- <- _ <-. cbn. auto.
Qed.

Lemma on_stage_enter (v : vars) (t : Duration) :
  stage v = enter ->
  let r := on_stage v t in
  r.2 = false /\
  (sinceStage v < 250 * Millisecond ->
   stage r.1.1 = enter /\ stageStart r.1.1 = stageStart v /\
   strength r.1.1 = (IZR (sinceStage v) / IZR (250 * Millisecond))%R)%Z /\
  (250 * Millisecond <= sinceStage v ->
   stage r.1.1 = static /\ stageStart r.1.1 = t /\ strength r.1.1 = 1%R)%Z.
Proof.
  intros Hst. unfold on_stage, float64_of_int. rewrite Hst.
  destruct (Rge_dec _ 1) as [Hge|Hlt]; cbn.
  - apply quotient_ge_1 in Hge.
    split; [reflexivity|]. split; intros He; [lia|auto].
  - assert (Hlt' : ~ (250 * Millisecond <= sinceStage v)%Z)
      by (intros H; apply Hlt, quotient_ge_1, H).
    split; [reflexivity|]. split; intros He; [auto|lia].
Qed.

Lemma on_stage_exit (v : vars) (t : Duration) :
  stage v = exit ->
  let r := on_stage v t in
  stage r.1.1 = exit /\ stageStart r.1.1 = stageStart v /\
  (sinceStage v <= 250 * Millisecond ->
   r.2 = false /\
   strength r.1.1 = (1 - IZR (sinceStage v) / IZR (250 * Millisecond))%R)%Z /\
  (250 * Millisecond < sinceStage v ->
   r.2 = true /\ strength r.1.1 = 0%R)%Z.
Proof.
  intros Hst. unfold on_stage, float64_of_int. rewrite Hst.
  assert (Hd : (0 < IZR enterExitDuration)%R) by (apply IZR_lt; reflexivity).
  assert (Hiff : (1 - IZR (sinceStage v) / IZR enterExitDuration < 0)%R <->
                 (250 * Millisecond < sinceStage v)%Z).
  { change (250 * Millisecond)%Z with enterExitDuration. split.
    - intros H. apply lt_IZR.
      apply Rmult_lt_reg_r with (/ IZR enterExitDuration)%R;
        [now apply Rinv_0_lt_compat|].
      rewrite Rinv_r by lra. unfold Rdiv in H. lra.
    - intros H. apply IZR_lt in H.
      assert (1 < IZR (sinceStage v) / IZR enterExitDuration)%R; [|lra].
      apply Rmult_lt_reg_r with (IZR enterExitDuration); [exact Hd|].
      unfold Rdiv. rewrite Rmult_assoc, Rinv_l by lra. lra. }
  destruct (Rlt_dec _ 0) as [H|H]; cbn.
  - apply Hiff in H. repeat split; intros; try lia; auto.
  - assert (~ (250 * Millisecond < sinceStage v)%Z)
      by (intros H'; apply H, Hiff, H').
    repeat split; intros; try lia; auto.
Qed.

(** X14: a tick in stage enter without the command Exit, [e] after the
    stage began: below 250ms the stage stays enter with strength e/250ms;
    from 250ms on the stage becomes static at strength 1 and starts at t.
    In both cases sleepFor is 0 and the exit flag is not raised. *)
Theorem enter_fades_in (v : vars) (t : Duration) (b : Gamma.XferFn)
        (ev : option dynamic) (c : Cmd) v' fn sl ex :
  read_cmd ev = Some c -> c <> Exit -> stage v = enter ->
  is_int64 (t - stageStart v) ->
  tick v t b ev = Some (v', (fn, sl, ex)) ->
  let e := (t - stageStart v)%Z in
  ex = false /\ sl = 0%Z /\
  (e < 250 * Millisecond ->
   stage v' = enter /\ stageStart v' = stageStart v /\
   strength v' = (IZR e / IZR (250 * Millisecond))%R)%Z /\
  (250 * Millisecond <= e ->
   stage v' = static /\ stageStart v' = t /\ strength v' = 1%R)%Z.
Proof.
  intros Hc Hne Hst Hint Htick e.
  pose proof (tick_sleep v t b ev c _ _ _ _ Hc Htick) as Hsl.
  rewrite on_stage_sleep in Hsl.
  destruct (tick_stage v t b ev c _ _ _ _ Hc Htick)
    as (T1 & T2 & T3 & T4 & _).
  destruct (on_cmd_not_Exit v t c (or_introl Hne)) as (H1 & H2 & H3).
  rewrite (dsub_small _ _ Hint) in H3. fold e in H3.
  rewrite H1, Hst in Hsl.
  assert (Hst' : stage (on_cmd v t c) = enter) by congruence.
  destruct (on_stage_enter (on_cmd v t c) t Hst') as (E1 & E2 & E3).
  rewrite H3 in E2, E3. rewrite H2 in E2. rewrite T1, T2, T3, T4.
  split; [exact E1|]. split; [rewrite Hsl; now destruct (effects v')|].
  split; assumption.
Qed.

Lemma enter_fades_in_witness :
  exists v' fn,
    tick Xft (100 * Millisecond) Gamma.identity (Some (IsCmd Warble))
      = Some (v', (fn, 0%Z, false)) /\
    strength v' = (IZR (100 * Millisecond) / IZR (250 * Millisecond))%R.
Proof.
  destruct (tick Xft (100 * Millisecond) Gamma.identity (Some (IsCmd Warble)))
    as [[v' [[fn sl] ex]]|] eqn:Htick.
  - destruct (enter_fades_in Xft (100 * Millisecond)%Z Gamma.identity
                (Some (IsCmd Warble)) Warble v' fn sl ex)
      as (Hex & Hsl & Hlt & _).
    + reflexivity.
    + discriminate.
    + reflexivity.
    + split; vm_compute; discriminate.
    + exact Htick.
    + exists v', fn. subst ex sl. split; [reflexivity|].
      apply Hlt. reflexivity.
  - exfalso. rewrite (tick_shape Xft (100 * Millisecond)%Z Gamma.identity
                        (Some (IsCmd Warble)) Warble eq_refl) in Htick.
    discriminate.
Defined.

(** X16: a tick in stage exit, [e] after the stage began, whatever the
    command: the stage stays exit and keeps its start, sleepFor is 0; up to
    250ms the strength is 1 - e/250ms and the exit flag is not raised, after
    250ms the strength is 0 and the exit flag is raised. *)
Theorem exit_fades_out (v : vars) (t : Duration) (b : Gamma.XferFn)
        (ev : option dynamic) (c : Cmd) v' fn sl ex :
  read_cmd ev = Some c -> stage v = exit ->
  is_int64 (t - stageStart v) ->
  tick v t b ev = Some (v', (fn, sl, ex)) ->
  let e := (t - stageStart v)%Z in
  stage v' = exit /\ stageStart v' = stageStart v /\ sl = 0%Z /\
  (e <= 250 * Millisecond ->
   ex = false /\
   strength v' = (1 - IZR e / IZR (250 * Millisecond))%R)%Z /\
  (250 * Millisecond < e -> ex = true /\ strength v' = 0%R)%Z.
Proof.
  intros Hc Hst Hint Htick e.
  pose proof (tick_sleep v t b ev c _ _ _ _ Hc Htick) as Hsl.
  rewrite on_stage_sleep in Hsl.
  destruct (tick_stage v t b ev c _ _ _ _ Hc Htick)
    as (T1 & T2 & T3 & T4 & _).
  destruct (on_cmd_not_Exit v t c (or_intror Hst)) as (H1 & H2 & H3).
  rewrite (dsub_small _ _ Hint) in H3. fold e in H3.
  rewrite H1, Hst in Hsl.
  assert (Hst' : stage (on_cmd v t c) = exit) by congruence.
  destruct (on_stage_exit (on_cmd v t c) t Hst') as (E1 & E2 & E3 & E4).
  rewrite H3 in E3, E4. rewrite T1, T2, T3, T4, E1, E2, H2.
  split; [reflexivity|]. split; [reflexivity|].
  split; [rewrite Hsl; now destruct (effects v')|].
  split; assumption.
Qed.

Lemma exit_fades_out_witness :
  exists v' fn sl,
    tick (setStage Xft (100 * Millisecond) exit) (400 * Millisecond)
         Gamma.identity None = Some (v', (fn, sl, true)) /\
    strength v' = 0%R.
Proof.
  destruct (tick (setStage Xft (100 * Millisecond) exit) (400 * Millisecond)
                 Gamma.identity None)
    as [[v' [[fn sl] ex]]|] eqn:Htick.
  - destruct (exit_fades_out (setStage Xft (100 * Millisecond) exit)
                (400 * Millisecond)%Z Gamma.identity None noCmd v' fn sl ex)
      as (_ & _ & _ & _ & Hgt).
    + reflexivity.
    + reflexivity.
    + split; vm_compute; discriminate.
    + exact Htick.
    + destruct Hgt as [Hex Hs]; [reflexivity|].
      exists v', fn, sl. subst ex. split; [reflexivity|exact Hs].
  - exfalso.
    rewrite (tick_shape (setStage Xft (100 * Millisecond) exit)
               (400 * Millisecond)%Z Gamma.identity None noCmd eq_refl)
      in Htick.
    discriminate.
Defined.

(** X15: a tick in stage static has strength 1 and does not raise the exit
    flag.  Without the command Exit the stage stays static and sleepFor is
    2s when no effect is left, 0 otherwise; with Exit the stage becomes
    exit, starting at t, and sleepFor is 0. *)
Theorem static_until_Exit (v : vars) (t : Duration) (b : Gamma.XferFn)
        (ev : option dynamic) (c : Cmd) v' fn sl ex :
  read_cmd ev = Some c -> stage v = static ->
  tick v t b ev = Some (v', (fn, sl, ex)) ->
  ex = false /\ strength v' = 1%R /\
  (c <> Exit ->
   stage v' = static /\ stageStart v' = stageStart v /\
   sl = match effects v' with [] => 2 * Second | _ :: _ => 0 end)%Z /\
  (c = Exit -> stage v' = exit /\ stageStart v' = t /\ sl = 0%Z).
Proof.
  intros Hc Hst Htick.
  pose proof (tick_sleep v t b ev c _ _ _ _ Hc Htick) as Hsl.
  rewrite on_stage_sleep in Hsl.
  destruct (tick_stage v t b ev c _ _ _ _ Hc Htick)
    as (T1 & T2 & T3 & T4 & _).
  destruct (Z.eq_dec c Exit) as [He|Hne].
  - set (v1 := mkVars (stage v) (stageStart v) (dsub t (stageStart v))
                      (strength v) (effects v) c (effectStrength v)
                      (rCmp v) (oCmp v)).
    assert (Hon : on_cmd v t c = setStage v1 t exit).
    { unfold on_cmd. subst c. cbn [stage]. rewrite Hst. reflexivity. }
    rewrite Hon in *. cbn [setStage stage] in Hsl.
    destruct (on_stage_exit (setStage v1 t exit) t eq_refl)
      as (E1 & E2 & E3 & _).
    destruct E3 as [E3 E4]; [cbn; vm_compute; discriminate|].
    cbn [setStage sinceStage stageStart] in E2, E4.
    rewrite T1, T2, T3, T4, E1, E2, E3, E4.
    split; [reflexivity|]. split; [unfold Rdiv; lra|].
    split; [contradiction|]. intros _.
    split; [reflexivity|]. split; [reflexivity|].
    rewrite Hsl. now destruct (effects v').
  - destruct (on_cmd_not_Exit v t c (or_introl Hne)) as (H1 & H2 & H3).
    rewrite H1, Hst in Hsl.
    assert (Hos : forall w, stage w = static ->
                on_stage w t = (set_strength w 1, (2 * Second)%Z, false)).
    { intros w Hw. unfold on_stage. now rewrite Hw. }
    rewrite (Hos _ (eq_trans H1 Hst)) in T1, T2, T3, T4. cbn in T1, T2, T3, T4.
    rewrite T1, T2, T3, T4, H1, H2, Hst.
    split; [reflexivity|]. split; [reflexivity|].
    split; [|contradiction]. intros _. auto.
Qed.

Lemma static_until_Exit_witness :
  exists v' fn,
    tick (setStage Xft (300 * Millisecond) static) (400 * Millisecond)
         Gamma.identity None
      = Some (v', (fn, (2 * Second)%Z, false)) /\
    stage v' = static.
Proof.
  destruct (tick (setStage Xft (300 * Millisecond) static)
                 (400 * Millisecond) Gamma.identity None)
    as [[v' [[fn sl] ex]]|] eqn:Htick.
  - destruct (static_until_Exit (setStage Xft (300 * Millisecond) static)
                (400 * Millisecond)%Z Gamma.identity None noCmd v' fn sl ex
                eq_refl eq_refl Htick) as (Hex & _ & Hne & _).
    destruct Hne as (Hst & _ & Hsl); [discriminate|].
    assert (He : effects v' = []).
    { rewrite (tick_shape (setStage Xft (300 * Millisecond) static)
                 (400 * Millisecond)%Z Gamma.identity None noCmd eq_refl)
        in Htick.
      injection Htick as <- _ _ _. reflexivity. }
    rewrite He in Hsl. exists v', fn. subst ex sl. auto.
  - exfalso.
    rewrite (tick_shape (setStage Xft (300 * Millisecond) static)
               (400 * Millisecond)%Z Gamma.identity None noCmd eq_refl)
      in Htick.
    discriminate.
Defined.

Lemma tick_read (v : vars) (t : Duration) (b : Gamma.XferFn)
      (ev : option dynamic) r :
  tick v t b ev = Some r -> exists c, read_cmd ev = Some c.
Proof.
  unfold tick. destruct (read_cmd ev) as [c|]; [eauto|discriminate].
Qed.

(** X17: when a tick raises the exit flag, the stage is exit, the strength
    is 0, and the function it returns is the baseline itself on every
    channel and input. *)
Theorem exit_flag_at_rest (v : vars) (t : Duration) (b : Gamma.XferFn)
        (ev : option dynamic) v' fn sl :
  tick v t b ev = Some (v', (fn, sl, true)) ->
  stage v' = exit /\ strength v' = 0%R /\
  forall ch x, Gamma.call fn ch x = Gamma.call b ch x.
Proof.
  intros Htick. destruct (tick_read _ _ _ _ _ Htick) as [c Hc].
  destruct (tick_stage v t b ev c _ _ _ _ Hc Htick)
    as (T1 & T2 & T3 & T4 & T5).
  assert (Hw : stage (on_stage (on_cmd v t c) t).1.1 = exit /\
               strength (on_stage (on_cmd v t c) t).1.1 = 0%R).
  { revert T4. unfold on_stage.
    destruct (stage (on_cmd v t c)) eqn:Hst.
    - destruct (Rge_dec _ 1); discriminate.
    - discriminate.
    - destruct (Rlt_dec _ 0); [|discriminate]. cbn. auto. }
  destruct Hw as [W1 W2]. rewrite W1 in T1. rewrite W2 in T3.
  split; [exact T1|]. split; [exact T3|].
  intros ch x. subst fn.
  change (Gamma.call (Some (render v' b)) ch x) with (render v' b ch x).
  unfold render. rewrite T3.
  destruct (Gamma.call b ch x) as [base|]; [|reflexivity].
  cbn. f_equal. destruct ch; lra.
Qed.

Lemma exit_flag_at_rest_witness :
  exists v' fn sl,
    tick (setStage Xft (100 * Millisecond) exit) (400 * Millisecond)
         Gamma.identity None = Some (v', (fn, sl, true)) /\
    Gamma.call fn Gamma.Red (1 / 3) = Some (1 / 3)%R.
Proof.
  pose proof (tick_shape (setStage Xft (100 * Millisecond) exit)
                (400 * Millisecond)%Z Gamma.identity None noCmd eq_refl)
    as Htick.
  cbn zeta in Htick.
  assert (Hex : (on_stage (on_cmd (setStage Xft (100 * Millisecond) exit)
                                  (400 * Millisecond) noCmd)
                          (400 * Millisecond)).2 = true).
  { destruct (on_stage_exit
                (on_cmd (setStage Xft (100 * Millisecond) exit)
                        (400 * Millisecond) noCmd)
                (400 * Millisecond)%Z eq_refl) as (_ & _ & _ & H).
    apply H. reflexivity. }
  rewrite Hex in Htick.
  do 3 eexists. split; [exact Htick|].
  apply (proj2 (proj2 (exit_flag_at_rest _ _ _ _ _ _ _ Htick))
           Gamma.Red (1 / 3)%R).
Defined.

Lemma on_cmd_stage (v : vars) (t : Duration) (c : Cmd) :
  stage (on_cmd v t c) = stage v \/ stage (on_cmd v t c) = exit.
Proof.
  unfold on_cmd.
  destruct (c =? Warble)%Z; [cbn; auto|].
  destruct (c =? Strobe)%Z; [cbn; auto|].
  destruct (c =? Exit)%Z; [|cbn; auto].
  cbn [stage]. destruct (stage v); cbn; auto.
Qed.

(** X18: the stage never goes back: after exit comes exit, and after
    static never enter. *)
Theorem stage_never_goes_back (v : vars) (t : Duration) (b : Gamma.XferFn)
        (ev : option dynamic) v' r :
  tick v t b ev = Some (v', r) ->
  (stage v = exit -> stage v' = exit) /\
  (stage v = static -> stage v' <> enter).
Proof.
  destruct r as [[fn sl] ex]. intros Htick.
  destruct (tick_read _ _ _ _ _ Htick) as [c Hc].
  destruct (tick_stage v t b ev c _ _ _ _ Hc Htick) as (T1 & _).
  rewrite T1.
  assert (Hos : forall w,
             (stage w = exit -> stage (on_stage w t).1.1 = exit) /\
             (stage w = static -> stage (on_stage w t).1.1 = static)).
  { intros w. unfold on_stage. destruct (stage w) eqn:Hw.
    - split; discriminate.
    - split; [discriminate|]. intros _. exact Hw.
    - split; [|discriminate]. intros _.
      destruct (Rlt_dec _ 0); exact Hw. }
  destruct (on_cmd_stage v t c) as [H|H].
  - split; intros Hst; rewrite Hst in H.
    + now apply Hos.
    + rewrite (proj2 (Hos _) H). discriminate.
  - split; intros Hst; rewrite (proj1 (Hos _) H); [reflexivity|discriminate].
Qed.

(** X19: a command other than Warble, Strobe and Exit, and the command
    Exit in stage exit, behave like no event at all. *)
Theorem other_commands_ignored (v : vars) (t : Duration) (b : Gamma.XferFn)
        (c : Cmd) :
  c <> Warble -> c <> Strobe -> c <> Exit \/ stage v = exit ->
  tick v t b (Some (IsCmd c)) = tick v t b None.
Proof.
  intros Hw Hs He.
  assert (Hon : forall d, d <> Warble -> d <> Strobe ->
                          d <> Exit \/ stage v = exit ->
             on_cmd v t d =
             mkVars (stage v) (stageStart v) (dsub t (stageStart v))
                    (strength v) (effects v) d (effectStrength v)
                    (rCmp v) (oCmp v)).
  { intros d Hdw Hds Hde. unfold on_cmd.
    destruct (Z.eqb_spec d Warble); [contradiction|].
    destruct (Z.eqb_spec d Strobe); [contradiction|].
    destruct (Z.eqb_spec d Exit); [|reflexivity].
    destruct Hde as [Hde|Hde]; [contradiction|].
    cbn [stage]. now rewrite Hde. }
  unfold tick. cbn [read_cmd mbind option_bind].
  rewrite (Hon c Hw Hs He).
  rewrite (Hon noCmd) by (try discriminate; left; discriminate).
  unfold on_stage. cbn [stage sinceStage].
  destruct (stage v).
  - destruct (Rge_dec _ 1); reflexivity.
  - reflexivity.
  - destruct (Rlt_dec _ 0); reflexivity.
Qed.

Lemma other_commands_ignored_witness :
  tick Xft (100 * Millisecond) Gamma.identity (Some (IsCmd 7%Z)) =
  tick Xft (100 * Millisecond) Gamma.identity None.
Proof.
  apply (other_commands_ignored Xft (100 * Millisecond)%Z Gamma.identity 7%Z).
  - discriminate.
  - discriminate.
  - left. discriminate.
Defined.

Lemma stage_never_goes_back_witness :
  exists v' r,
    tick (setStage Xft (100 * Millisecond) exit) (400 * Millisecond)
         Gamma.identity (Some (IsCmd Warble)) = Some (v', r) /\
    stage v' = exit.
Proof.
  pose proof (tick_shape (setStage Xft (100 * Millisecond) exit)
                (400 * Millisecond)%Z Gamma.identity (Some (IsCmd Warble))
                Warble eq_refl) as Htick.
  cbn zeta in Htick. do 2 eexists. split; [exact Htick|].
  apply (proj1 (stage_never_goes_back _ _ _ _ _ _ Htick)). reflexivity.
Defined.

(** **** The loop over the effects *)

Lemma builtin_only_since (t : Duration) (e : effect) :
  apply e = warble \/ apply e = strobe -> only_since t e.
Proof.
  intros [Ha|Ha] x; unfold expired; rewrite Ha.
  - unfold warble. destruct (_ >? _)%Z; [reflexivity|].
    now destruct (Modf _).
  - unfold strobe. now destruct (_ >? _)%Z.
Qed.

Lemma swap_remove (effs : list effect) (idx : nat) (e : effect) :
  effs !! idx = Some e ->
  let moved :=
    if (idx <? length effs - 1)%nat
    then <[idx := effs !!! (length effs - 1)%nat]> effs
    else effs in
  take idx (take (length effs - 1) moved) = take idx effs /\
  e :: take (length effs - 1) moved ≡ₚ effs.
Proof.
  intros He. pose proof (lookup_lt_Some _ _ _ He) as Hlt.
  pose proof (take_drop_middle effs idx e He) as Heq.
  assert (Hpre : length (take idx effs) = idx) by (rewrite length_take; lia).
  revert Heq Hpre.
  generalize (take idx effs) (drop (Datatypes.S idx) effs).
  intros pre post Heq Hpre. subst effs idx. clear He Hlt.
  rewrite length_app. cbn [length].
  induction post as [|z post' _] using rev_ind; cbn zeta.
  - cbn [length].
    replace (length pre <? length pre + 1 - 1)%nat with false
      by (symmetry; apply Nat.ltb_ge; lia).
    replace (length pre + 1 - 1)%nat with (length pre) by lia.
    rewrite take_app_length. split.
    + apply firstn_all.
    + rewrite (Permutation_app_comm pre [e]). reflexivity.
  - rewrite length_app. cbn [length].
    replace (length pre <? length pre + S (length post' + 1) - 1)%nat
      with true by (symmetry; apply Nat.ltb_lt; lia).
    assert (Hlast : (pre ++ e :: post' ++ [z]) !!!
                      (length pre + S (length post' + 1) - 1)%nat = z).
    { apply list_lookup_total_correct.
      change (pre ++ e :: post' ++ [z]) with (pre ++ (e :: post') ++ [z]).
      rewrite app_assoc. apply list_lookup_middle.
      rewrite length_app. cbn. lia. }
    rewrite Hlast.
    replace (<[length pre:=z]> (pre ++ e :: post' ++ [z]))
      with (pre ++ z :: post' ++ [z]).
    2:{ rewrite insert_app_r_alt by lia.
        replace (length pre - length pre)%nat with 0%nat by lia.
        reflexivity. }
    replace (length pre + S (length post' + 1) - 1)%nat
      with (length (pre ++ z :: post')) by (rewrite length_app; cbn; lia).
    replace (pre ++ z :: post' ++ [z]) with ((pre ++ z :: post') ++ [z])
      by (now rewrite <- app_assoc).
    rewrite take_app_length. split.
    + rewrite !take_app_length'; auto.
    + symmetry. etransitivity; [symmetry; apply Permutation_middle|].
      apply perm_skip, Permutation_app_head.
      symmetry. apply Permutation_cons_append.
Qed.
Lemma filter_all {A} (P : A -> Prop) `{forall x, Decision (P x)}
      (l : list A) :
  Forall P l -> filter P l = l.
Proof.
  induction 1 as [|x l Hx _ IH]; [reflexivity|].
  rewrite filter_cons_True by exact Hx. now rewrite IH.
Qed.

Lemma effects_loop_perm (t : Duration) (fuel : nat) :
  forall effs idx es sl,
    Forall (only_since t) effs ->
    (idx <= length effs)%nat -> (length effs - idx <= fuel)%nat ->
    Forall (fun e => expired t e = false) (take idx effs) ->
    (effects_loop fuel t effs idx es sl).1.1
      ≡ₚ filter (fun e => expired t e = false) effs.
Proof.
  induction fuel as [|fuel IH]; intros effs idx es sl Hos Hi Hf Hal;
    cbn [effects_loop].
  - cbn. rewrite take_ge in Hal by lia. now rewrite filter_all.
  - destruct (effs !! idx) as [e|] eqn:He.
    2:{ apply lookup_ge_None in He. cbn.
        rewrite take_ge in Hal by lia. now rewrite filter_all. }
    pose proof (lookup_lt_Some _ _ _ He) as Hlt.
    assert (Hoe : only_since t e) by (eapply Forall_lookup_1; eauto).
    specialize (Hoe es). destruct (apply e _ es) as [out done].
    cbn [snd] in Hoe. subst done.
    destruct (expired t e) eqn:Hex.
    + destruct (swap_remove effs idx e He) as [Htk Hperm]. cbn zeta in *.
      set (effs' := take (length effs - 1) _) in *.
      assert (Hlen : length effs' = (length effs - 1)%nat).
      { apply Permutation_length in Hperm. cbn in Hperm. lia. }
      rewrite IH.
      * transitivity (filter (fun e => expired t e = false) (e :: effs')).
        -- rewrite filter_cons_False by congruence. reflexivity.
        -- apply filter_Permutation. exact Hperm.
      * rewrite <- Hperm in Hos. now inversion Hos.
      * lia.
      * lia.
      * now rewrite Htk.
    + apply IH; [exact Hos|lia|lia|].
      rewrite (take_S_r _ _ _ He). apply Forall_app. split; [exact Hal|].
      now constructor.
Qed.

(** X20: with effects pushed by Warble and Strobe only, the effects after a
    tick are, up to their order, those that have not expired at t followed
    by the one this tick pushed; the new one is never dropped by the tick
    that pushed it. *)
Theorem tick_drops_expired (v : vars) (t : Duration) (b : Gamma.XferFn)
        (ev : option dynamic) (c : Cmd) v' r :
  read_cmd ev = Some c ->
  Forall (fun e => apply e = warble \/ apply e = strobe) (effects v) ->
  tick v t b ev = Some (v', r) ->
  let pushed :=
    if (c =? Warble)%Z then [mkEffect t warble]
    else if (c =? Strobe)%Z then [mkEffect t strobe] else [] in
  effects v' ≡ₚ filter (fun e => expired t e = false) (effects v) ++ pushed /\
  Forall (fun e => apply e = warble \/ apply e = strobe) (effects v').
Proof.
  intros Hc Hall Htick pushed.
  rewrite (tick_shape v t b ev c Hc) in Htick. cbn zeta in Htick.
  injection Htick as <- _. cbn [effects].
  assert (Hes : forall w, effects (on_stage w t).1.1 = effects w).
  { intros w. unfold on_stage. destruct (stage w); [|reflexivity|].
    - now destruct (Rge_dec _ 1).
    - now destruct (Rlt_dec _ 0). }
  assert (Hec : effects (on_cmd v t c) = effects v ++ pushed).
  { unfold on_cmd, pushed.
    destruct (c =? Warble)%Z; [reflexivity|].
    destruct (c =? Strobe)%Z; [reflexivity|].
    destruct (c =? Exit)%Z; [|cbn; now rewrite app_nil_r].
    cbn [stage]. destruct (stage v); cbn; now rewrite app_nil_r. }
  assert (Hnew : forall f, f = warble \/ f = strobe ->
                           expired t (mkEffect t f) = false).
  { intros f Hf. unfold expired, dsub. cbn [start apply].
    rewrite Z.sub_diag. change (wrap64 0) with 0%Z.
    destruct Hf as [-> | ->].
    - unfold warble. cbn [Z.gtb Z.compare]. now destruct (Modf _).
    - reflexivity. }
  assert (Hp : Forall (fun e => apply e = warble \/ apply e = strobe) pushed /\
               filter (fun e => expired t e = false) pushed = pushed).
  { unfold pushed. destruct (c =? Warble)%Z; [|destruct (c =? Strobe)%Z].
    - split; [constructor; [cbn; auto|constructor]|].
      apply filter_all. constructor; [apply Hnew; auto|constructor].
    - split; [constructor; [cbn; auto|constructor]|].
      apply filter_all. constructor; [apply Hnew; auto|constructor].
    - split; [constructor|reflexivity]. }
  destruct Hp as [Hp1 Hp2].
  rewrite Hes, Hec.
  assert (Hall' : Forall (fun e => apply e = warble \/ apply e = strobe)
                         (effects v ++ pushed))
    by (apply Forall_app; auto).
  assert (Hperm : (effects_loop (length (effects v ++ pushed)) t
                     (effects v ++ pushed) 0 0%R
                     (on_stage (on_cmd v t c) t).1.2).1.1
                  ≡ₚ filter (fun e => expired t e = false)
                       (effects v ++ pushed)).
  { apply effects_loop_perm; [|lia|lia|constructor].
    eapply Forall_impl; [exact Hall'|]. intros e.
    apply builtin_only_since. }
  split.
  - rewrite Hperm, filter_app, Hp2. reflexivity.
  - rewrite Hperm. apply Forall_forall. intros e He.
    apply list_elem_of_filter in He as [_ He].
    eapply Forall_forall in Hall'; eauto.
Qed.

Lemma tick_drops_expired_witness :
  exists v' r,
    tick (push Xft (mkEffect 0%Z warble)) (700 * Millisecond) Gamma.identity
         (Some (IsCmd Strobe)) = Some (v', r) /\
    (effects v' ≡ₚ [mkEffect (700 * Millisecond)%Z strobe]).
Proof.
  pose proof (tick_shape (push Xft (mkEffect 0%Z warble))
                (700 * Millisecond)%Z Gamma.identity (Some (IsCmd Strobe))
                Strobe eq_refl) as Htick.
  cbn zeta in Htick. do 2 eexists. split; [exact Htick|].
  assert (Hall : Forall (fun e => apply e = warble \/ apply e = strobe)
                        (effects (push Xft (mkEffect 0%Z warble))))
    by (constructor; [cbn; auto|constructor]).
  destruct (tick_drops_expired (push Xft (mkEffect 0%Z warble))
              (700 * Millisecond)%Z Gamma.identity (Some (IsCmd Strobe))
              Strobe _ _ eq_refl Hall Htick) as [Hp _].
  exact Hp.
Defined.

Lemma tick_in_range_witness :
  exists v' fn sleepFor exitFlag out,
    tick Xft 0 Gamma.identity None = Some (v', (fn, sleepFor, exitFlag)) /\
    steady v' 0%Z /\
    Gamma.call fn Gamma.Red (1 / 2) = Some out /\ (0 <= out <= 1)%R.
Proof.
  apply (tick_in_range Xft 0%Z Gamma.identity None noCmd Gamma.Red
           (1 / 2)%R (1 / 2)%R).
  - reflexivity.
  - split; vm_compute; [discriminate|reflexivity].
  - split; [split; vm_compute; discriminate|constructor].
  - intros (Hc & _). discriminate.
  - reflexivity.
  - lra.
Defined.

End AlertMore.

(** ** The animation loop *)

Ltac split_filter :=
  repeat (rewrite List.filter_app ||
          cbn [List.filter Animate.on_err_chan Animate.restoring app]).

Section AnimateFacts.
Import Animate.
Context {S E : Type}.
Implicit Types (o : options S E) (l : locals S E) (w : turn E).
Implicit Types (ws : list (turn E)) (tr : list action).
Implicit Types (ses : Gamma.Session).

(** *** The timer *)


(** The two outcomes of [GetLookupTable] on a session. *)
Lemma read_cases (c : option Gamma.Client) ses
      (a : option Gamma.XRRCrtcGamma) :
  (exists trx,
      Gamma.Session_GetLookupTable c ses a
        = Gamma.Done (Gamma.GetLookupTable a) trx /\
      Gamma.Client_check c = true /\ Gamma.crtcs ses <> []) \/
  Gamma.Session_GetLookupTable c ses a = Gamma.Panics [].
Proof.
  unfold Gamma.Session_GetLookupTable.
  destruct (Gamma.Client_check c); [|auto].
  destruct (Gamma.crtcs ses); [auto|]. left. eauto.
Qed.

(** The turn from the call of the driver on, when the write returns and
    the read after it succeeds. *)
Lemma drive_step o ses (anchor : Time) l w (d : S) (curFn : Gamma.XferFn)
      (sl : Duration) (ex : bool) (lut : Gamma.LookupTable)
      (trx : list Gamma.xcall) :
  xft o (driver l) (Time_Sub (xft_clock w) anchor) (baseFn l) (event l)
    = Some (d, (curFn, sl, ex)) ->
  Gamma.SetGamma_returns (cl o) ses curFn = true ->
  Gamma.Session_GetLookupTable (cl o) ses (after_gamma w)
    = Gamma.Done (lut, None) trx ->
  drive o ses anchor l w =
    let l' := mkLocals ex None (update_clock w) lut (baseFn l) None
                       (restore l) d in
    (match woken w with
     | Cancelled => Break l'
     | Received ev => Next (set_event l' ev)
     | TimerFired => Next l'
     end,
     [ActSetGamma InLoop curFn; ActGetLookupTable;
      ActTimerReset (wait o sl (update_clock w) (lastUpdate l))]).
Proof.
  intros Hx Hw Hr. unfold drive. rewrite Hx, Hw, Hr.
  destruct (woken w); reflexivity.
Qed.


(** Outside these bounds the subtraction can wrap: with an update interval
    of -2ns, the first turn (no update before it) arms the timer with
    2^63 - 1 nanoseconds. *)
Remark wait_wraps_below_zero o :
  updateInterval o = (-2)%Z ->
  wait o 0%Z now0 zeroTime = (2 ^ 63 - 1)%Z.
Proof. intros Hi. unfold wait. rewrite Hi. reflexivity. Qed.

(** *** What a turn and the loop leave behind *)

Lemma quiet_app tr1 tr2 : quiet tr1 -> quiet tr2 -> quiet (tr1 ++ tr2).
Proof.
  unfold quiet. intros [H1 H2] [H3 H4].
  now rewrite !List.filter_app, H1, H2, H3, H4.
Qed.

Lemma quiet_after_read (r : flow S E * list action) :
  quiet r.2 -> quiet (after_read r).2.
Proof. unfold quiet, after_read. cbn. auto. Qed.

Lemma set_err_same l : set_err l (err l) = l.
Proof. destruct l; reflexivity. Qed.

Lemma drive_ok o ses (anchor : Time) l w :
  flow_ok (restore l) w (drive o ses anchor l w).1 /\
  quiet (drive o ses anchor l w).2 /\
  forall l',
    (drive o ses anchor l w).1 = Next l' \/
    (drive o ses anchor l w).1 = Break l' ->
    baseFn l' = baseFn l /\ err l' <> Some ForeignCrtcUpdate.
Proof.
  unfold drive.
  destruct (xft o _ _ _ _) as [[d [[curFn sleepFor] ex]]|];
    [|split; [exact I|split; [split; reflexivity|]];
      intros l' [H|H]; discriminate].
  destruct (Gamma.SetGamma_returns _ _ _);
    [|split; [exact I|split; [split; reflexivity|]];
      intros l' [H|H]; discriminate].
  destruct (read_cases (cl o) ses (after_gamma w)) as [(trx & -> & _)| ->];
    [|split; [exact I|split; [split; reflexivity|]];
      intros l' [H|H]; discriminate].
  destruct (after_gamma w) as [gp|] eqn:Hg; cbn [Gamma.GetLookupTable].
  - destruct (woken w); cbn; (split; [|split; [split; reflexivity|]]).
    all: try (intros l' [H|H]; inversion H; subst; cbn;
              split; [reflexivity|discriminate]).
    + right. cbn. split; [discriminate|reflexivity].
    + repeat split; cbn; eauto.
    + repeat split; cbn; eauto.
  - cbn. split; [|split; [split; reflexivity|]].
    + right. cbn. split; [discriminate|reflexivity].
    + intros l' [H|H]; inversion H; subst; cbn;
        split; [reflexivity|discriminate].
Qed.

(** The turn after the read at the top has returned. *)
Lemma body_read o ses (anchor : Time) l w (g : Gamma.XRRCrtcGamma) :
  Gamma.Client_check (cl o) = true -> Gamma.crtcs ses <> [] ->
  err l = None -> top_gamma w = Some g ->
  body o ses anchor l w =
    let newLut := (Gamma.GetLookupTable (Some g)).1 in
    let derived := set_baseFn l (Gamma.LookupTable_XferFn newLut) in
    if Gamma.IsZero (oldLut l) then after_read (drive o ses anchor derived w)
    else if negb (Gamma.Equals newLut (oldLut l)) then
      if exitOnForeignUpdate o then
        (Break (set_restore (set_err l (Some ForeignCrtcUpdate)) false),
         [ActGetLookupTable])
      else after_read (drive o ses anchor derived w)
    else after_read (drive o ses anchor l w).
Proof.
  intros Hc Hs He Hg. unfold body.
  destruct (read_cases (cl o) ses (top_gamma w)) as [(trx & -> & _)|Hp].
  2:{ exfalso. revert Hp. unfold Gamma.Session_GetLookupTable. rewrite Hc.
      destruct (Gamma.crtcs ses); [contradiction|discriminate]. }
  rewrite Hg. cbn [Gamma.GetLookupTable].
  rewrite <- He, set_err_same. reflexivity.
Qed.

Lemma body_failed_read o ses (anchor : Time) l w :
  Gamma.Client_check (cl o) = true -> Gamma.crtcs ses <> [] ->
  top_gamma w = None ->
  body o ses anchor l w =
    (Break (set_err l (Some ErrGetCrtcGamma)), [ActGetLookupTable]).
Proof.
  intros Hc Hs Hg. unfold body.
  destruct (read_cases (cl o) ses (top_gamma w)) as [(trx & -> & _)|Hp].
  2:{ exfalso. revert Hp. unfold Gamma.Session_GetLookupTable. rewrite Hc.
      destruct (Gamma.crtcs ses); [contradiction|discriminate]. }
  now rewrite Hg.
Qed.

(** A turn that does not panic has read the table. *)
Lemma body_alive o ses (anchor : Time) l w l' tr :
  body o ses anchor l w = (Next l', tr) \/
  body o ses anchor l w = (Break l', tr) ->
  Gamma.Client_check (cl o) = true /\ Gamma.crtcs ses <> [].
Proof.
  unfold body.
  destruct (read_cases (cl o) ses (top_gamma w))
    as [(trx & _ & Hc & Hs)| ->]; [auto|].
  intros [H|H]; discriminate.
Qed.

Lemma body_ok o ses (anchor : Time) l w :
  err l = None ->
  flow_ok (restore l) w (body o ses anchor l w).1 /\
  quiet (body o ses anchor l w).2.
Proof.
  intros He. unfold body.
  destruct (read_cases (cl o) ses (top_gamma w)) as [(trx & -> & _)| ->];
    [|split; [exact I|split; reflexivity]].
  destruct (top_gamma w) as [g|]; cbn [Gamma.GetLookupTable].
  2:{ cbn. split; [|split; reflexivity].
      right. split; [discriminate|reflexivity]. }
  rewrite <- He, set_err_same.
  set (base' := set_baseFn l _).
  destruct (Gamma.IsZero (oldLut l)).
  { destruct (drive_ok o ses anchor base' w) as (H1 & H2 & _).
    split; [exact H1|]. now apply quiet_after_read. }
  destruct (negb _).
  - destruct (exitOnForeignUpdate o).
    + cbn. split; [|split; reflexivity]. left. split; reflexivity.
    + destruct (drive_ok o ses anchor base' w) as (H1 & H2 & _).
      split; [exact H1|]. now apply quiet_after_read.
  - destruct (drive_ok o ses anchor l w) as (H1 & H2 & _).
    split; [exact H1|]. now apply quiet_after_read.
Qed.

Lemma loop_ok o ses (anchor : Time) ws : forall l,
  err l = None ->
  quiet (loop o ses anchor l ws).2 /\
  match (loop o ses anchor l ws).1 with
  | Broke l' => broke_ok (restore l) l'
  | Starved l' => err l' = None /\ exit l' = false /\ restore l' = restore l
  | Crashed => True
  end.
Proof.
  induction ws as [|w ws IH]; intros l He; cbn [loop].
  - destruct (exit l) eqn:Hex; cbn.
    + split; [split; reflexivity|]. right. rewrite He.
      split; [discriminate|reflexivity].
    + split; [split; reflexivity|]. auto.
  - destruct (exit l) eqn:Hex; cbn.
    { split; [split; reflexivity|]. right. rewrite He.
      split; [discriminate|reflexivity]. }
    destruct (body_ok o ses anchor l w He) as [Hf Hq].
    destruct (body o ses anchor l w) as [[l'|l'|] tr]; cbn in Hf, Hq |- *.
    + destruct Hf as (He' & Hr & _).
      destruct (IH l' He') as [Hq' Hs].
      destruct (loop o ses anchor l' ws) as [s tr']. cbn in *.
      split; [now apply quiet_app|]. rewrite <- Hr. exact Hs.
    + auto.
    + auto.
Qed.

Lemma loop_app o ses (anchor : Time) ws1 ws2 : forall l l1 tr1,
  loop o ses anchor l ws1 = (Starved l1, tr1) ->
  loop o ses anchor l (ws1 ++ ws2) =
    ((loop o ses anchor l1 ws2).1, tr1 ++ (loop o ses anchor l1 ws2).2).
Proof.
  induction ws1 as [|w ws1 IH]; intros l l1 tr1; cbn [loop app].
  - destruct (exit l) eqn:Hex; [discriminate|].
    intros H; inversion H; subst. cbn.
    now destruct (loop o ses anchor l1 ws2).
  - destruct (exit l); [discriminate|].
    destruct (body o ses anchor l w) as [[l'|l'|] tr]; [|discriminate..].
    destruct (loop o ses anchor l' ws1) as [s tr'] eqn:Hl.
    intros H; inversion H; subst.
    rewrite (IH _ _ _ Hl). cbn. now rewrite app_assoc.
Qed.

Lemma loop_snoc o ses (anchor : Time) ws : forall l wp l' tr,
  loop o ses anchor l (ws ++ [wp]) = (Starved l', tr) ->
  exists l0 tr0 tr1,
    loop o ses anchor l ws = (Starved l0, tr0) /\
    body o ses anchor l0 wp = (Next l', tr1) /\
    tr = tr0 ++ tr1 /\ exit l' = false.
Proof.
  induction ws as [|w ws IH]; intros l wp l' tr; cbn [loop app].
  - destruct (exit l) eqn:Hex; [discriminate|].
    destruct (body o ses anchor l wp) as [[l1|l1|] tr1] eqn:Hb;
      [|discriminate..].
    destruct (exit l1) eqn:Hex1; [discriminate|].
    intros H; inversion H; subst.
    exists l, [], tr1. rewrite app_nil_r. auto.
  - destruct (exit l) eqn:Hex; [discriminate|].
    destruct (body o ses anchor l w) as [[l1|l1|] tr1] eqn:Hb;
      [|discriminate..].
    destruct (loop o ses anchor l1 (ws ++ [wp])) as [s tr'] eqn:Hl.
    intros H; inversion H; subst.
    destruct (IH _ _ _ _ Hl) as (l0 & tr0 & tr2 & Hl0 & Hb' & -> & Hex').
    rewrite Hl0. exists l0, (tr1 ++ tr0), tr2. rewrite app_assoc. auto.
Qed.

Lemma loop_next o ses (anchor : Time) l l' w ws tr :
  exit l = false ->
  body o ses anchor l w = (Next l', tr) ->
  loop o ses anchor l (w :: ws) =
    ((loop o ses anchor l' ws).1, tr ++ (loop o ses anchor l' ws).2).
Proof.
  intros Hex Hb. cbn [loop]. rewrite Hex, Hb.
  now destruct (loop o ses anchor l' ws).
Qed.

Lemma loop_broke o ses (anchor : Time) l l' w ws tr :
  exit l = false ->
  body o ses anchor l w = (Break l', tr) ->
  loop o ses anchor l (w :: ws) = (Broke l', tr).
Proof. intros Hex Hb. cbn [loop]. now rewrite Hex, Hb. Qed.

Lemma loop_exit o ses (anchor : Time) l ws :
  exit l = true -> loop o ses anchor l ws = (Broke l, []).
Proof. intros Hex. destruct ws; cbn [loop]; now rewrite Hex. Qed.

Lemma animate_loop o (init : S) (w0 : world E) :
  Gamma.Client_check (cl o) = true -> new_session w0 = None ->
  animate o init w0 =
    match loop o (session w0) (anchor_of o w0) (start o init) (turns w0) with
    | (Broke l, tr) => leave o (session w0) l (ActNewSession :: tr)
    | (Crashed, tr) => Panicked (ActNewSession :: tr)
    | (Starved _, tr) => Running (ActNewSession :: tr)
    end.
Proof. intros Hc Hn. unfold animate. now rewrite Hc, Hn. Qed.

Lemma filter_bail_chan (e : option error) :
  List.filter on_err_chan (bail e) = bail e.
Proof. destruct e; reflexivity. Qed.

Lemma filter_bail_restoring (e : option error) :
  List.filter restoring (bail e) = [].
Proof. destruct e; reflexivity. Qed.

(** *** The error channel *)

(** What the code does on the error channel whenever the goroutine
    returns: it sends the error when there is one, sends nothing when there
    is none, and closes the channel. *)
Lemma termination_signal o (init : S) (w0 : world E) e tr :
  animate o init w0 = Returned e tr ->
  List.filter on_err_chan tr =
    match e with
    | Some e => [ActSend e; ActClose]
    | None => [ActClose]
    end.
Proof.
  unfold animate. destruct (Gamma.Client_check (cl o)); [|discriminate].
  destruct (new_session w0) as [f|].
  { intros H; inversion H; subst. reflexivity. }
  assert (Hs : err (start o init) = None) by reflexivity.
  destruct (loop_ok o (session w0) (anchor_of o w0) (turns w0) _ Hs)
    as [[Hq _] _].
  destruct (loop _ _ _ _ _) as [[l| |l] tr0]; cbn in Hq; [|discriminate..].
  unfold leave. destruct (restore l).
  - destruct (Gamma.SetGamma_returns _ _ _); [|discriminate].
    intros H; inversion H; subst.
    split_filter. rewrite Hq, filter_bail_chan. cbn.
    destruct (err l); reflexivity.
  - intros H; inversion H; subst.
    split_filter. rewrite Hq, filter_bail_chan. cbn.
    destruct (err l); reflexivity.
Qed.

(** *** The write after the loop *)

(** What is written back is the baseline that the loop left. *)
Lemma leave_restores_baseline o ses l tr e tr' :
  quiet tr -> leave o ses l tr = Returned e tr' ->
  e = err l /\
  List.filter restoring tr' =
    if restore l then [ActSetGamma OnExit (baseFn l)] else [].
Proof.
  intros [_ Hq]. unfold leave. destruct (restore l).
  - destruct (Gamma.SetGamma_returns _ _ _); [|discriminate].
    intros H; inversion H; subst. split; [reflexivity|].
    split_filter. now rewrite Hq, filter_bail_restoring.
  - intros H; inversion H; subst. split; [reflexivity|].
    split_filter. now rewrite Hq, filter_bail_restoring.
Qed.

(** C3, as the code has it: when the goroutine returns, the trace holds
    one restoring write if the session was opened, restoreOnExit was set
    and the error is not ForeignCrtcUpdate, and none otherwise.  A failed
    read is no obstacle: the baseline is written back all the same. *)
Theorem restoring_write o (init : S) (w0 : world E) e tr :
  animate o init w0 = Returned e tr ->
  let restored := List.length (List.filter restoring tr) in
  (new_session w0 = None /\ restoreOnExit o = true /\
   e <> Some ForeignCrtcUpdate -> restored = 1%nat) /\
  (new_session w0 <> None \/ restoreOnExit o = false \/
   e = Some ForeignCrtcUpdate -> restored = 0%nat).
Proof.
  unfold animate. destruct (Gamma.Client_check (cl o)); [|discriminate].
  destruct (new_session w0) as [f|].
  { intros H; inversion H; subst. cbn. split.
    - intros [Hn _]. discriminate.
    - reflexivity. }
  assert (Hs : err (start o init) = None) by reflexivity.
  destruct (loop_ok o (session w0) (anchor_of o w0) (turns w0) _ Hs)
    as [[_ Hq] Hb].
  destruct (loop _ _ _ _ _) as [[l| |l] tr0]; cbn in Hq, Hb;
    [|discriminate..].
  change (restore (start o init)) with (restoreOnExit o) in Hb.
  unfold leave. destruct (restore l) eqn:Hr.
  - destruct (Gamma.SetGamma_returns _ _ _); [|discriminate].
    intros H; inversion H; subst. cbn zeta.
    split_filter. rewrite Hq, filter_bail_restoring. cbn.
    destruct Hb as [[_ Hb]|[Hne Hb]]; [congruence|].
    split; [reflexivity|]. intros [Hn|[Hn|Hn]]; congruence.
  - intros H; inversion H; subst. cbn zeta.
    split_filter. rewrite Hq, filter_bail_restoring. cbn.
    split; [|reflexivity]. intros (_ & Hro & Hne).
    destruct Hb as [[Hb _]|[_ Hb]]; congruence.
Qed.

(** *** Foreign updates *)

(** C1: the loop has run the turns [ws ++ [wp]] and is about to read the
    table for the next turn [w].  The table it kept is the one read after
    the write of [wp].  If the table read now differs from it, then with
    exitOnForeignUpdate the goroutine returns after sending
    ForeignCrtcUpdate, and without it the turn goes on to the driver with
    the function derived from the new table as baseline.  If the two tables
    are equal, the turn goes on with the baseline it had, and no
    ForeignCrtcUpdate is raised. *)
Theorem foreign_update o (init : S) (w0 : world E) ws (wp w : turn E)
        (rest : list (turn E)) l tr (g : Gamma.XRRCrtcGamma) :
  new_session w0 = None ->
  turns w0 = ws ++ wp :: w :: rest ->
  loop o (session w0) (anchor_of o w0) (start o init) (ws ++ [wp])
    = (Starved l, tr) ->
  top_gamma w = Some g ->
  let newLut := (Gamma.GetLookupTable (Some g)).1 in
  let derived := Gamma.LookupTable_XferFn newLut in
  let turn_ := body o (session w0) (anchor_of o w0) l w in
  exists gp,
    after_gamma wp = Some gp /\
    oldLut l = (Gamma.GetLookupTable (Some gp)).1 /\
    (Gamma.Equals newLut (oldLut l) = false ->
     exitOnForeignUpdate o = true ->
     animate o init w0 =
       Returned (Some ForeignCrtcUpdate)
         (ActNewSession :: tr ++
            [ActGetLookupTable; ActSend ForeignCrtcUpdate; ActClose;
             ActSessionClose])) /\
    (Gamma.Equals newLut (oldLut l) = false ->
     exitOnForeignUpdate o = false ->
     turn_ = after_read (drive o (session w0) (anchor_of o w0)
                           (set_baseFn l derived) w) /\
     forall l', turn_.1 = Next l' \/ turn_.1 = Break l' ->
                baseFn l' = derived /\ err l' <> Some ForeignCrtcUpdate) /\
    (Gamma.Equals newLut (oldLut l) = true ->
     turn_ = after_read (drive o (session w0) (anchor_of o w0) l w) /\
     forall l', turn_.1 = Next l' \/ turn_.1 = Break l' ->
                baseFn l' = baseFn l /\ err l' <> Some ForeignCrtcUpdate).
Proof.
  intros Hns Hturns Hloop Hg newLut derived turn_.
  destruct (loop_snoc _ _ _ _ _ _ _ _ Hloop)
    as (l0 & tr0 & tr1 & Hl0 & Hb & -> & Hex).
  assert (He0 : err l0 = None).
  { pose proof (loop_ok o (session w0) (anchor_of o w0) ws (start o init)
                  eq_refl) as [_ H].
    rewrite Hl0 in H. apply H. }
  destruct (body_alive _ _ _ _ _ _ _ (or_introl Hb)) as [Hc Hs].
  pose proof (body_ok o (session w0) (anchor_of o w0) l0 wp He0) as [Hf _].
  rewrite Hb in Hf. destruct Hf as (He & _ & gp & Hgp & Hold).
  exists gp. split; [exact Hgp|]. split; [exact Hold|].
  assert (Hnz : Gamma.IsZero (oldLut l) = false)
    by (rewrite Hold; reflexivity).
  assert (Hbody : turn_ =
    if negb (Gamma.Equals newLut (oldLut l)) then
      if exitOnForeignUpdate o then
        (Break (set_restore (set_err l (Some ForeignCrtcUpdate)) false),
         [ActGetLookupTable])
      else after_read (drive o (session w0) (anchor_of o w0)
                         (set_baseFn l derived) w)
    else after_read (drive o (session w0) (anchor_of o w0) l w)).
  { unfold turn_. rewrite (body_read o _ _ l w g Hc Hs He Hg). cbn zeta.
    rewrite Hnz. reflexivity. }
  split; [|split].
  - intros Hne Hpol. unfold animate. rewrite Hc, Hns, Hturns.
    replace (ws ++ wp :: w :: rest) with ((ws ++ [wp]) ++ w :: rest)
      by (now rewrite <- app_assoc).
    rewrite (loop_app _ _ _ _ _ _ _ _ Hloop). cbn [loop]. rewrite Hex.
    fold turn_. rewrite Hbody, Hne, Hpol. cbn.
    rewrite <- !app_assoc. reflexivity.
  - intros Hne Hpol. rewrite Hbody, Hne, Hpol. cbn [negb].
    split; [reflexivity|].
    intros l' Hl'. cbn in Hl'.
    now apply (drive_ok o (session w0) (anchor_of o w0)
                 (set_baseFn l derived) w).
  - intros Heq. rewrite Hbody, Heq. cbn [negb]. split; [reflexivity|].
    intros l' Hl'. cbn in Hl'.
    now apply (drive_ok o (session w0) (anchor_of o w0) l w).
Qed.

(** *** A turn that runs to the select *)

(** The whole turn when both reads succeed, no foreign update stops the
    loop, and the write of the driver's function returns. *)
Lemma body_step o ses (anchor : Time) l w (g g' : Gamma.XRRCrtcGamma)
      (d : S) (curFn : Gamma.XferFn) (sl : Duration) (ex : bool) :
  Gamma.Client_check (cl o) = true -> Gamma.crtcs ses <> [] ->
  err l = None ->
  top_gamma w = Some g -> after_gamma w = Some g' ->
  let newLut := (Gamma.GetLookupTable (Some g)).1 in
  let foreign_ :=
    Gamma.IsZero (oldLut l) || negb (Gamma.Equals newLut (oldLut l)) in
  let base :=
    if foreign_ then Gamma.LookupTable_XferFn newLut else baseFn l in
  (Gamma.IsZero (oldLut l) = false -> foreign_ = true ->
   exitOnForeignUpdate o = false) ->
  xft o (driver l) (Time_Sub (xft_clock w) anchor) base (event l)
    = Some (d, (curFn, sl, ex)) ->
  Gamma.SetGamma_returns (cl o) ses curFn = true ->
  body o ses anchor l w =
    let l' := mkLocals ex None (update_clock w)
                       (Gamma.GetLookupTable (Some g')).1 base None
                       (restore l) d in
    (match woken w with
     | Cancelled => Break l'
     | Received ev => Next (set_event l' ev)
     | TimerFired => Next l'
     end,
     [ActGetLookupTable; ActSetGamma InLoop curFn; ActGetLookupTable;
      ActTimerReset (wait o sl (update_clock w) (lastUpdate l))]).
Proof.
  intros Hc Hs He Hg Hg' newLut foreign_ base Hpol Hx Hw.
  set (lb := set_baseFn l base).
  assert (Hbody : body o ses anchor l w
                  = after_read (drive o ses anchor lb w)).
  { rewrite (body_read o ses anchor l w g Hc Hs He Hg). cbn zeta.
    fold newLut. unfold lb, base, foreign_ in *.
    destruct (Gamma.IsZero (oldLut l)) eqn:Hz; cbn [orb] in *;
      [reflexivity|].
    destruct (Gamma.Equals newLut (oldLut l)); cbn [negb] in *.
    - now destruct l.
    - now rewrite (Hpol eq_refl eq_refl). }
  destruct (read_cases (cl o) ses (after_gamma w))
    as [(trx & Hr & _)|Hp].
  2:{ exfalso. revert Hp. unfold Gamma.Session_GetLookupTable. rewrite Hc.
      destruct (Gamma.crtcs ses); [contradiction|discriminate]. }
  rewrite Hg' in Hr at 2. cbn [Gamma.GetLookupTable] in Hr.
  rewrite Hbody.
  rewrite (drive_step o ses anchor lb w d curFn sl ex _ trx Hx Hw Hr).
  unfold after_read. cbn. destruct (woken w); reflexivity.
Qed.

(** The whole turn when the read after the write fails. *)
Lemma body_step_failed o ses (anchor : Time) l w (g : Gamma.XRRCrtcGamma)
      (d : S) (curFn : Gamma.XferFn) (sl : Duration) (ex : bool) :
  Gamma.Client_check (cl o) = true -> Gamma.crtcs ses <> [] ->
  err l = None ->
  top_gamma w = Some g -> after_gamma w = None ->
  let newLut := (Gamma.GetLookupTable (Some g)).1 in
  let foreign_ :=
    Gamma.IsZero (oldLut l) || negb (Gamma.Equals newLut (oldLut l)) in
  let base :=
    if foreign_ then Gamma.LookupTable_XferFn newLut else baseFn l in
  (Gamma.IsZero (oldLut l) = false -> foreign_ = true ->
   exitOnForeignUpdate o = false) ->
  xft o (driver l) (Time_Sub (xft_clock w) anchor) base (event l)
    = Some (d, (curFn, sl, ex)) ->
  Gamma.SetGamma_returns (cl o) ses curFn = true ->
  body o ses anchor l w =
    (Break (mkLocals ex (Some ErrGetCrtcGamma) (lastUpdate l)
                     Gamma.zeroLookupTable base (event l) (restore l) d),
     [ActGetLookupTable; ActSetGamma InLoop curFn; ActGetLookupTable]).
Proof.
  intros Hc Hs He Hg Hg' newLut foreign_ base Hpol Hx Hw.
  set (lb := set_baseFn l base).
  assert (Hbody : body o ses anchor l w
                  = after_read (drive o ses anchor lb w)).
  { rewrite (body_read o ses anchor l w g Hc Hs He Hg). cbn zeta.
    fold newLut. unfold lb, base, foreign_ in *.
    destruct (Gamma.IsZero (oldLut l)) eqn:Hz; cbn [orb] in *;
      [reflexivity|].
    destruct (Gamma.Equals newLut (oldLut l)); cbn [negb] in *.
    - now destruct l.
    - now rewrite (Hpol eq_refl eq_refl). }
  destruct (read_cases (cl o) ses (after_gamma w))
    as [(trx & Hr & _)|Hp].
  2:{ exfalso. revert Hp. unfold Gamma.Session_GetLookupTable. rewrite Hc.
      destruct (Gamma.crtcs ses); [contradiction|discriminate]. }
  rewrite Hg' in Hr at 2. cbn [Gamma.GetLookupTable] in Hr.
  rewrite Hbody. unfold after_read, drive.
  change (baseFn lb) with base. change (driver lb) with (driver l).
  change (event lb) with (event l).
  rewrite Hx, Hw, Hr. reflexivity.
Qed.

End AnimateFacts.

(** ** Sample runs of the loop *)

Section AnimateRuns.
Import Animate.

(** The session of the sample runs accepts every function that does not
    panic below 1. *)
Lemma session4_returns (fn : Gamma.XferFn) :
  Gamma.total_below_1 fn ->
  Gamma.SetGamma_returns client0 session4 fn = true.
Proof.
  apply SetGamma_returns_total; [reflexivity|].
  repeat constructor. eexists; reflexivity.
Qed.

Lemma total_lut4 : Gamma.total_below_1 (Gamma.LookupTable_XferFn Gamma.lut4).
Proof. apply (total_read_table Gamma.gamma4); discriminate. Qed.

Lemma total_dimmed (b : Gamma.XferFn) :
  Gamma.total_below_1 b ->
  Gamma.total_below_1 (Gamma.Mul b (Gamma.DimFn 0.5)).
Proof. intros Hb. apply total_Mul; [exact Hb|apply total_DimFn]. Qed.

Lemma total_render (v : Alert.vars) (b : Gamma.XferFn) :
  Gamma.total_below_1 b -> Gamma.total_below_1 (Some (Alert.render v b)).
Proof.
  intros Hb ch x Hx. cbn. unfold Alert.render.
  destruct (Hb ch x Hx) as [y ->]. cbn. eauto.
Qed.

(** The run in which [blink] asks to exit in the first turn. *)
Lemma clean_exit_run :
  animate blinking tt clean_exit =
    Returned None
      [ActNewSession; ActGetLookupTable;
       ActSetGamma InLoop
         (Gamma.Mul (Gamma.LookupTable_XferFn Gamma.lut4) (Gamma.DimFn 0.5));
       ActGetLookupTable; ActTimerReset Second;
       ActSetGamma OnExit (Gamma.LookupTable_XferFn Gamma.lut4);
       ActClose; ActSessionClose].
Proof.
  set (w := mkTurn (Some Gamma.gamma4) (now0 + 6 * Second)%Z
                   (Some Gamma.gamma4) (now0 + 6 * Second + Millisecond)%Z
                   (@TimerFired unit)).
  assert (Hne : Gamma.crtcs session4 <> []) by discriminate.
  pose proof (body_step blinking session4 (anchor_of blinking clean_exit)
                (start blinking tt) w Gamma.gamma4 Gamma.gamma4 tt
                (Gamma.Mul (Gamma.LookupTable_XferFn Gamma.lut4)
                           (Gamma.DimFn 0.5))
                Second true eq_refl Hne eq_refl eq_refl eq_refl
                (fun H _ => False_ind _ (diff_true_false H)) eq_refl
                (session4_returns _ (total_dimmed _ total_lut4))) as Hb.
  cbn zeta in Hb. change (woken w) with (@TimerFired unit) in Hb.
  cbv iota in Hb.
  rewrite animate_loop by reflexivity.
  change (turns clean_exit) with [w].
  change (session clean_exit) with session4.
  rewrite (loop_next blinking session4 _ (start blinking tt) _ w [] _
             eq_refl Hb).
  rewrite loop_exit by reflexivity. cbn [fst snd app].
  unfold leave. cbn [restore baseFn].
  change (restoreOnExit blinking) with true. cbv iota.
  change (Gamma.IsZero _ || _) with true. cbv iota.
  change ((Gamma.GetLookupTable (Some Gamma.gamma4)).1) with Gamma.lut4.
  change (cl blinking) with client0.
  rewrite (session4_returns _ total_lut4). reflexivity.
Qed.

(** C2: [blink] asks to exit in the first turn and nothing fails.  The
    goroutine returns without an error, and all it does on the error
    channel is to close it: no value is sent. *)
Theorem clean_exit_sends_nothing :
  exists tr,
    animate blinking tt clean_exit = Returned None tr /\
    List.filter on_err_chan tr = [ActClose].
Proof. eexists. split; [apply clean_exit_run|reflexivity]. Qed.

(** The run in which the read after the first write fails. *)
Lemma failed_read_run :
  animate blinking tt failed_read =
    Returned (Some ErrGetCrtcGamma)
      [ActNewSession; ActGetLookupTable;
       ActSetGamma InLoop
         (Gamma.Mul (Gamma.LookupTable_XferFn Gamma.lut4) (Gamma.DimFn 0.5));
       ActGetLookupTable;
       ActSetGamma OnExit (Gamma.LookupTable_XferFn Gamma.lut4);
       ActSend ErrGetCrtcGamma; ActClose; ActSessionClose].
Proof.
  set (w := mkTurn (Some Gamma.gamma4) (now0 + Millisecond)%Z
                   None (now0 + 2 * Millisecond)%Z (@TimerFired unit)).
  assert (Hne : Gamma.crtcs session4 <> []) by discriminate.
  pose proof (body_step_failed blinking session4
                (anchor_of blinking failed_read)
                (start blinking tt) w Gamma.gamma4 tt
                (Gamma.Mul (Gamma.LookupTable_XferFn Gamma.lut4)
                           (Gamma.DimFn 0.5))
                (999 * Millisecond)%Z false eq_refl Hne eq_refl eq_refl
                eq_refl
                (fun H _ => False_ind _ (diff_true_false H)) eq_refl
                (session4_returns _ (total_dimmed _ total_lut4))) as Hb.
  cbn zeta in Hb.
  rewrite animate_loop by reflexivity.
  change (turns failed_read) with [w].
  change (session failed_read) with session4.
  rewrite (loop_broke blinking session4 _ (start blinking tt) _ w [] _
             eq_refl Hb).
  unfold leave. cbn [restore baseFn err].
  change (Gamma.IsZero _ || _) with true. cbv iota.
  change ((Gamma.GetLookupTable (Some Gamma.gamma4)).1) with Gamma.lut4.
  change (cl blinking) with client0.
  rewrite (session4_returns _ total_lut4). reflexivity.
Qed.

Lemma termination_signal_failed_read :
  exists tr,
    animate blinking tt failed_read = Returned (Some ErrGetCrtcGamma) tr /\
    List.filter on_err_chan tr = [ActSend ErrGetCrtcGamma; ActClose].
Proof.
  eexists. split; [apply failed_read_run|].
  apply (termination_signal blinking tt failed_read (Some ErrGetCrtcGamma)).
  apply failed_read_run.
Qed.

(** C3, as stated, fails: the read after the first write fails, the
    goroutine returns that error, and the baseline was written back. *)
Lemma failed_read_restores :
  exists tr,
    animate blinking tt failed_read = Returned (Some ErrGetCrtcGamma) tr /\
    List.length (List.filter restoring tr) = 1%nat.
Proof. eexists. split; [apply failed_read_run|reflexivity]. Qed.

(** When the very first read fails, baseFn is still nil: the restoring
    write panics in SetGamma and nothing reaches the error channel. *)
Remark failed_first_read_panics :
  animate blinking tt failed_first_read
    = Panicked [ActNewSession; ActGetLookupTable].
Proof.
  set (w := mkTurn None (now0 + Millisecond)%Z (Some Gamma.gamma4)
                   (now0 + 2 * Millisecond)%Z (@TimerFired unit)).
  assert (Hne : Gamma.crtcs session4 <> []) by discriminate.
  pose proof (body_failed_read blinking session4
                (anchor_of blinking failed_first_read)
                (start blinking tt) w eq_refl Hne eq_refl) as Hb.
  rewrite animate_loop by reflexivity.
  change (turns failed_first_read) with [w].
  change (session failed_first_read) with session4.
  rewrite (loop_broke blinking session4 _ (start blinking tt) _ w [] _
             eq_refl Hb).
  unfold leave. cbn [restore baseFn set_err start].
  change (restoreOnExit blinking) with true. cbv iota.
  change (cl blinking) with client0.
  now rewrite (SetGamma_returns_nil client0 session4 _ [] eq_refl eq_refl).
Qed.

Lemma restoring_write_witness :
  exists tr,
    animate blinking tt clean_exit = Returned None tr /\
    List.length (List.filter restoring tr) = 1%nat.
Proof.
  eexists. split; [apply clean_exit_run|].
  apply (restoring_write blinking tt clean_exit None);
    [apply clean_exit_run|].
  repeat split; discriminate.
Defined.

(** The first turn of the run [foreign]. *)
Lemma foreign_first_turn :
  loop blinking session4 (anchor_of blinking foreign) (start blinking tt)
       [turn1] =
    (Starved (mkLocals false None (now0 + 2 * Millisecond)%Z Gamma.lut4
                       (Gamma.LookupTable_XferFn Gamma.lut4) None true tt),
     [ActGetLookupTable;
      ActSetGamma InLoop
        (Gamma.Mul (Gamma.LookupTable_XferFn Gamma.lut4) (Gamma.DimFn 0.5));
      ActGetLookupTable; ActTimerReset (999 * Millisecond)%Z]).
Proof.
  assert (Hne : Gamma.crtcs session4 <> []) by discriminate.
  pose proof (body_step blinking session4 (anchor_of blinking foreign)
                (start blinking tt) turn1 Gamma.gamma4 Gamma.gamma4 tt
                (Gamma.Mul (Gamma.LookupTable_XferFn Gamma.lut4)
                           (Gamma.DimFn 0.5))
                (999 * Millisecond)%Z false eq_refl Hne eq_refl eq_refl
                eq_refl
                (fun H _ => False_ind _ (diff_true_false H)) eq_refl
                (session4_returns _ (total_dimmed _ total_lut4))) as Hb.
  cbn zeta in Hb. change (woken turn1) with (@TimerFired unit) in Hb.
  cbv iota in Hb.
  rewrite (loop_next blinking session4 _ (start blinking tt) _ turn1 [] _
             eq_refl Hb).
  reflexivity.
Qed.

Lemma foreign_update_witness :
  exists tr,
    animate blinking tt foreign = Returned (Some ForeignCrtcUpdate) tr.
Proof.
  destruct (foreign_update blinking tt foreign [] turn1 turn2 []
              _ _ Gamma.dim4 eq_refl eq_refl foreign_first_turn eq_refl)
    as (gp & _ & _ & Hexit & _).
  eexists. apply Hexit; reflexivity.
Defined.



(** The alert driver under the loop, on a device that holds [gamma4]: the
    command Exit is received after the first turn and the second turn comes
    1500ms later.  The second write hands the device a function that maps
    the red input 0 to 6/5. *)
Lemma stalled_run :
  let base := Gamma.LookupTable_XferFn Gamma.lut4 in
  animate alert Alert.Xft stalled =
    Running
      [ActNewSession;
       ActGetLookupTable;
       ActSetGamma InLoop (Some (Alert.render Alert.after_first base));
       ActGetLookupTable; ActTimerReset 0%Z;
       ActGetLookupTable;
       ActSetGamma InLoop (Some (Alert.render Alert.after_late_exit base));
       ActGetLookupTable; ActTimerReset 0%Z] /\
  Alert.render Alert.after_late_exit base Gamma.Red 0%R = Some (6 / 5)%R.
Proof.
  intros base. split.
  - set (wA := mkTurn (Some Gamma.gamma4) now0 (Some Gamma.gamma4)
                      (now0 + Millisecond)%Z
                      (Received (Some (Alert.IsCmd Alert.Exit)))).
    set (wB := mkTurn (Some Gamma.gamma4) (now0 + 1500 * Millisecond)%Z
                      (Some Gamma.gamma4) (now0 + 1501 * Millisecond)%Z
                      (@TimerFired Alert.dynamic)).
    set (lA := mkLocals false None (now0 + Millisecond)%Z Gamma.lut4 base
                        (Some (Alert.IsCmd Alert.Exit)) true
                        Alert.after_first).
    set (lB := mkLocals false None (now0 + 1501 * Millisecond)%Z Gamma.lut4
                        base (None : option Alert.dynamic) true
                        Alert.after_late_exit).
    assert (Hne : Gamma.crtcs session4 <> []) by discriminate.
    assert (HA : body alert session4 now0 (start alert Alert.Xft) wA =
                 (Next lA,
                  [ActGetLookupTable;
                   ActSetGamma InLoop
                     (Some (Alert.render Alert.after_first base));
                   ActGetLookupTable; ActTimerReset 0%Z])).
    { rewrite (body_step alert session4 now0 (start alert Alert.Xft) wA
                 Gamma.gamma4 Gamma.gamma4 Alert.after_first
                 (Some (Alert.render Alert.after_first base)) 0%Z false
                 eq_refl Hne eq_refl eq_refl eq_refl
                 (fun H _ => False_ind _ (diff_true_false H))
                 (tick_first _)
                 (session4_returns _ (total_render _ _ total_lut4))).
      reflexivity. }
    assert (HB : body alert session4 now0 lA wB =
                 (Next lB,
                  [ActGetLookupTable;
                   ActSetGamma InLoop
                     (Some (Alert.render Alert.after_late_exit base));
                   ActGetLookupTable; ActTimerReset 0%Z])).
    { rewrite (body_step alert session4 now0 lA wB
                 Gamma.gamma4 Gamma.gamma4 Alert.after_late_exit
                 (Some (Alert.render Alert.after_late_exit base)) 0%Z false
                 eq_refl Hne eq_refl eq_refl eq_refl
                 (fun _ (H : false || negb true = true) =>
                    False_ind _ (diff_false_true H))
                 (tick_late _)
                 (session4_returns _ (total_render _ _ total_lut4))).
      reflexivity. }
    rewrite animate_loop by reflexivity.
    change (turns stalled) with [wA; wB].
    change (session stalled) with session4.
    change (anchor_of alert stalled) with now0.
    rewrite (loop_next alert session4 now0 (start alert Alert.Xft) lA wA [wB]
               _ eq_refl HA).
    rewrite (loop_next alert session4 now0 lA lB wB [] _ eq_refl HB).
    reflexivity.
  - apply render_after_late_exit.
    pose proof (XferFn_of_read_table Gamma.gamma4 Gamma.Red 0%R (Rle_refl 0%R))
      as Hbase.
    cbn zeta in Hbase. fold Gamma.lut4 in Hbase. fold base in Hbase.
    rewrite Hbase, Rmult_0_l.
    replace (Zfloor 0) with 0%Z by (symmetry; apply (ZfloorZ 0)).
    simpl. f_equal. unfold float64_of_int. lra.
Qed.

End AnimateRuns.

(** ** Runs of the animation loop *)

Section AnimateMore.
Import Animate.
Context {S E : Type}.
Implicit Types (o : options S E) (l : locals S E) (w : turn E).
Implicit Types (ws : list (turn E)) (tr : list action).
Implicit Types (ses : Gamma.Session).

(** What a turn that goes on hands to the next one. *)
Lemma drive_next o ses (anchor : Time) l w l' tr :
  drive o ses anchor l w = (Next l', tr) ->
  err l' = None /\ restore l' = restore l /\ baseFn l' = baseFn l /\
  event l' = wake_event (woken w) /\ lastUpdate l' = update_clock w /\
  Gamma.IsZero (oldLut l') = false.
Proof.
  unfold drive.
  destruct (xft o _ _ _ _) as [[d [[curFn sleepFor] ex]]|]; [|discriminate].
  destruct (Gamma.SetGamma_returns _ _ _); [|discriminate].
  destruct (read_cases (cl o) ses (after_gamma w)) as [(trx & -> & _)| ->];
    [|discriminate].
  destruct (after_gamma w) as [gp|]; cbn [Gamma.GetLookupTable];
    [|discriminate].
  destruct (woken w); intros H; inversion H; subst; cbn; auto 10.
Qed.

Lemma body_next o ses (anchor : Time) l w l' tr :
  err l = None ->
  body o ses anchor l w = (Next l', tr) ->
  err l' = None /\ restore l' = restore l /\
  event l' = wake_event (woken w) /\ lastUpdate l' = update_clock w /\
  Gamma.IsZero (oldLut l') = false /\
  exists g,
    top_gamma w = Some g /\
    let newLut := (Gamma.GetLookupTable (Some g)).1 in
    baseFn l' =
      (if Gamma.IsZero (oldLut l) || negb (Gamma.Equals newLut (oldLut l))
       then Gamma.LookupTable_XferFn newLut else baseFn l) /\
    (Gamma.IsZero (oldLut l) = false ->
     Gamma.Equals newLut (oldLut l) = false ->
     exitOnForeignUpdate o = false).
Proof.
  intros He Hb.
  destruct (body_alive _ _ _ _ _ _ _ (or_introl Hb)) as [Hc Hs].
  revert Hb. destruct (top_gamma w) as [g|] eqn:Hg.
  2:{ rewrite body_failed_read by assumption. discriminate. }
  rewrite (body_read o ses anchor l w g Hc Hs He Hg). cbn zeta.
  unfold after_read.
  assert (Hd : forall lb tr0,
               ((drive o ses anchor lb w).1, tr0) = (Next l', tr) ->
               err l' = None /\ restore l' = restore lb /\
               baseFn l' = baseFn lb /\
               event l' = wake_event (woken w) /\
               lastUpdate l' = update_clock w /\
               Gamma.IsZero (oldLut l') = false).
  { intros lb tr0 H. destruct (drive o ses anchor lb w) as [f tr1] eqn:Hdr.
    cbn in H. inversion H; subst. eapply drive_next; eauto. }
  destruct (Gamma.IsZero (oldLut l)) eqn:Hz.
  { intros H. destruct (Hd _ _ H) as (H1 & H2 & H3 & H4 & H5 & H6).
    repeat (split; [assumption|]). exists g.
    split; [reflexivity|]. split; [exact H3|]. intros Hf. discriminate. }
  destruct (Gamma.Equals _ (oldLut l)) eqn:Heq; cbn [negb orb].
  { intros H. destruct (Hd _ _ H) as (H1 & H2 & H3 & H4 & H5 & H6).
    repeat (split; [assumption|]). exists g.
    split; [reflexivity|]. cbn zeta. rewrite Heq. split; [exact H3|].
    intros _ Hf. discriminate. }
  destruct (exitOnForeignUpdate o) eqn:Hpol; [discriminate|].
  intros H. destruct (Hd _ _ H) as (H1 & H2 & H3 & H4 & H5 & H6).
  repeat (split; [assumption|]). exists g.
  split; [reflexivity|]. cbn zeta. rewrite Heq. split; [exact H3|].
  reflexivity.
Qed.

(** The error that a turn leaves when it breaks the loop. *)
Lemma drive_break o ses (anchor : Time) l w l' tr :
  drive o ses anchor l w = (Break l', tr) ->
  (err l' = None \/ err l' = Some ErrGetCrtcGamma) /\
  restore l' = restore l /\ baseFn l' = baseFn l.
Proof.
  unfold drive.
  destruct (xft o _ _ _ _) as [[d [[curFn sleepFor] ex]]|]; [|discriminate].
  destruct (Gamma.SetGamma_returns _ _ _); [|discriminate].
  destruct (read_cases (cl o) ses (after_gamma w)) as [(trx & -> & _)| ->];
    [|discriminate].
  destruct (after_gamma w) as [gp|]; cbn [Gamma.GetLookupTable].
  - destruct (woken w); intros H; inversion H; subst; cbn; auto.
  - intros H; inversion H; subst; cbn; auto.
Qed.

Lemma body_break o ses (anchor : Time) l w l' tr :
  err l = None ->
  body o ses anchor l w = (Break l', tr) ->
  (err l' = None /\ restore l' = restore l) \/
  (err l' = Some ErrGetCrtcGamma /\ restore l' = restore l) \/
  (err l' = Some ForeignCrtcUpdate /\ restore l' = false /\
   exitOnForeignUpdate o = true /\ Gamma.IsZero (oldLut l) = false).
Proof.
  intros He Hb.
  destruct (body_alive _ _ _ _ _ _ _ (or_intror Hb)) as [Hc Hs].
  revert Hb. destruct (top_gamma w) as [g|] eqn:Hg.
  2:{ rewrite body_failed_read by assumption.
      intros H; inversion H; subst. right. left. auto. }
  rewrite (body_read o ses anchor l w g Hc Hs He Hg). cbn zeta.
  unfold after_read.
  assert (Hd : forall lb tr0,
               ((drive o ses anchor lb w).1, tr0) = (Break l', tr) ->
               restore lb = restore l ->
               (err l' = None /\ restore l' = restore l) \/
               (err l' = Some ErrGetCrtcGamma /\ restore l' = restore l)).
  { intros lb tr0 H Hr. destruct (drive o ses anchor lb w) as [f tr1] eqn:Hdr.
    cbn in H. inversion H; subst.
    destruct (drive_break _ _ _ _ _ _ _ Hdr) as ([H1|H1] & H2 & _);
      [left|right]; split; congruence. }
  destruct (Gamma.IsZero (oldLut l)) eqn:Hz.
  { intros H. destruct (Hd _ _ H eq_refl); auto. }
  destruct (negb _).
  - destruct (exitOnForeignUpdate o) eqn:Hpol.
    + intros H; inversion H; subst. right. right. auto.
    + intros H. destruct (Hd _ _ H eq_refl); auto.
  - intros H. destruct (Hd _ _ H eq_refl); auto.
Qed.

Lemma loop_break o ses (anchor : Time) ws : forall l l' tr,
  err l = None ->
  loop o ses anchor l ws = (Broke l', tr) ->
  (err l' = None /\ restore l' = restore l) \/
  (err l' = Some ErrGetCrtcGamma /\ restore l' = restore l) \/
  (err l' = Some ForeignCrtcUpdate /\ restore l' = false /\
   exitOnForeignUpdate o = true).
Proof.
  induction ws as [|w ws IH]; intros l l' tr He; cbn [loop].
  - destruct (exit l); [|discriminate].
    intros H; inversion H; subst. auto.
  - destruct (exit l).
    { intros H; inversion H; subst. auto. }
    destruct (body o ses anchor l w) as [[l1|l1|] tr1] eqn:Hb.
    + destruct (body_next _ _ _ _ _ _ _ He Hb) as (He1 & Hr1 & _).
      destruct (loop o ses anchor l1 ws) as [s tr2] eqn:Hl.
      intros H; inversion H; subst. rewrite <- Hr1. eapply IH; eauto.
    + intros H; inversion H; subst.
      destruct (body_break _ _ _ _ _ _ _ He Hb) as [H1|[H1|H1]]; auto.
      right. right. tauto.
    + discriminate.
Qed.

(** The baseline after a turn. *)
Lemma drive_baseFn o ses (anchor : Time) l w l' tr :
  drive o ses anchor l w = (Next l', tr) \/
  drive o ses anchor l w = (Break l', tr) ->
  baseFn l' = baseFn l.
Proof.
  intros [H|H].
  - now destruct (drive_next _ _ _ _ _ _ _ H) as (_ & _ & ? & _).
  - now destruct (drive_break _ _ _ _ _ _ _ H) as (_ & _ & ?).
Qed.

Lemma body_baseFn o ses (anchor : Time) l w l' tr :
  err l = None ->
  body o ses anchor l w = (Next l', tr) \/
  body o ses anchor l w = (Break l', tr) ->
  baseFn l' =
    match top_gamma w with
    | None => baseFn l
    | Some g =>
        let newLut := (Gamma.GetLookupTable (Some g)).1 in
        if Gamma.IsZero (oldLut l)
           || (negb (Gamma.Equals newLut (oldLut l))
               && negb (exitOnForeignUpdate o))
        then Gamma.LookupTable_XferFn newLut
        else baseFn l
    end.
Proof.
  intros He Hb. destruct (body_alive _ _ _ _ _ _ _ Hb) as [Hc Hs].
  revert Hb. destruct (top_gamma w) as [g|] eqn:Hg.
  2:{ rewrite body_failed_read by assumption.
      intros [H|H]; inversion H; subst. reflexivity. }
  rewrite (body_read o ses anchor l w g Hc Hs He Hg). cbn zeta.
  unfold after_read.
  assert (Hd : forall lb tr0,
             ((drive o ses anchor lb w).1, tr0) = (Next l', tr) \/
             ((drive o ses anchor lb w).1, tr0) = (Break l', tr) ->
             baseFn l' = baseFn lb).
  { intros lb tr0 H. destruct (drive o ses anchor lb w) as [f tr1] eqn:Hdr.
    cbn in H. apply (drive_baseFn o ses anchor lb w l' tr1).
    destruct H as [H|H]; inversion H; subst; auto. }
  destruct (Gamma.IsZero (oldLut l)); cbn [orb].
  { intros H. now rewrite (Hd _ _ H). }
  destruct (Gamma.Equals _ (oldLut l)); cbn [negb andb].
  { intros H. now rewrite (Hd _ _ H). }
  destruct (exitOnForeignUpdate o); cbn [negb].
  - intros [H|H]; inversion H; subst. reflexivity.
  - intros H. now rewrite (Hd _ _ H).
Qed.

(** Once a baseline is there, it stays. *)
Lemma loop_baseFn_some o ses (anchor : Time) ws : forall l s tr l',
  is_Some (baseFn l) -> err l = None ->
  loop o ses anchor l ws = (s, tr) ->
  s = Broke l' \/ s = Starved l' -> is_Some (baseFn l').
Proof.
  induction ws as [|w ws IH]; intros l s tr l' Hp He; cbn [loop].
  - destruct (exit l); intros H [Hs|Hs]; inversion H; subst;
      inversion H1; subst; exact Hp.
  - destruct (exit l).
    { intros H [Hs|Hs]; inversion H; subst; inversion H1; subst; exact Hp. }
    destruct (body o ses anchor l w) as [[l1|l1|] tr1] eqn:Hb.
    + assert (Hp1 : is_Some (baseFn l1)).
      { rewrite (body_baseFn o ses anchor l w l1 tr1 He (or_introl Hb)).
        destruct (top_gamma w); [|exact Hp]. cbn zeta.
        destruct (_ || _); [eexists; reflexivity|exact Hp]. }
      destruct (body_next _ _ _ _ _ _ _ He Hb) as (He1 & _).
      destruct (loop o ses anchor l1 ws) as [s1 tr2] eqn:Hl.
      intros H Hs. inversion H; subst. eapply IH; eauto.
    + intros H [Hs|Hs]; inversion H; subst; inversion H1; subst.
      rewrite (body_baseFn o ses anchor l w l' tr He (or_intror Hb)).
      destruct (top_gamma w); [|exact Hp]. cbn zeta.
      destruct (_ || _); [eexists; reflexivity|exact Hp].
    + intros H [Hs|Hs]; inversion H; subst; discriminate.
Qed.

(** With exitOnForeignUpdate the baseline is set once. *)
Lemma loop_baseFn_fixed o ses (anchor : Time) ws : forall l s tr l',
  exitOnForeignUpdate o = true ->
  Gamma.IsZero (oldLut l) = false -> err l = None ->
  loop o ses anchor l ws = (s, tr) ->
  s = Broke l' \/ s = Starved l' -> baseFn l' = baseFn l.
Proof.
  induction ws as [|w ws IH]; intros l s tr l' Hpol Hz He; cbn [loop].
  - destruct (exit l); intros H [Hs|Hs]; inversion H; subst;
      inversion H1; subst; reflexivity.
  - destruct (exit l).
    { intros H [Hs|Hs]; inversion H; subst; inversion H1; subst;
        reflexivity. }
    assert (Hb' : forall l1 tr1,
               body o ses anchor l w = (Next l1, tr1) \/
               body o ses anchor l w = (Break l1, tr1) ->
               baseFn l1 = baseFn l).
    { intros l1 tr1 H. rewrite (body_baseFn o ses anchor l w l1 tr1 He H).
      destruct (top_gamma w); [|reflexivity]. cbn zeta.
      rewrite Hz, Hpol, andb_false_r. reflexivity. }
    destruct (body o ses anchor l w) as [[l1|l1|] tr1] eqn:Hb.
    + destruct (body_next _ _ _ _ _ _ _ He Hb)
        as (He1 & _ & _ & _ & Hz1 & _).
      destruct (loop o ses anchor l1 ws) as [s1 tr2] eqn:Hl.
      intros H Hs. inversion H; subst.
      rewrite (IH _ _ _ _ Hpol Hz1 He1 Hl Hs). eapply Hb'; eauto.
    + intros H [Hs|Hs]; inversion H; subst; inversion H1; subst.
      eapply Hb'; eauto.
    + intros H [Hs|Hs]; inversion H; subst; discriminate.
Qed.

(** *** The error channel and the returned error *)

(** X21: when the goroutine returns, what it did on the error channel is:
    send the error if there is one, then close.  As long as it runs, and
    when it panics, it has neither sent nor closed. *)
Theorem error_channel_protocol o (init : S) (w0 : world E) :
  match animate o init w0 with
  | Returned e tr => List.filter on_err_chan tr = bail e
  | Panicked tr | Running tr => List.filter on_err_chan tr = []
  end.
Proof.
  destruct (animate o init w0) as [e tr|tr|tr] eqn:Ha.
  - rewrite (termination_signal o init w0 e tr Ha). now destruct e.
  - revert Ha. unfold animate.
    destruct (Gamma.Client_check (cl o));
      [|intros H; inversion H; subst; reflexivity].
    destruct (new_session w0); [discriminate|].
    pose proof (loop_ok o (session w0) (anchor_of o w0) (turns w0)
                  (start o init) eq_refl) as [[Hq _] _].
    destruct (loop _ _ _ _ _) as [[l| |l] tr0]; cbn in Hq.
    + unfold leave. destruct (restore l); [|discriminate].
      destruct (Gamma.SetGamma_returns _ _ _); [discriminate|].
      intros H; inversion H; subst. cbn. exact Hq.
    + intros H; inversion H; subst. cbn. exact Hq.
    + discriminate.
  - revert Ha. unfold animate.
    destruct (Gamma.Client_check (cl o)); [|discriminate].
    destruct (new_session w0); [discriminate|].
    pose proof (loop_ok o (session w0) (anchor_of o w0) (turns w0)
                  (start o init) eq_refl) as [[Hq _] _].
    destruct (loop _ _ _ _ _) as [[l| |l] tr0]; cbn in Hq.
    + unfold leave.
      destruct (restore l); [destruct (Gamma.SetGamma_returns _ _ _)|];
        discriminate.
    + discriminate.
    + intros H; inversion H; subst. cbn. exact Hq.
Qed.

(** X22: the error that the goroutine returns is the error of
    [NewSession], in which case it does nothing else but send it and
    close; or the error of a failed read; or ForeignCrtcUpdate, which
    requires exitOnForeignUpdate and comes without a restoring write. *)
Theorem returned_errors o (init : S) (w0 : world E) (e : error) tr :
  animate o init w0 = Returned (Some e) tr ->
  (exists f, new_session w0 = Some f /\ e = NewSession_err f /\
             tr = [ActNewSession; ActSend e; ActClose]) \/
  (new_session w0 = None /\ e = ErrGetCrtcGamma) \/
  (new_session w0 = None /\ e = ForeignCrtcUpdate /\
   exitOnForeignUpdate o = true /\ List.filter restoring tr = []).
Proof.
  unfold animate. destruct (Gamma.Client_check (cl o)); [|discriminate].
  destruct (new_session w0) as [f|].
  { intros H; inversion H; subst. left. exists f. auto. }
  pose proof (loop_ok o (session w0) (anchor_of o w0) (turns w0)
                (start o init) eq_refl) as [Hq _].
  destruct (loop _ _ _ _ _) as [[l| |l] tr0] eqn:Hl; [|discriminate..].
  cbn in Hq.
  assert (Hq' : quiet (ActNewSession :: tr0))
    by (destruct Hq; split; cbn; assumption).
  intros Hleave.
  destruct (leave_restores_baseline _ _ _ _ _ _ Hq' Hleave) as [He Hres].
  destruct (loop_break o _ _ _ (start o init) _ _ eq_refl Hl)
    as [H1|[H1|H1]].
  - destruct H1; congruence.
  - right. left. destruct H1. split; [reflexivity|congruence].
  - right. right. destruct H1 as (H1 & H2 & H3).
    rewrite H2 in Hres. repeat split; auto; congruence.
Qed.

(** *** Between two turns *)

Lemma loop_starved o ses (anchor : Time) ws : forall l l' tr,
  Gamma.IsZero (oldLut l) = true \/ is_Some (baseFn l) -> err l = None ->
  loop o ses anchor l ws = (Starved l', tr) ->
  (Gamma.IsZero (oldLut l') = true \/ is_Some (baseFn l')) /\
  err l' = None /\ exit l' = false /\ restore l' = restore l.
Proof.
  induction ws as [|w ws IH]; intros l l' tr HJ He; cbn [loop].
  - destruct (exit l) eqn:Hex; [discriminate|].
    intros H; inversion H; subst. auto.
  - destruct (exit l) eqn:Hex; [discriminate|].
    destruct (body o ses anchor l w) as [[l1|l1|] tr1] eqn:Hb;
      [|discriminate..].
    destruct (body_next _ _ _ _ _ _ _ He Hb)
      as (He1 & Hr1 & _ & _ & _ & g & _ & Hbase & _).
    cbn zeta in Hbase.
    assert (HJ1 : is_Some (baseFn l1)).
    { rewrite Hbase. destruct HJ as [Hz|Hp].
      - rewrite Hz. cbn. eexists; reflexivity.
      - destruct (_ || _); [eexists; reflexivity|exact Hp]. }
    destruct (loop o ses anchor l1 ws) as [s1 tr2] eqn:Hl.
    intros H; inversion H; subst.
    destruct (IH _ _ _ (or_intror HJ1) He1 Hl) as (H1 & H2 & H3 & H4).
    repeat split; auto. congruence.
Qed.

(** X24: when the loop has run some turns and goes on, the event in hand
    for the next call of the driver is the one received in the select of
    the last turn (nil after the timer), lastUpdate is the clock of the last
    update, no error is pending, restore is still restoreOnExit, and the
    baseline is not nil. *)
Theorem between_turns o ses (init : S) (anchor : Time) ws (wp : turn E)
        l tr :
  loop o ses anchor (start o init) (ws ++ [wp]) = (Starved l, tr) ->
  event l = wake_event (woken wp) /\
  lastUpdate l = update_clock wp /\
  exit l = false /\ err l = None /\
  restore l = restoreOnExit o /\ is_Some (baseFn l).
Proof.
  intros Hloop.
  destruct (loop_snoc _ _ _ _ _ _ _ _ Hloop)
    as (l0 & tr0 & tr1 & Hl0 & Hb & -> & Hex).
  destruct (loop_starved o ses anchor ws (start o init) l0 tr0
              (or_introl eq_refl) eq_refl Hl0) as (HJ0 & He0 & _ & Hr0).
  change (restore (start o init)) with (restoreOnExit o) in Hr0.
  destruct (body_next _ _ _ _ _ _ _ He0 Hb)
    as (He & Hr & Hev & Hlu & _ & g & _ & Hbase & _).
  cbn zeta in Hbase.
  repeat (split; [first [assumption|congruence]|]).
  rewrite Hbase. destruct HJ0 as [Hz|Hp].
  - rewrite Hz. cbn. eexists; reflexivity.
  - destruct (_ || _); [eexists; reflexivity|exact Hp].
Qed.

(** *** What the write after the loop restores *)

(** X25: with exitOnForeignUpdate and restoreOnExit, whenever the
    goroutine returns without ForeignCrtcUpdate after a successful first
    read, the one restoring write hands the device the function derived
    from the table of that first read. *)
Theorem restore_writes_first_snapshot o (init : S) (w0 : world E)
        (w1 : turn E) (rest : list (turn E)) (g0 : Gamma.XRRCrtcGamma)
        (e : option error) tr :
  exitOnForeignUpdate o = true -> restoreOnExit o = true ->
  new_session w0 = None -> turns w0 = w1 :: rest ->
  top_gamma w1 = Some g0 ->
  animate o init w0 = Returned e tr ->
  e <> Some ForeignCrtcUpdate ->
  List.filter restoring tr =
    [ActSetGamma OnExit
       (Gamma.LookupTable_XferFn (Gamma.GetLookupTable (Some g0)).1)].
Proof.
  intros Hpol Hro Hns Hturns Hg. unfold animate.
  destruct (Gamma.Client_check (cl o)); [|discriminate].
  rewrite Hns, Hturns.
  destruct (loop o (session w0) (anchor_of o w0) (start o init) (w1 :: rest))
    as [[l'| |l'] tr0] eqn:Hl; [|discriminate..].
  intros Hleave Hne.
  pose proof (loop_ok o (session w0) (anchor_of o w0) (w1 :: rest)
                (start o init) eq_refl) as [Hq _].
  rewrite Hl in Hq. cbn in Hq.
  assert (Hq' : quiet (ActNewSession :: tr0))
    by (destruct Hq; split; cbn; assumption).
  destruct (leave_restores_baseline _ _ _ _ _ _ Hq' Hleave) as [He Hres].
  assert (Hr : restore l' = true).
  { destruct (loop_break o _ _ _ (start o init) _ _ eq_refl Hl)
      as [[_ H]|[[_ H]|(H & _)]]; cbn in H; congruence. }
  rewrite Hr in Hres. rewrite Hres. do 2 f_equal.
  revert Hl. cbn [loop start exit].
  destruct (body o (session w0) (anchor_of o w0) (start o init) w1)
    as [[l1|l1|] tr1] eqn:Hbody; [| |discriminate].
  - pose proof (body_baseFn o _ _ (start o init) _ _ _ eq_refl
                  (or_introl Hbody)) as Hb1.
    rewrite Hg in Hb1. cbn zeta in Hb1.
    change (Gamma.IsZero (oldLut (start o init))) with true in Hb1.
    cbn [orb] in Hb1.
    destruct (body_next o _ _ (start o init) _ _ _ eq_refl Hbody)
      as (He1 & _ & _ & _ & Hz1 & _).
    destruct (loop o (session w0) (anchor_of o w0) l1 rest)
      as [s1 tr2] eqn:Hl1.
    intros H; inversion H; subst.
    rewrite (loop_baseFn_fixed o _ _ _ l1 _ _ l' Hpol Hz1 He1 Hl1
               (or_introl eq_refl)).
    exact Hb1.
  - pose proof (body_baseFn o _ _ (start o init) _ _ _ eq_refl
                  (or_intror Hbody)) as Hb1.
    rewrite Hg in Hb1. cbn zeta in Hb1.
    change (Gamma.IsZero (oldLut (start o init))) with true in Hb1.
    cbn [orb] in Hb1.
    intros H; inversion H; subst. exact Hb1.
Qed.

(** *** Cancel and the exit flag *)

(** X26: the exit flag of the driver and the cancel channel end the loop
    after the turn is complete.  In a turn where both reads succeed, no
    foreign update stops the loop, the write of the driver's function
    returns, and the driver raises the exit flag or the select takes
    cancel, the goroutine writes the function of the driver, reads back
    and arms the timer; then, provided the write of the baseline returns
    when restoreOnExit asks for it, it restores the baseline, closes the
    error channel without sending, and closes the session.  The rest of
    the script is not consulted. *)
Theorem stops_after_the_turn o (init : S) (w0 : world E) ws (w : turn E)
        (rest : list (turn E)) l tr (g g' : Gamma.XRRCrtcGamma)
        (d : S) (fn : Gamma.closure) (sl : Duration) (ex : bool) :
  new_session w0 = None ->
  Gamma.crtcs (session w0) <> [] ->
  turns w0 = ws ++ w :: rest ->
  loop o (session w0) (anchor_of o w0) (start o init) ws = (Starved l, tr) ->
  top_gamma w = Some g -> after_gamma w = Some g' ->
  let newLut := (Gamma.GetLookupTable (Some g)).1 in
  let foreign_ :=
    Gamma.IsZero (oldLut l) || negb (Gamma.Equals newLut (oldLut l)) in
  let base :=
    if foreign_ then Gamma.LookupTable_XferFn newLut else baseFn l in
  (Gamma.IsZero (oldLut l) = false -> foreign_ = true ->
   exitOnForeignUpdate o = false) ->
  xft o (driver l) (Time_Sub (xft_clock w) (anchor_of o w0)) base (event l)
    = Some (d, (Some fn, sl, ex)) ->
  Gamma.SetGamma_returns (cl o) (session w0) (Some fn) = true ->
  (restoreOnExit o = true ->
   Gamma.SetGamma_returns (cl o) (session w0) base = true) ->
  ex = true \/ woken w = Cancelled ->
  animate o init w0 =
    Returned None
      (ActNewSession :: tr ++
       [ActGetLookupTable; ActSetGamma InLoop (Some fn); ActGetLookupTable;
        ActTimerReset (wait o sl (update_clock w) (lastUpdate l))] ++
       (if restoreOnExit o then [ActSetGamma OnExit base] else []) ++
       [ActClose; ActSessionClose]).
Proof.
  intros Hns Hcs Hturns Hloop Hg Hg' newLut foreign_ base Hpol Hx Hw Hrest
         Hstop.
  pose proof (SetGamma_returns_check _ _ _ Hw) as Hc.
  destruct (loop_starved o _ _ ws (start o init) l tr
              (or_introl eq_refl) eq_refl Hloop) as (HJ & He & Hex & Hr).
  change (restore (start o init)) with (restoreOnExit o) in Hr.
  pose proof (body_step o (session w0) (anchor_of o w0) l w g g' d
                (Some fn) sl ex Hc Hcs He Hg Hg' Hpol Hx Hw) as Hbody.
  cbn zeta in Hbody. fold newLut foreign_ base in Hbody.
  rewrite (animate_loop o init w0 Hc Hns), Hturns.
  rewrite (loop_app _ _ _ _ _ _ _ _ Hloop).
  destruct (woken w) eqn:Hwk.
  - rewrite (loop_broke o _ _ l _ w rest _ Hex Hbody). cbn [fst snd].
    unfold leave. cbn [restore baseFn err]. rewrite Hr.
    destruct (restoreOnExit o); [rewrite (Hrest eq_refl)|]; cbn;
      rewrite <- ?app_assoc; reflexivity.
  - destruct Hstop as [->|Hcn]; [|discriminate].
    rewrite (loop_next o _ _ l _ w rest _ Hex Hbody).
    rewrite loop_exit by reflexivity. cbn [fst snd].
    unfold leave. cbn [restore baseFn err set_event]. rewrite Hr.
    destruct (restoreOnExit o); [rewrite (Hrest eq_refl)|]; cbn;
      rewrite <- ?app_assoc, ?app_nil_r; reflexivity.
  - destruct Hstop as [->|Hcn]; [|discriminate].
    rewrite (loop_next o _ _ l _ w rest _ Hex Hbody).
    rewrite loop_exit by reflexivity. cbn [fst snd].
    unfold leave. cbn [restore baseFn err]. rewrite Hr.
    destruct (restoreOnExit o); [rewrite (Hrest eq_refl)|]; cbn;
      rewrite <- ?app_assoc, ?app_nil_r; reflexivity.
Qed.

(** *** The panic of the write after the loop *)

Lemma healthy_returns o ses (fn : Gamma.XferFn) :
  Gamma.Client_check (cl o) = true -> healthy ses ->
  Gamma.total_below_1 fn ->
  Gamma.SetGamma_returns (cl o) ses fn = true.
Proof.
  intros Hc [_ Hall] Hfn. apply SetGamma_returns_total; auto.
  eapply Forall_impl; [exact Hall|]. now intros c [_ Hg].
Qed.

(** A turn on a healthy session, with a driver that behaves, does not
    panic, and leaves a baseline that does not panic below 1. *)
Lemma body_total o ses (anchor : Time) l w :
  well_behaved (xft o) -> Gamma.Client_check (cl o) = true ->
  healthy ses -> err l = None ->
  forall g, top_gamma w = Some g -> ramps g ->
  Gamma.IsZero (oldLut l) = true \/ Gamma.total_below_1 (baseFn l) ->
  (body o ses anchor l w).1 <> Panic /\
  forall l', (body o ses anchor l w).1 = Next l' \/
             (body o ses anchor l w).1 = Break l' ->
             Gamma.total_below_1 (baseFn l').
Proof.
  intros Hwb Hc Hh He g Hg (Hr & Hgr & Hbl) HJ.
  pose proof (proj1 Hh) as Hcs.
  assert (Hder : Gamma.total_below_1
                   (Gamma.LookupTable_XferFn
                      (Gamma.GetLookupTable (Some g)).1))
    by (now apply total_read_table).
  assert (Hd : forall lb, Gamma.total_below_1 (baseFn lb) ->
               (drive o ses anchor lb w).1 <> Panic /\
               forall l', (drive o ses anchor lb w).1 = Next l' \/
                          (drive o ses anchor lb w).1 = Break l' ->
                          Gamma.total_below_1 (baseFn l')).
  { intros lb Hlb. split.
    - unfold drive.
      destruct (Hwb (driver lb) (Time_Sub (xft_clock w) anchor) (baseFn lb)
                  (event lb) Hlb) as (s' & fn & sl & ex & Hx & Hfn).
      rewrite Hx, (healthy_returns o ses _ Hc Hh Hfn).
      destruct (read_cases (cl o) ses (after_gamma w))
        as [(trx & -> & _)|Hp].
      2:{ exfalso. revert Hp. unfold Gamma.Session_GetLookupTable.
          rewrite Hc. destruct (Gamma.crtcs ses);
            [contradiction|discriminate]. }
      destruct (Gamma.GetLookupTable (after_gamma w)) as [old e].
      destruct e; [discriminate|]. destruct (woken w); discriminate.
    - intros l' Hl'.
      destruct (drive o ses anchor lb w) as [f tr0] eqn:Hdr. cbn in Hl'.
      rewrite (drive_baseFn o ses anchor lb w l' tr0); [exact Hlb|].
      destruct Hl' as [-> | ->]; auto. }
  rewrite (body_read o ses anchor l w g Hc Hcs He Hg). cbn zeta.
  destruct (Gamma.IsZero (oldLut l)) eqn:Hz.
  { unfold after_read. cbn [fst]. now apply Hd. }
  assert (Hl : Gamma.total_below_1 (baseFn l))
    by (destruct HJ; [discriminate|assumption]).
  destruct (negb _).
  - destruct (exitOnForeignUpdate o).
    + cbn [fst]. split; [discriminate|].
      intros l' [H|H]; inversion H; subst. exact Hl.
    + unfold after_read. cbn [fst]. now apply Hd.
  - unfold after_read. cbn [fst]. now apply Hd.
Qed.

Lemma loop_total o ses (anchor : Time) ws : forall l s tr,
  well_behaved (xft o) -> Gamma.Client_check (cl o) = true ->
  healthy ses ->
  Forall (fun w => forall g, top_gamma w = Some g -> ramps g) ws ->
  err l = None -> Gamma.total_below_1 (baseFn l) ->
  loop o ses anchor l ws = (s, tr) ->
  s <> Crashed /\
  forall l', s = Broke l' -> Gamma.total_below_1 (baseFn l').
Proof.
  induction ws as [|w ws IH]; intros l s tr Hwb Hc Hh Hws He Hl;
    cbn [loop].
  - destruct (exit l); intros H; inversion H; subst;
      (split; [discriminate|]); intros l' Hl'; inversion Hl'; subst;
      exact Hl.
  - destruct (exit l).
    { intros H; inversion H; subst. split; [discriminate|].
      intros l' Hl'; inversion Hl'; subst. exact Hl. }
    inversion Hws as [|? ? Hw Hws']; subst.
    destruct (top_gamma w) as [g|] eqn:Hg.
    2:{ rewrite (body_failed_read o ses anchor l w Hc (proj1 Hh) Hg).
        intros H; inversion H; subst. split; [discriminate|].
        intros l' Hl'; inversion Hl'; subst. exact Hl. }
    destruct (body_total o ses anchor l w Hwb Hc Hh He g Hg (Hw g eq_refl)
                (or_intror Hl)) as [Hnp Hb].
    destruct (body o ses anchor l w) as [[l1|l1|] tr1] eqn:Hbody;
      cbn [fst] in *.
    + destruct (body_next _ _ _ _ _ _ _ He Hbody) as (He1 & _).
      destruct (loop o ses anchor l1 ws) as [s1 tr2] eqn:Hl1.
      intros H; inversion H; subst.
      eapply (IH l1); eauto.
    + intros H; inversion H; subst. split; [discriminate|].
      intros l' Hl'; inversion Hl'; subst. eauto.
    + contradiction.
Qed.

(** X23: on a healthy session of an open client, with a driver that
    behaves and a device whose ramps are never empty, the goroutine panics
    exactly when the session was opened without an error, restoreOnExit is
    set and the very first read of the table fails: the baseline is then
    still nil when it is written back. *)
Theorem nil_baseline_panic o (init : S) (w0 : world E) :
  well_behaved (xft o) -> Gamma.Client_check (cl o) = true ->
  healthy (session w0) ->
  Forall (fun w => forall g, top_gamma w = Some g -> ramps g) (turns w0) ->
  (exists tr, animate o init w0 = Panicked tr) <->
  new_session w0 = None /\ restoreOnExit o = true /\
  exists w rest, turns w0 = w :: rest /\ top_gamma w = None.
Proof.
  intros Hwb Hc Hh Hws. pose proof (proj1 Hh) as Hcs. split.
  - intros [tr Ha]. revert Ha. unfold animate. rewrite Hc.
    destruct (new_session w0); [discriminate|].
    destruct (turns w0) as [|w rest] eqn:Hturns.
    { cbn. discriminate. }
    inversion Hws as [|? ? Hw Hws']; subst.
    destruct (top_gamma w) as [g|] eqn:Hg.
    + cbn [loop start exit].
      destruct (body_total o (session w0) (anchor_of o w0) (start o init) w
                  Hwb Hc Hh eq_refl g Hg (Hw g eq_refl)
                  (or_introl eq_refl)) as [Hnp Hb].
      destruct (body o (session w0) (anchor_of o w0) (start o init) w)
        as [[l1|l1|] tr1] eqn:Hbody; cbn [fst] in *.
      * destruct (body_next o _ _ (start o init) _ _ _ eq_refl Hbody)
          as (He1 & _).
        destruct (loop o (session w0) (anchor_of o w0) l1 rest)
          as [s1 tr2] eqn:Hl1.
        destruct (loop_total o _ _ rest l1 s1 tr2 Hwb Hc Hh Hws' He1
                    (Hb l1 (or_introl eq_refl)) Hl1) as [Hnc Hbt].
        destruct s1 as [l'| |l']; [|congruence|discriminate].
        unfold leave. rewrite (healthy_returns o _ _ Hc Hh (Hbt l' eq_refl)).
        destruct (restore l'); discriminate.
      * unfold leave.
        rewrite (healthy_returns o _ _ Hc Hh (Hb l1 (or_intror eq_refl))).
        destruct (restore l1); discriminate.
      * congruence.
    + cbn [loop start exit].
      rewrite (body_failed_read o _ _ _ w Hc Hcs Hg).
      unfold leave.
      change (restore (set_err (start o init) (Some ErrGetCrtcGamma)))
        with (restoreOnExit o).
      destruct (restoreOnExit o); [|discriminate]. intros _.
      split; [reflexivity|]. split; [reflexivity|]. eauto.
  - intros (Hns & Hro & w & rest & Hturns & Hg).
    rewrite (animate_loop o init w0 Hc Hns), Hturns.
    rewrite (loop_broke o _ _ (start o init) _ w rest _ eq_refl
               (body_failed_read o _ _ _ w Hc Hcs Hg)).
    unfold leave.
    change (restore (set_err (start o init) (Some ErrGetCrtcGamma)))
      with (restoreOnExit o).
    change (baseFn (set_err (start o init) (Some ErrGetCrtcGamma)))
      with (@None Gamma.closure).
    rewrite Hro.
    destruct Hh as [_ Hall].
    destruct (Gamma.crtcs (session w0)) as [|c cs] eqn:Hcrtcs;
      [contradiction|].
    inversion Hall as [|? ? [[Hsz _] _] _]; subst.
    rewrite (SetGamma_returns_nil (cl o) (session w0) c cs Hcrtcs Hsz).
    eauto.
Qed.

End AnimateMore.

(** ** The options *)

Section OptionsMore.
Import Animate.
Context {S E : Type}.
Implicit Types (o : options S E).

(** X27: [UpdatesPerSecond(u)] drops the fraction of u before dividing:
    for u strictly between -1 and 1 the option panics (division by zero)
    when applied, and for u from 1 up to the largest Duration the interval
    is one second divided by the integer part of u, between 0 and 1s. *)
Theorem UpdatesPerSecond_truncates (overflow : R -> Duration) (u : R) o :
  ((-1 < u < 1)%R -> UpdatesPerSecond overflow u o = None) /\
  ((1 <= u < IZR maxInt64 + 1)%R ->
   UpdatesPerSecond overflow u o
     = Some (UpdateInterval (Second ÷ Zfloor u)%Z o) /\
   (0 <= Second ÷ Zfloor u <= Second)%Z).
Proof.
  assert (Hmin : (IZR minInt64 - 1 < -1)%R).
  { change (-1)%R with (IZR (-1)). rewrite <- minus_IZR. apply IZR_lt.
    reflexivity. }
  assert (Hmax : (1 < IZR maxInt64 + 1)%R).
  { change 1%R with (IZR 1). rewrite <- plus_IZR. apply IZR_lt.
    reflexivity. }
  split.
  - intros Hu. unfold UpdatesPerSecond, Duration_of_float64.
    destruct (Rlt_dec (IZR minInt64 - 1) u); [|lra].
    destruct (Rlt_dec u (IZR maxInt64 + 1)); [|lra].
    assert (H0 : int_of_float64 u = 0%Z).
    { unfold int_of_float64. destruct (Rlt_dec u 0).
      - unfold Zceil. rewrite (Zfloor_eq 0%Z (- u)%R); [reflexivity|simpl; lra].
      - apply Zfloor_eq. simpl. lra. }
    now rewrite H0.
  - intros Hu. unfold UpdatesPerSecond, Duration_of_float64.
    destruct (Rlt_dec (IZR minInt64 - 1) u); [|lra].
    destruct (Rlt_dec u (IZR maxInt64 + 1)); [|lra].
    assert (H1 : int_of_float64 u = Zfloor u).
    { unfold int_of_float64. destruct (Rlt_dec u 0); [lra|reflexivity]. }
    assert (Hpos : (1 <= Zfloor u)%Z) by (apply Zfloor_lub; simpl; lra).
    rewrite H1.
    destruct (Z.eqb_spec (Zfloor u) 0); [lia|].
    split; [reflexivity|].
    rewrite Z.quot_div_nonneg by (unfold Second; lia).
    split.
    + apply Z.div_pos; unfold Second; lia.
    + apply Z.div_le_upper_bound; [lia|]. unfold Second. nia.
Qed.

(** X28: with [InitialClock(t0)] the time handed to the driver is t0 plus
    the time elapsed since the anchor was taken, as long as that fits a
    Duration and t0 is not the smallest Duration. *)
Theorem InitialClock_offsets_clock o (w0 : world E) (t0 : Duration)
        (now : Time) :
  is_int64 t0 -> t0 <> minInt64 ->
  is_int64 (t0 + (now - anchor_clock w0)) ->
  Time_Sub now (anchor_of (InitialClock t0 o) w0)
    = (t0 + (now - anchor_clock w0))%Z.
Proof.
  unfold is_int64, minInt64, maxInt64. intros Ht Hne Hr.
  unfold anchor_of, InitialClock, Time_Add, Time_Sub, dneg, wrap64, sat64,
    minInt64, maxInt64 in *.
  cbn [initialClock].
  rewrite Z.mod_small by lia. lia.
Qed.

End OptionsMore.

(** ** Sample runs, the cancel function and the driver blink *)

Section AnimateRunsMore.
Import Animate.

Lemma returned_errors_witness :
  exists tr,
    animate blinking tt failed_read = Returned (Some ErrGetCrtcGamma) tr.
Proof.
  eexists.
  destruct (returned_errors blinking tt failed_read ErrGetCrtcGamma _
              failed_read_run)
    as [(f & Hf & _)|[[_ _]|(_ & He & _)]];
    [discriminate|exact failed_read_run|discriminate].
Defined.

Lemma nil_baseline_panic_witness :
  exists tr, animate blinking tt failed_first_read = Panicked tr.
Proof.
  apply (nil_baseline_panic blinking tt failed_first_read).
  - intros s t b ev Hb. unfold blinking, Animate. cbn [xft foldl].
    unfold blink.
    destruct (Z.rem t (2 * Second) <? Second)%Z.
    + do 4 eexists. split; [reflexivity|]. now apply total_dimmed.
    + destruct b as [f|].
      * do 4 eexists. split; [reflexivity|]. exact Hb.
      * exfalso. destruct (Hb Gamma.Red 0%R) as [y Hy]; [lra|discriminate].
  - reflexivity.
  - split; [discriminate|]. repeat constructor; try (vm_compute; congruence).
    eexists; reflexivity.
  - constructor; [intros g Hg; discriminate|constructor].
  - split; [reflexivity|]. split; [reflexivity|].
    do 2 eexists. split; reflexivity.
Defined.

Lemma between_turns_witness :
  exists l tr,
    loop blinking session4 now0 (start blinking tt) [turn1]
      = (Starved l, tr) /\
    event l = None /\ lastUpdate l = (now0 + 2 * Millisecond)%Z.
Proof.
  do 2 eexists. split; [exact foreign_first_turn|].
  destruct (between_turns blinking session4 tt now0 [] turn1 _ _
              foreign_first_turn) as (Hev & Hlu & _).
  split; [exact Hev|exact Hlu].
Defined.

Lemma restore_writes_first_snapshot_witness :
  exists tr,
    animate blinking tt clean_exit = Returned None tr /\
    List.filter restoring tr =
      [ActSetGamma OnExit (Gamma.LookupTable_XferFn Gamma.lut4)].
Proof.
  eexists. split; [exact clean_exit_run|].
  apply (restore_writes_first_snapshot blinking tt clean_exit _ []
           Gamma.gamma4 None _ eq_refl eq_refl eq_refl eq_refl eq_refl
           clean_exit_run).
  discriminate.
Defined.

Lemma stops_after_the_turn_witness :
  exists fn d,
    animate blinking tt clean_exit =
      Returned None
        [ActNewSession; ActGetLookupTable; ActSetGamma InLoop (Some fn);
         ActGetLookupTable; ActTimerReset d;
         ActSetGamma OnExit (Gamma.LookupTable_XferFn Gamma.lut4);
         ActClose; ActSessionClose].
Proof.
  do 2 eexists.
  refine (stops_after_the_turn blinking tt clean_exit [] _ [] _ []
            Gamma.gamma4 Gamma.gamma4 tt _ _ true
            eq_refl _ eq_refl eq_refl eq_refl eq_refl _ eq_refl
            (session4_returns _ (total_dimmed _ total_lut4))
            (fun _ => session4_returns _ total_lut4) _).
  - discriminate.
  - intros H. discriminate.
  - left. reflexivity.
Defined.

Lemma UpdatesPerSecond_truncates_witness :
  UpdatesPerSecond (fun _ => 0%Z) (1 / 2) blinking = None /\
  UpdatesPerSecond (fun _ => 0%Z) (5 / 2) blinking
    = Some (UpdateInterval (Second ÷ Zfloor (5 / 2))%Z blinking).
Proof.
  split.
  - apply (proj1 (UpdatesPerSecond_truncates (fun _ => 0%Z) (1 / 2)
                    blinking)).
    lra.
  - apply (proj2 (UpdatesPerSecond_truncates (fun _ => 0%Z) (5 / 2)
                    blinking)).
    split; [lra|]. apply Rlt_trans with (IZR 3); [simpl; lra|].
    change 1%R with (IZR 1). rewrite <- plus_IZR. apply IZR_lt. reflexivity.
Defined.

Lemma InitialClock_offsets_clock_witness :
  Time_Sub (now0 + Second)
           (anchor_of (InitialClock (3 * Second)%Z blinking) clean_exit)
    = (4 * Second)%Z.
Proof.
  apply (InitialClock_offsets_clock blinking clean_exit (3 * Second)%Z
           (now0 + Second)%Z).
  - split; vm_compute; discriminate.
  - vm_compute; discriminate.
  - split; vm_compute; discriminate.
Defined.

(** X29: however often the CancelFunc is called, the cancel channel is
    closed once, by the first call. *)
Theorem CancelFunc_closes_once (n : nat) :
  cancel_calls (Datatypes.S n) false = (true, 1%nat) /\
  cancel_calls n true = (true, 0%nat).
Proof.
  assert (H : forall m, cancel_calls m true = (true, 0%nat)).
  { induction m as [|m IH]; [reflexivity|]. cbn. now rewrite IH. }
  split; [|apply H]. cbn. now rewrite H.
Qed.

(** X30: for a clock that is not negative, [blink] asks to sleep until the
    start of the next second, at most one second and never zero; it asks
    to exit exactly after 5s or on any event; and called at any time before
    that next second it returns the same function. *)
Theorem blink_sleeps_to_next_second {E} (t : Duration) (b : Gamma.XferFn)
        (ev : option E) :
  (0 <= t)%Z -> is_int64 t ->
  exists fn sl ex,
    blink tt t b ev = Some (tt, (fn, sl, ex)) /\
    (0 < sl <= Second)%Z /\ ((t + sl) mod Second = 0)%Z /\
    (ex = true <-> (5 * Second < t)%Z \/ is_Some ev) /\
    forall t' (ev' : option E), (t <= t' < t + sl)%Z ->
      exists sl' ex', blink tt t' b ev' = Some (tt, (fn, sl', ex')).
Proof.
  intros Ht Hint. unfold blink. do 3 eexists. split; [reflexivity|].
  assert (Hrem : (0 <= Z.rem t Second < Second)%Z).
  { apply Z.rem_bound_pos; [exact Ht|reflexivity]. }
  assert (Hs : dsub Second (Z.rem t Second) = (Second - Z.rem t Second)%Z).
  { apply dsub_small. unfold is_int64, minInt64, maxInt64, Second in *. lia. }
  rewrite Hs. split; [lia|]. split.
  { rewrite Z.rem_mod_nonneg by (unfold Second; lia).
    replace (t + (Second - t mod Second))%Z
      with (Second + (t - t mod Second))%Z by lia.
    rewrite (Z.div_mod t Second) at 1 by (unfold Second; lia).
    replace (Second + (Second * (t / Second) + t mod Second - t mod Second))%Z
      with ((1 + t / Second) * Second)%Z by lia.
    apply Z.mod_mul. unfold Second. lia. }
  split.
  { destruct ev as [x|]; cbn.
    - split; [eauto|reflexivity].
    - destruct (Z.gtb_spec t (5 * Second)); split; auto; try lia;
        try discriminate.
      intros [H'|[x H']]; [lia|discriminate]. }
  intros t' ev' Ht'. do 2 eexists. do 3 f_equal.
  assert (Hq : (Z.rem t' (2 * Second) <? Second)%Z
               = (Z.rem t (2 * Second) <? Second)%Z).
  { rewrite !Z.rem_mod_nonneg by (unfold Second in *; lia).
    rewrite Z.rem_mod_nonneg in Ht', Hrem by (unfold Second in *; lia).
    unfold Second in *.
    destruct (Z.ltb_spec (t' mod (2 * 1000000000)) 1000000000);
      destruct (Z.ltb_spec (t mod (2 * 1000000000)) 1000000000);
      try reflexivity; exfalso;
      Z.to_euclidean_division_equations; lia. }
  rewrite Hq. reflexivity.
Qed.

Lemma blink_sleeps_to_next_second_witness :
  exists fn sl ex,
    blink tt (2500 * Millisecond)%Z Gamma.identity (None : option unit)
      = Some (tt, (fn, sl, ex)) /\
    (0 < sl <= Second)%Z /\ ((2500 * Millisecond + sl) mod Second = 0)%Z.
Proof.
  destruct (blink_sleeps_to_next_second (2500 * Millisecond)%Z Gamma.identity
              (None : option unit))
    as (fn & sl & ex & H1 & H2 & H3 & _).
  - vm_compute; discriminate.
  - split; vm_compute; discriminate.
  - exists fn, sl, ex. auto.
Defined.

End AnimateRunsMore.
